(** * The streaming message parser of bolt.diy (app/lib/runtime/message-parser.ts)

    A shallow embedding of [StreamingMessageParser] and of the helpers it
    calls, and the properties of its specification.

    - JavaScript strings are lists of characters, positions are natural
      numbers, [undefined] is [None], [indexOf] returning [-1] is [None].
      Characters are [ascii]: the code units 0..255.
    - The state of a message is a record; the loop of [parse] is a
      function of the state and of the position, one pass at a time.
    - The callbacks of the options are optional members: the model keeps
      which of them the options hold.  A call that the code makes is
      recorded as an event, in the order of the calls; what the callback
      does with its argument is the code of the caller.  An event holds
      the record as it is at the moment of the call; the source hands the
      action object itself to the callback and goes on writing to it.
    - An exception is an explicit outcome, with the state as the code had
      written it when the exception was raised: the state object is in the
      table of the parser from the start of the call.
    - The regular expressions of the source are written out as the
      functions they compute, with the reason next to each.
    - The console and logger calls of the source have no effect on state,
      output or callbacks and are left out. *)

From Stdlib Require Import Ascii String.
From Stdlib Require Import List ZArith Lia Bool Arith PeanoNat FinFun.
From Stdlib Require Import DecimalString DecimalZ.
Import ListNotations.

Open Scope list_scope.

(* ================================================================== *)
(** ** JavaScript strings *)
(* ================================================================== *)

Module JS.

Definition jsstring := list ascii.

(** String literals of the source. *)
Definition str (s : string) : jsstring := list_ascii_of_string s.

(** The double quote. *)
Definition dq : ascii := "034"%char.

(** String literals that hold double quotes: they are written with an
    apostrophe in place of each double quote. *)
Definition qstr (s : string) : jsstring :=
  map (fun c => if Ascii.eqb c "'"%char then dq else c) (str s).

Definition eqc (a b : ascii) : bool := Ascii.eqb a b.

Fixpoint eqs (a b : jsstring) : bool :=
  match a, b with
  | [], [] => true
  | x :: a', y :: b' => eqc x y && eqs a' b'
  | _, _ => false
  end.

(** [prefixb p s]: [s] begins with [p]. *)
Fixpoint prefixb (p s : jsstring) : bool :=
  match p with
  | [] => true
  | x :: p' => match s with
               | [] => false
               | y :: s' => eqc x y && prefixb p' s'
               end
  end.

(** [s.startsWith(p, i)] *)
Definition startsWith (p s : jsstring) (i : nat) : bool := prefixb p (skipn i s).

(** Offset of the first occurrence of [p] in [s]. *)
Fixpoint find (p s : jsstring) : option nat :=
  if prefixb p s then Some 0
  else match s with
       | [] => None
       | _ :: s' => option_map S (find p s')
       end.

(** [s.indexOf(p, i)], with [None] for [-1]. *)
Definition indexOf (p s : jsstring) (i : nat) : option nat :=
  option_map (fun k => i + k) (find p (skipn i s)).

(** [s.slice(a, b)] for non-negative [a], [b]. *)
Definition slice (s : jsstring) (a b : nat) : jsstring := firstn (b - a) (skipn a s).

(** [s.slice(a)] *)
Definition sliceFrom (s : jsstring) (a : nat) : jsstring := skipn a s.

(** [s[i]] *)
Definition charAt (s : jsstring) (i : nat) : option ascii := nth_error s i.

(** [s.endsWith(p)] *)
Definition endsWith (p s : jsstring) : bool :=
  (length p <=? length s) && eqs (skipn (length s - length p) s) p.

(** White space and line terminators of ECMAScript among the code units
    0..255: TAB, LF, VT, FF, CR, SPACE, NBSP.  This is the set of [\s] and
    of [trim]. *)
Definition isSpace (c : ascii) : bool :=
  let n := nat_of_ascii c in
  ((9 <=? n) && (n <=? 13)) || (n =? 32) || (n =? 160).

(** [\w] is [[A-Za-z0-9_]]. *)
Definition isWord (c : ascii) : bool :=
  let n := nat_of_ascii c in
  ((48 <=? n) && (n <=? 57)) || ((65 <=? n) && (n <=? 90))
  || ((97 <=? n) && (n <=? 122)) || (n =? 95).

Fixpoint dropWhile (f : ascii -> bool) (s : jsstring) : jsstring :=
  match s with
  | [] => []
  | c :: s' => if f c then dropWhile f s' else s
  end.

(** The longest prefix of [s] in the class [f], and the rest. *)
Fixpoint span (f : ascii -> bool) (s : jsstring) : jsstring * jsstring :=
  match s with
  | [] => ([], [])
  | c :: s' => if f c then let (a, r) := span f s' in (c :: a, r) else ([], s)
  end.

Definition trimStart (s : jsstring) : jsstring := dropWhile isSpace s.
Definition trimEnd (s : jsstring) : jsstring := rev (dropWhile isSpace (rev s)).

(** [s.trim()] *)
Definition trim (s : jsstring) : jsstring := trimEnd (trimStart s).

(** [s.replace(/p/g, r)] for a literal, non-empty pattern [p]: the
    occurrences are taken from left to right, without overlap.  [skip]
    counts the characters of an occurrence still to pass over. *)
Fixpoint replaceFrom (skip : nat) (p r s : jsstring) : jsstring :=
  match s with
  | [] => []
  | c :: s' =>
      match skip with
      | S k => replaceFrom k p r s'
      | 0 =>
          if prefixb p s then r ++ replaceFrom (length p - 1) p r s'
          else c :: replaceFrom 0 p r s'
      end
  end.

Definition replaceAll (p r s : jsstring) : jsstring := replaceFrom 0 p r s.

(** [s.split(',')] for a one-character separator. *)
Fixpoint split (sep : ascii) (s : jsstring) : list jsstring :=
  match s with
  | [] => [[]]
  | c :: s' =>
      if eqc c sep then [] :: split sep s'
      else match split sep s' with
           | [] => [[c]]
           | w :: ws => (c :: w) :: ws
           end
  end.

(** [xs.join(sep)] *)
Fixpoint join (sep : jsstring) (xs : list jsstring) : jsstring :=
  match xs with
  | [] => []
  | [x] => x
  | x :: xs' => x ++ sep ++ join sep xs'
  end.

(** [String(n)] for an integer [n]. *)
Definition String_of_Z (n : Z) : jsstring :=
  str (NilZero.string_of_int (Z.to_int n)).

(** Lower case of the letters A..Z. *)
Definition lowerc (c : ascii) : ascii :=
  let n := nat_of_ascii c in
  if (65 <=? n) && (n <=? 90) then ascii_of_nat (n + 32) else c.

(** [s.toLowerCase()] on the code units 0..255: A..Z and the capital
    letters U+00C0..U+00DE (without the multiplication sign U+00D7). *)
Definition toLowerCase (s : jsstring) : jsstring :=
  map (fun c =>
         let n := nat_of_ascii c in
         if ((65 <=? n) && (n <=? 90))
            || ((192 <=? n) && (n <=? 222) && negb (n =? 215))
         then ascii_of_nat (n + 32) else c) s.

Definition isLower (c : ascii) : bool :=
  let n := nat_of_ascii c in (97 <=? n) && (n <=? 122).

Definition isUpper (c : ascii) : bool :=
  let n := nat_of_ascii c in (65 <=? n) && (n <=? 90).

End JS.
Import JS.

(* ================================================================== *)
(** ** JSON.stringify on strings and JSON.parse *)
(* ================================================================== *)

Module JSON.

Open Scope char_scope.
Open Scope nat_scope.

Definition hexDigit (n : nat) : ascii :=
  if n <? 10 then ascii_of_nat (48 + n) else ascii_of_nat (87 + n).

(** One character of [QuoteJSONString]: the short escapes, [\u00xx] for the
    other control characters, the character itself otherwise. *)
Definition quoteChar (c : ascii) : jsstring :=
  let n := nat_of_ascii c in
  if n =? 8 then str "\b"
  else if n =? 9 then str "\t"
  else if n =? 10 then str "\n"
  else if n =? 12 then str "\f"
  else if n =? 13 then str "\r"
  else if n =? 34 then ["\"; "034"]
  else if n =? 92 then ["\"; "\"]
  else if n <? 32 then str "\u00" ++ [hexDigit (n / 16); hexDigit (n mod 16)]
  else [c].

(** [JSON.stringify(s)] for a string [s]. *)
Definition stringify (s : jsstring) : jsstring :=
  "034" :: flat_map quoteChar s ++ ["034"].

#[local] Set Warnings "-register-all".

(** JSON values.  A number keeps its lexeme, a string its code units, an
    object its members in the order of the text. *)
Inductive json : Type :=
| JNull
| JBool (b : bool)
| JNumber (lexeme : jsstring)
| JString (units : list N)
| JArray (items : list json)
| JObject (members : list (list N * json)).

Inductive presult (A : Type) : Type :=
| POk (a : A) (rest : jsstring)
| PErr
| PFuel.
Arguments POk {A} a rest.
Arguments PErr {A}.
Arguments PFuel {A}.

Definition isJsonWs (c : ascii) : bool :=
  let n := nat_of_ascii c in (n =? 9) || (n =? 10) || (n =? 13) || (n =? 32).

Definition isDigit (c : ascii) : bool :=
  let n := nat_of_ascii c in (48 <=? n) && (n <=? 57).

Definition skipWs (s : jsstring) : jsstring := dropWhile isJsonWs s.

Definition hexVal (c : ascii) : option N :=
  let n := nat_of_ascii c in
  if (48 <=? n) && (n <=? 57) then Some (N.of_nat (n - 48))
  else if (65 <=? n) && (n <=? 70) then Some (N.of_nat (n - 55))
  else if (97 <=? n) && (n <=? 102) then Some (N.of_nat (n - 87))
  else None.

Definition pmap {A B : Type} (f : A -> B) (x : presult A) : presult B :=
  match x with
  | POk a rest => POk (f a) rest
  | PErr => PErr
  | PFuel => PFuel
  end.

(** A run of digits that must not be empty. *)
Definition digits1 (s : jsstring) : option (jsstring * jsstring) :=
  let (ds, r) := span isDigit s in
  match ds with
  | [] => None
  | _ => Some (ds, r)
  end.

(** The integer part: [0], or a digit from 1 to 9 and more digits. *)
Definition intPart (s : jsstring) : option (jsstring * jsstring) :=
  match s with
  | c :: r =>
      if eqc c "0" then Some ([c], r)
      else if isDigit c then let (ds, r') := span isDigit r in Some (c :: ds, r')
      else None
  | [] => None
  end.

(** The optional fraction. *)
Definition fracPart (s : jsstring) : option (jsstring * jsstring) :=
  match s with
  | c :: r =>
      if eqc c "." then
        match digits1 r with
        | Some (ds, r') => Some (c :: ds, r')
        | None => None
        end
      else Some ([], s)
  | [] => Some ([], s)
  end.

(** The optional exponent. *)
Definition expPart (s : jsstring) : option (jsstring * jsstring) :=
  match s with
  | e :: r =>
      if eqc e "e" || eqc e "E" then
        let (sg, r1) :=
          match r with
          | c :: r0 => if eqc c "+" || eqc c "-" then ([c], r0) else ([], r)
          | [] => ([], r)
          end in
        match digits1 r1 with
        | Some (ds, r') => Some (e :: sg ++ ds, r')
        | None => None
        end
      else Some ([], s)
  | [] => Some ([], s)
  end.

(** A number: its lexeme and the rest of the text. *)
Definition parseNumber (s : jsstring) : presult jsstring :=
  let (sign, s1) :=
    match s with
    | c :: r => if eqc c "-" then ([c], r) else ([], s)
    | [] => ([], s)
    end in
  match intPart s1 with
  | None => PErr
  | Some (ip, s2) =>
      match fracPart s2 with
      | None => PErr
      | Some (fp, s3) =>
          match expPart s3 with
          | None => PErr
          | Some (ep, s4) => POk (sign ++ ip ++ fp ++ ep) s4
          end
      end
  end.

(** The code unit of the escape [\c], for an escape of one character. *)
Definition escapeUnit (c : ascii) : option N :=
  if eqc c dq then Some 34%N
  else if eqc c "\" then Some 92%N
  else if eqc c "/" then Some 47%N
  else if eqc c "b" then Some 8%N
  else if eqc c "f" then Some 12%N
  else if eqc c "n" then Some 10%N
  else if eqc c "r" then Some 13%N
  else if eqc c "t" then Some 9%N
  else None.

Definition hex4 (a b c d : ascii) : option N :=
  match hexVal a, hexVal b, hexVal c, hexVal d with
  | Some x3, Some x2, Some x1, Some x0 => Some (x3 * 4096 + x2 * 256 + x1 * 16 + x0)%N
  | _, _, _, _ => None
  end.

(** The characters of a string after its opening quote, up to and with the
    closing quote. *)
Fixpoint parseString (s : jsstring) : presult (list N) :=
  match s with
  | [] => PErr
  | c :: r =>
      if eqc c dq then POk [] r
      else if eqc c "\" then
        match r with
        | e :: r' =>
            if eqc e "u" then
              match r' with
              | h3 :: h2 :: h1 :: h0 :: r'' =>
                  match hex4 h3 h2 h1 h0 with
                  | Some u => pmap (cons u) (parseString r'')
                  | None => PErr
                  end
              | _ => PErr
              end
            else
              match escapeUnit e with
              | Some u => pmap (cons u) (parseString r')
              | None => PErr
              end
        | [] => PErr
        end
      else if nat_of_ascii c <? 32 then PErr
      else pmap (cons (N_of_ascii c)) (parseString r)
  end.

Fixpoint parseValue (fuel : nat) (s : jsstring) {struct fuel} : presult json :=
  match fuel with
  | 0 => PFuel
  | S f =>
      match s with
      | [] => PErr
      | c :: r =>
          if eqc c "n" then
            if prefixb (str "null") s then POk JNull (skipn 4 s) else PErr
          else if eqc c "t" then
            if prefixb (str "true") s then POk (JBool true) (skipn 4 s) else PErr
          else if eqc c "f" then
            if prefixb (str "false") s then POk (JBool false) (skipn 5 s) else PErr
          else if eqc c dq then pmap JString (parseString r)
          else if eqc c "[" then
            match skipWs r with
            | c1 :: r' =>
                if eqc c1 "]" then POk (JArray []) r'
                else parseElements f (skipWs r) []
            | [] => PErr
            end
          else if eqc c "{" then
            match skipWs r with
            | c1 :: r' =>
                if eqc c1 "}" then POk (JObject []) r'
                else parseMembers f (skipWs r) []
            | [] => PErr
            end
          else pmap JNumber (parseNumber s)
      end
  end

with parseElements (fuel : nat) (s : jsstring) (acc : list json) {struct fuel}
  : presult json :=
  match fuel with
  | 0 => PFuel
  | S f =>
      match parseValue f s with
      | POk v r =>
          match skipWs r with
          | c :: r' =>
              if eqc c "," then parseElements f (skipWs r') (acc ++ [v])
              else if eqc c "]" then POk (JArray (acc ++ [v])) r'
              else PErr
          | [] => PErr
          end
      | PErr => PErr
      | PFuel => PFuel
      end
  end

with parseMembers (fuel : nat) (s : jsstring) (acc : list (list N * json))
  {struct fuel} : presult json :=
  match fuel with
  | 0 => PFuel
  | S f =>
      match s with
      | c :: r =>
          if eqc c dq then
            match parseString r with
            | POk key r1 =>
                match skipWs r1 with
                | c1 :: r2 =>
                    if eqc c1 ":" then
                      match parseValue f (skipWs r2) with
                      | POk v r3 =>
                          match skipWs r3 with
                          | c2 :: r' =>
                              if eqc c2 ","
                              then parseMembers f (skipWs r') (acc ++ [(key, v)])
                              else if eqc c2 "}"
                              then POk (JObject (acc ++ [(key, v)])) r'
                              else PErr
                          | [] => PErr
                          end
                      | PErr => PErr
                      | PFuel => PFuel
                      end
                    else PErr
                | [] => PErr
                end
            | PErr => PErr
            | PFuel => PFuel
            end
          else PErr
      | [] => PErr
      end
  end.

(** [JSON.parse(text)] as a result of the descent.  The fuel bounds the
    nesting of the calls; [JSONFacts.parse_fuel] shows that it is never
    exhausted. *)
Definition parseResult (text : jsstring) : presult json :=
  match parseValue (2 * length text + 1) (skipWs text) with
  | POk v r => match skipWs r with [] => POk v [] | _ => PErr end
  | PErr => PErr
  | PFuel => PFuel
  end.

(** [JSON.parse(text)]: [Some v] when it returns [v], [None] when it throws
    a [SyntaxError]. *)
Definition parse (text : jsstring) : option json :=
  match parseResult text with
  | POk v _ => Some v
  | _ => None
  end.

End JSON.

(* ================================================================== *)
(** ** Helpers of the parser *)
(* ================================================================== *)

Open Scope char_scope.
Open Scope nat_scope.

Definition LF : ascii := "010".

Definition ARTIFACT_TAG_OPEN : jsstring := str "<boltArtifact".
Definition ARTIFACT_TAG_CLOSE : jsstring := str "</boltArtifact>".
Definition ARTIFACT_ACTION_TAG_OPEN : jsstring := str "<boltAction".
Definition ARTIFACT_ACTION_TAG_CLOSE : jsstring := str "</boltAction>".
Definition BOLT_QUICK_ACTIONS_OPEN : jsstring := str "<bolt-quick-actions>".
Definition BOLT_QUICK_ACTIONS_CLOSE : jsstring := str "</bolt-quick-actions>".

(** *** cleanoutMarkdownSyntax

    The pattern is [/^\s*```\w*\n([\s\S]*?)\n\s*```\s*$/].  No backtracking
    into [\s*] or [\w*] can succeed, since the character that must follow
    each is outside its class; the only choice is the length of the lazy
    group, tried from the shortest. *)

(** [\n\s*```\s*$] *)
Definition fenceTail (r : jsstring) : bool :=
  match r with
  | c :: r1 =>
      eqc c LF &&
      (let r2 := dropWhile isSpace r1 in
       prefixb (str "```") r2 &&
       match dropWhile isSpace (skipn 3 r2) with
       | [] => true
       | _ => false
       end)
  | [] => false
  end.

(** [([\s\S]*?)] followed by [fenceTail]: the group of the first success. *)
Fixpoint lazyBody (s : jsstring) : option jsstring :=
  if fenceTail s then Some []
  else match s with
       | [] => None
       | c :: s' => option_map (cons c) (lazyBody s')
       end.

(** [content.match(codeBlockRegex)], returning the group 1. *)
Definition codeBlockMatch (content : jsstring) : option jsstring :=
  let c1 := dropWhile isSpace content in
  if prefixb (str "```") c1 then
    match dropWhile isWord (skipn 3 c1) with
    | c :: c3 => if eqc c LF then lazyBody c3 else None
    | [] => None
    end
  else None.

Definition cleanoutMarkdownSyntax (content : jsstring) : jsstring :=
  match codeBlockMatch content with
  | Some group1 => group1
  | None => content
  end.

Definition cleanEscapedTags (content : jsstring) : jsstring :=
  replaceAll (str "&gt;") (str ">") (replaceAll (str "&lt;") (str "<") content).

(** *** extractAttribute

    The pattern is built from the attribute name with the flag [i]: the
    name, an equals sign, a double quote, a group of characters other than
    the double quote, and a double quote.  The result is the group of the
    leftmost match: the leftmost place where the name stands (letters
    compared without case) followed by the rest.  The name is matched
    anywhere, also at the end of a longer attribute name. *)

Definition eqci (a b : ascii) : bool := eqc (lowerc a) (lowerc b).

Fixpoint prefixci (p s : jsstring) : bool :=
  match p with
  | [] => true
  | x :: p' => match s with
               | [] => false
               | y :: s' => eqci x y && prefixci p' s'
               end
  end.

(** The group and the closing quote: the text before the first double
    quote, when there is one. *)
Fixpoint untilQuote (s : jsstring) : option jsstring :=
  match s with
  | [] => None
  | c :: s' => if eqc c dq then Some [] else option_map (cons c) (untilQuote s')
  end.

Definition attrMatchAt (name s : jsstring) : option jsstring :=
  if prefixci (name ++ ["="; dq]) s
  then untilQuote (skipn (length name + 2) s)
  else None.

Fixpoint attrSearch (name s : jsstring) : option jsstring :=
  match attrMatchAt name s with
  | Some v => Some v
  | None => match s with
            | [] => None
            | _ :: s' => attrSearch name s'
            end
  end.

Definition extractAttribute (tag : jsstring) (attributeName : string)
  : option jsstring :=
  attrSearch (str attributeName) tag.

(** A JavaScript string in a condition: [undefined] and [''] are falsy. *)
Definition truthy (v : option jsstring) : bool :=
  match v with
  | Some (_ :: _) => true
  | _ => false
  end.

(** [v || ''] *)
Definition orEmpty (v : option jsstring) : jsstring :=
  match v with
  | Some s => s
  | None => []
  end.

(** *** Markup of the output *)

(** [input.replace(/([a-z])([A-Z])/g, '$1-$2').toLowerCase()] *)
Fixpoint camelDash (s : jsstring) : jsstring :=
  match s with
  | [] => []
  | a :: s' =>
      match s' with
      | b :: s'' =>
          if isLower a && isUpper b then a :: "-" :: b :: camelDash s''
          else a :: camelDash s'
      | [] => [a]
      end
  end.

Definition camelToDashCase (input : jsstring) : jsstring :=
  toLowerCase (camelDash input).

(** [`data-${camelToDashCase(key)}=${JSON.stringify(value)}`] *)
Definition dataAttribute (kv : string * jsstring) : jsstring :=
  str "data-" ++ camelToDashCase (str (fst kv)) ++ str "=" ++ JSON.stringify (snd kv).

(** [createArtifactElement({ messageId })] *)
Definition createArtifactElement (messageId : jsstring) : jsstring :=
  let elementProps :=
    qstr "class='__boltArtifact__'" :: map dataAttribute [("messageId"%string, messageId)] in
  str "<div " ++ join (str " ") elementProps ++ str "></div>".

Definition createQuickActionElement (props : list (string * jsstring))
  (label : jsstring) : jsstring :=
  let elementProps :=
    qstr "class='__boltQuickAction__'"
    :: qstr "data-bolt-quick-action='true'"
    :: map dataAttribute props in
  str "<button " ++ join (str " ") elementProps ++ str ">" ++ label ++ str "</button>".

Definition createQuickActionGroup (buttons : list jsstring) : jsstring :=
  qstr "<div class='__boltQuickAction__' data-bolt-quick-action='true'>"
  ++ join [] buttons ++ str "</div>".

(** *** The quick-action entries

    The pattern of [quickActionRegex] is the literal [<bolt-quick-action],
    a greedy group of characters other than [>], a [>], a lazy group of
    any characters, and the literal [</bolt-quick-action>]: group 1 runs to
    the first [>], group 2 is the shortest text up to the closing
    literal. *)

Definition notGt (c : ascii) : bool := negb (eqc c ">").

Definition QUICK_ACTION_OPEN : jsstring := str "<bolt-quick-action".
Definition QUICK_ACTION_CLOSE : jsstring := str "</bolt-quick-action>".

(** A match at the head of [s]: the groups 1 and 2 and the length of the
    match. *)
Definition quickActionMatchAt (s : jsstring) : option (jsstring * jsstring * nat) :=
  if prefixb QUICK_ACTION_OPEN s then
    let r := skipn (length QUICK_ACTION_OPEN) s in
    let (tagAttrs, r1) := span notGt r in
    match r1 with
    | _ :: r2 =>
        match find QUICK_ACTION_CLOSE r2 with
        | Some k =>
            Some (tagAttrs, firstn k r2,
                  length QUICK_ACTION_OPEN + length tagAttrs + 1 + k
                  + length QUICK_ACTION_CLOSE)
        | None => None
        end
    | [] => None
    end
  else None.

(** The body of the [while ((match = quickActionRegex.exec(...)) !== null)]
    loop, for one match. *)
Definition quickActionButton (tagAttrs label : jsstring) : jsstring :=
  let type := extractAttribute tagAttrs "type" in
  let message := extractAttribute tagAttrs "message" in
  let path := extractAttribute tagAttrs "path" in
  let href := extractAttribute tagAttrs "href" in
  createQuickActionElement
    [("type"%string, orEmpty type); ("message"%string, orEmpty message);
     ("path"%string, orEmpty path); ("href"%string, orEmpty href)]
    label.

(** The loop over the matches of the global pattern: [exec] takes the
    leftmost match at or after [lastIndex], and [lastIndex] moves to the
    end of the match.  The text is walked from left to right; [skip]
    counts the characters of the last match still to pass over. *)
Fixpoint quickActionButtons (skip : nat) (s : jsstring) : list jsstring :=
  match s with
  | [] => []
  | _ :: s' =>
      match skip with
      | S k => quickActionButtons k s'
      | 0 =>
          match quickActionMatchAt s with
          | Some (tagAttrs, label, matchLength) =>
              quickActionButton tagAttrs label :: quickActionButtons (matchLength - 1) s'
          | None => quickActionButtons 0 s'
          end
      end
  end.

(* ================================================================== *)
(** ** Data model *)
(* ================================================================== *)

(** [BoltArtifactData]: the three attributes of the container tag, each
    [undefined] when the tag does not carry it. *)
Record BoltArtifactData : Type := mkArtifact {
  id : option jsstring;
  title : option jsstring;
  type : option jsstring
}.

(** The fields of an action record besides [content], by the branch of
    [parseActionTag] that built it.  [Untyped] is the record
    [{ content: '' }] of a state with no action, which has no [type] key;
    [OtherAction] is a record whose type is [shell], [start], [build],
    unknown, or [undefined]. *)
Inductive ActionFields : Type :=
| Untyped
| SupabaseAction (operation : jsstring) (filePath : option jsstring)
| FileAction (filePath : option jsstring)
| ScreenAction (screenId screenName screenType : jsstring)
    (parentScreen navigationTrigger : option jsstring)
    (dependencies : option (list jsstring)) (props : option JSON.json)
| NavigationAction (fromScreen toScreen trigger navigationType : jsstring)
    (params : option JSON.json)
| ComponentAction (componentName componentType : jsstring)
    (usedByScreens exports imports : option (list jsstring))
| OtherAction (actionType : option jsstring).

Record BoltActionData : Type := mkAction {
  fields : ActionFields;
  content : jsstring
}.

Definition emptyAction : BoltActionData := mkAction Untyped [].

Record MessageState : Type := mkState {
  position : nat;
  insideArtifact : bool;
  insideAction : bool;
  currentArtifact : option BoltArtifactData;
  currentAction : BoltActionData;
  actionId : Z
}.

Definition initialState : MessageState :=
  mkState 0 false false None emptyAction 0.

Definition set_position (st : MessageState) (v : nat) : MessageState :=
  mkState v (insideArtifact st) (insideAction st) (currentArtifact st)
    (currentAction st) (actionId st).
Definition set_insideArtifact (st : MessageState) (v : bool) : MessageState :=
  mkState (position st) v (insideAction st) (currentArtifact st)
    (currentAction st) (actionId st).
Definition set_insideAction (st : MessageState) (v : bool) : MessageState :=
  mkState (position st) (insideArtifact st) v (currentArtifact st)
    (currentAction st) (actionId st).
Definition set_currentArtifact (st : MessageState) (v : option BoltArtifactData)
  : MessageState :=
  mkState (position st) (insideArtifact st) (insideAction st) v
    (currentAction st) (actionId st).
Definition set_currentAction (st : MessageState) (v : BoltActionData)
  : MessageState :=
  mkState (position st) (insideArtifact st) (insideAction st)
    (currentArtifact st) v (actionId st).
Definition set_actionId (st : MessageState) (v : Z) : MessageState :=
  mkState (position st) (insideArtifact st) (insideAction st)
    (currentArtifact st) (currentAction st) v.

(** [ArtifactCallbackData] is [{ messageId, ...currentArtifact }]. *)
Record ArtifactCallbackData : Type := mkArtifactData {
  artifactMessageId : jsstring;
  artifact : BoltArtifactData
}.

Record ActionCallbackData : Type := mkActionData {
  artifactId : option jsstring;
  messageId : jsstring;
  actionIdString : jsstring;
  action : BoltActionData
}.

(** [ParserCallbacks]: each of the five callbacks is an optional member,
    and the record tells which of them the object holds.  What a callback
    does with its argument is the code of the caller and is not modelled;
    a call that [parse] makes is recorded as an [Event]. *)
Module ParserCallbacks.

Record t : Type := make {
  onArtifactOpen : bool;
  onArtifactClose : bool;
  onActionOpen : bool;
  onActionStream : bool;
  onActionClose : bool
}.

End ParserCallbacks.

(** The calls that [parse] makes to the callbacks of its options. *)
Inductive Event : Type :=
| onArtifactOpen (data : ArtifactCallbackData)
| onArtifactClose (data : ArtifactCallbackData)
| onActionOpen (data : ActionCallbackData)
| onActionStream (data : ActionCallbackData)
| onActionClose (data : ActionCallbackData).

(** What [parse] can throw: an [Error] with its message, the [TypeError] of
    reading a property of [undefined], and the error of [unreachable].
    The helper [unreachable] (~/utils/unreachable) is not among the
    sources; the call narrows [currentArtifact] to a defined value, so the
    helper does not return, and it is taken to throw.  The call is never
    reached ([unreachable_is_not_reached]). *)
Inductive JsError : Type :=
| Error (message : jsstring)
| TypeError
| Unreachable (message : jsstring).

Inductive Result (A : Type) : Type :=
| Ok (a : A)
| Raise (e : JsError).
Arguments Ok {A} a.
Arguments Raise {A} e.

(* ================================================================== *)
(** ** parseActionTag *)
(* ================================================================== *)

(** [value.split(',').map((d) => d.trim())] *)
Definition commaList (value : jsstring) : list jsstring :=
  map trim (split "," value).

Definition optionalList (value : option jsstring) : option (list jsstring) :=
  if truthy value then Some (commaList (orEmpty value)) else None.

(** [if (props) { try { ... = JSON.parse(props) } catch { } }] *)
Definition optionalJson (value : option jsstring) : option JSON.json :=
  if truthy value then JSON.parse (orEmpty value) else None.

(** The text of [undefined] in a template literal. *)
Definition template (v : option jsstring) : jsstring :=
  match v with
  | Some s => s
  | None => str "undefined"
  end.

Definition isType (actionType : option jsstring) (name : string) : bool :=
  match actionType with
  | Some t => eqs t (str name)
  | None => false
  end.

Definition parseActionTag (input : jsstring) (actionOpenIndex actionEndIndex : nat)
  : Result BoltActionData :=
  let actionTag := slice input actionOpenIndex (actionEndIndex + 1) in
  let actionType := extractAttribute actionTag "type" in
  if isType actionType "supabase" then
    let operation := extractAttribute actionTag "operation" in
    if negb (truthy operation)
       || negb (existsb (eqs (orEmpty operation)) [str "migration"; str "query"])
    then Raise (Error (str "Invalid Supabase operation: " ++ template operation))
    else if eqs (orEmpty operation) (str "migration") then
      let filePath := extractAttribute actionTag "filePath" in
      if negb (truthy filePath)
      then Raise (Error (str "Migration requires a filePath"))
      else Ok (mkAction (SupabaseAction (orEmpty operation) filePath) [])
    else Ok (mkAction (SupabaseAction (orEmpty operation) None) [])
  else if isType actionType "file" then
    let filePath := extractAttribute actionTag "filePath" in
    Ok (mkAction (FileAction filePath) [])
  else if isType actionType "screen" then
    let screenId := extractAttribute actionTag "screenId" in
    let screenName := extractAttribute actionTag "screenName" in
    let screenType := extractAttribute actionTag "screenType" in
    let parentScreen := extractAttribute actionTag "parentScreen" in
    let navigationTrigger := extractAttribute actionTag "navigationTrigger" in
    if negb (truthy screenId) || negb (truthy screenName) || negb (truthy screenType)
    then Raise (Error (str "Screen action requires screenId, screenName, and screenType"))
    else
      let dependencies := extractAttribute actionTag "dependencies" in
      let props := extractAttribute actionTag "props" in
      Ok (mkAction
            (ScreenAction (orEmpty screenId) (orEmpty screenName) (orEmpty screenType)
               parentScreen navigationTrigger
               (optionalList dependencies) (optionalJson props)) [])
  else if isType actionType "navigation" then
    let fromScreen := extractAttribute actionTag "fromScreen" in
    let toScreen := extractAttribute actionTag "toScreen" in
    let trigger := extractAttribute actionTag "trigger" in
    let navigationType := extractAttribute actionTag "navigationType" in
    if negb (truthy fromScreen) || negb (truthy toScreen)
       || negb (truthy trigger) || negb (truthy navigationType)
    then Raise (Error (str "Navigation action requires fromScreen, toScreen, trigger, and navigationType"))
    else
      let params := extractAttribute actionTag "params" in
      Ok (mkAction
            (NavigationAction (orEmpty fromScreen) (orEmpty toScreen)
               (orEmpty trigger) (orEmpty navigationType) (optionalJson params)) [])
  else if isType actionType "component" then
    let componentName := extractAttribute actionTag "componentName" in
    let componentType := extractAttribute actionTag "componentType" in
    if negb (truthy componentName) || negb (truthy componentType)
    then Raise (Error (str "Component action requires componentName and componentType"))
    else
      let usedByScreens := extractAttribute actionTag "usedByScreens" in
      let exports := extractAttribute actionTag "exports" in
      let imports := extractAttribute actionTag "imports" in
      Ok (mkAction
            (ComponentAction (orEmpty componentName) (orEmpty componentType)
               (optionalList usedByScreens) (optionalList exports)
               (optionalList imports)) [])
  else Ok (mkAction (OtherAction actionType) []).

(* ================================================================== *)
(** ** StreamingMessageParser.parse *)
(* ================================================================== *)

(** One pass through the body of the [while (i < input.length)] loop:
    [Continue] is a pass that reaches the end of the body or its
    [continue], with the state, the new [i], the text added to [output] and
    the callbacks it made; [Break] leaves the loop, with [i], [output] and
    the state as they were; [Throw] is an exception, with the state as the
    pass had written it. *)
Inductive Step : Type :=
| Continue (st : MessageState) (i : nat) (out : jsstring) (evs : list Event)
| Break (evs : list Event)
| Throw (st : MessageState) (evs : list Event) (e : JsError).

(** How the inner [while] over [potentialTag] ends. *)
Inductive TagScan : Type :=
| TagFlush (j : nat)
| TagOpen (openTagEnd : nat)
| TagEarlyBreak
| TagExit (j : nat) (potentialTag : jsstring).

Section Parse.

(** [_options.artifactElement], [_options.callbacks] and the arguments of
    [parse]. *)
Variable artifactElement : option (jsstring -> jsstring).
Variable callbacks : option ParserCallbacks.t.
Variable messageId : jsstring.
Variable input : jsstring.

(** [this._options.callbacks?.on...] is defined, for the callback that the
    event [e] is a call of. *)
Definition registered (e : Event) : bool :=
  match callbacks with
  | Some c =>
      match e with
      | onArtifactOpen _ => ParserCallbacks.onArtifactOpen c
      | onArtifactClose _ => ParserCallbacks.onArtifactClose c
      | onActionOpen _ => ParserCallbacks.onActionOpen c
      | onActionStream _ => ParserCallbacks.onActionStream c
      | onActionClose _ => ParserCallbacks.onActionClose c
      end
  | None => false
  end.

(** [this._options.callbacks?.on...?.(data)]: the call [e] is made when
    the callback is defined; otherwise nothing is called and the argument
    is not evaluated. *)
Definition callback (e : Event) : list Event :=
  if registered e then [e] else [].

(** The block [if (input.startsWith(BOLT_QUICK_ACTIONS_OPEN, i)) { ... }]:
    the markup and the new [i] when it ends in [continue], [None] when
    control falls out of it. *)
Definition quickActionsBlock (i : nat) : option (jsstring * nat) :=
  if startsWith BOLT_QUICK_ACTIONS_OPEN input i then
    match indexOf BOLT_QUICK_ACTIONS_CLOSE input i with
    | Some actionsBlockEnd =>
        let actionsBlockContent :=
          slice input (i + length BOLT_QUICK_ACTIONS_OPEN) actionsBlockEnd in
        let buttons := quickActionButtons 0 actionsBlockContent in
        Some (createQuickActionGroup buttons,
              actionsBlockEnd + length BOLT_QUICK_ACTIONS_CLOSE)
    | None => None
    end
  else None.

(** The sanitization of file content on the close and stream paths. *)
Definition cleanFileContent (filePath content : jsstring) : jsstring :=
  if negb (endsWith (str ".md") filePath)
  then cleanEscapedTags (cleanoutMarkdownSyntax content)
  else content.

(** The argument of an action callback:
    [{ artifactId: currentArtifact.id, messageId, actionId: String(n), action }]. *)
Definition actionEvent (currentArtifact : BoltArtifactData) (n : Z)
  (a : BoltActionData) : ActionCallbackData :=
  mkActionData (id currentArtifact) messageId (String_of_Z n) a.

(** The branch [if (state.insideAction)]. *)
Definition stepInsideAction (st : MessageState) (currentArtifact : BoltArtifactData)
  (i : nat) : Step :=
  let currentAction := currentAction st in
  match indexOf ARTIFACT_ACTION_TAG_CLOSE input i with
  | Some closeIndex =>
      let appended := content currentAction ++ slice input i closeIndex in
      let st1 := set_currentAction st (mkAction (fields currentAction) appended) in
      let content0 := trim appended in
      let close (content : jsstring) :=
        Continue
          (set_currentAction (set_insideAction st1 false) emptyAction)
          (closeIndex + length ARTIFACT_ACTION_TAG_CLOSE)
          []
          (callback
             (onActionClose
                (actionEvent currentArtifact (actionId st - 1)
                   (mkAction (fields currentAction) content)))) in
      match fields currentAction with
      | FileAction filePath =>
          match filePath with
          | Some p => close (cleanFileContent p content0 ++ [LF])
          | None => Throw st1 [] TypeError
          end
      | _ => close content0
      end
  | None =>
      match fields currentAction with
      | FileAction filePath =>
          match filePath with
          | Some p =>
              Break
                (callback
                   (onActionStream
                      (actionEvent currentArtifact (actionId st - 1)
                         (mkAction (FileAction (Some p))
                            (cleanFileContent p (sliceFrom input i))))))
          | None => Throw st [] TypeError
          end
      | _ => Break []
      end
  end.

(** The branch [else] of [if (state.insideAction)], inside an artifact:
    the action tag that opens at [actionOpenIndex].  The increment
    [state.actionId++] stands in the argument of the optional call
    [callbacks?.onActionOpen?.(...)]: it is evaluated when the call is
    made, and the counter stays as it is when the options hold no
    [onActionOpen]. *)
Definition openAction (st : MessageState) (currentArtifact : BoltArtifactData)
  (actionOpenIndex : nat) : Step :=
  match indexOf [">"] input actionOpenIndex with
  | Some actionEndIndex =>
      let st1 := set_insideAction st true in
      match parseActionTag input actionOpenIndex actionEndIndex with
      | Ok a =>
          let opened := onActionOpen (actionEvent currentArtifact (actionId st) a) in
          Continue
            (set_actionId (set_currentAction st1 a)
               (if registered opened then actionId st + 1 else actionId st))
            (actionEndIndex + 1)
            []
            (callback opened)
      | Raise e => Throw st1 [] e
      end
  | None => Break []
  end.

(** The branches [else if (artifactCloseIndex !== -1)] and [else]. *)
Definition closeArtifact (st : MessageState) (currentArtifact : BoltArtifactData)
  (artifactCloseIndex : option nat) : Step :=
  match artifactCloseIndex with
  | Some c =>
      Continue
        (set_currentArtifact (set_insideArtifact st false) None)
        (c + length ARTIFACT_TAG_CLOSE)
        []
        (callback (onArtifactClose (mkArtifactData messageId currentArtifact)))
  | None => Break []
  end.

Definition stepInsideArtifact (st : MessageState) (currentArtifact : BoltArtifactData)
  (i : nat) : Step :=
  let actionOpenIndex := indexOf ARTIFACT_ACTION_TAG_OPEN input i in
  let artifactCloseIndex := indexOf ARTIFACT_TAG_CLOSE input i in
  match actionOpenIndex with
  | Some a =>
      if match artifactCloseIndex with
         | None => true
         | Some c => a <? c
         end
      then openAction st currentArtifact a
      else closeArtifact st currentArtifact artifactCloseIndex
  | None => closeArtifact st currentArtifact artifactCloseIndex
  end.

(** The inner loop
    [while (j < input.length && potentialTag.length < ARTIFACT_TAG_OPEN.length)].
    The first argument bounds the number of passes by the length of the
    marker; a pass lengthens [potentialTag] by one. *)
Fixpoint tagScan (n : nat) (j : nat) (potentialTag : jsstring) : TagScan :=
  match n with
  | 0 => TagExit j potentialTag
  | S n' =>
      if (j <? length input) && (length potentialTag <? length ARTIFACT_TAG_OPEN) then
        let potentialTag := potentialTag ++ [nth j input Ascii.zero] in
        if eqs potentialTag ARTIFACT_TAG_OPEN then
          let lookalike :=
            match charAt input (j + 1) with
            | Some nextChar => negb (eqc nextChar ">") && negb (eqc nextChar " ")
            | None => false
            end in
          if lookalike then TagFlush j
          else match indexOf [">"] input j with
               | Some openTagEnd => TagOpen openTagEnd
               | None => TagEarlyBreak
               end
        else if negb (prefixb potentialTag ARTIFACT_TAG_OPEN) then TagFlush j
        else tagScan n' (j + 1) potentialTag
      else TagExit j potentialTag
  end.

(** The branch [else if (input[i] === '<' && input[i + 1] !== '/')], with
    the test [if (j === input.length && ...) break] and the test of
    [earlyBreak] that follow the inner loop. *)
Definition stepTag (st : MessageState) (i : nat) : Step :=
  match tagScan (length ARTIFACT_TAG_OPEN) i [] with
  | TagFlush j => Continue st (j + 1) (slice input i (j + 1)) []
  | TagOpen openTagEnd =>
      let artifactTag := slice input i (openTagEnd + 1) in
      let artifactTitle := extractAttribute artifactTag "title" in
      let type := extractAttribute artifactTag "type" in
      let artifactId := extractAttribute artifactTag "id" in
      let currentArtifact := mkArtifact artifactId artifactTitle type in
      let artifactFactory :=
        match artifactElement with
        | Some f => f
        | None => createArtifactElement
        end in
      Continue
        (set_currentArtifact (set_insideArtifact st true) (Some currentArtifact))
        (openTagEnd + 1)
        (artifactFactory messageId)
        (callback (onArtifactOpen (mkArtifactData messageId currentArtifact)))
  | TagEarlyBreak => Break []
  | TagExit j potentialTag =>
      (* the inner loop ended by its condition: the pass breaks when the
         text ended inside the marker, and otherwise ends with nothing
         done, which [tagScan_inv] excludes *)
      if (j =? length input) && prefixb potentialTag ARTIFACT_TAG_OPEN
      then Break []
      else Continue st i [] []
  end.

(** [output += input[i]], where a missing character reads [undefined]. *)
Definition charText (i : nat) : jsstring :=
  match charAt input i with
  | Some c => [c]
  | None => str "undefined"
  end.

Definition isChar (c : option ascii) (x : ascii) : bool :=
  match c with
  | Some y => eqc y x
  | None => false
  end.

(** The body of the loop. *)
Definition step (st : MessageState) (i : nat) : Step :=
  match quickActionsBlock i with
  | Some (markup, i') => Continue st i' markup []
  | None =>
      if insideArtifact st then
        match currentArtifact st with
        | None => Throw st [] (Unreachable (str "Artifact not initialized"))
        | Some currentArtifact =>
            if insideAction st
            then stepInsideAction st currentArtifact i
            else stepInsideArtifact st currentArtifact i
        end
      else if isChar (charAt input i) "<" && negb (isChar (charAt input (i + 1)) "/")
      then stepTag st i
      else Continue st (i + 1) (charText i) []
  end.

(** How a call of [parse] ends. *)
Inductive Completion : Type :=
| Returns (output : jsstring)
| Throws (e : JsError)
| Diverges.

(** The loop.  [fuel] bounds the number of passes; [Diverges] stands for a
    loop that is still running when the bound is reached. *)
Fixpoint scan (fuel : nat) (st : MessageState) (i : nat) (output : jsstring)
  (evs : list Event) : MessageState * list Event * Completion :=
  if i <? length input then
    match fuel with
    | 0 => (st, evs, Diverges)
    | S fuel' =>
        match step st i with
        | Continue st' i' out e => scan fuel' st' i' (output ++ out) (evs ++ e)
        | Break e => (set_position st i, evs ++ e, Returns output)
        | Throw st' e err => (st', evs ++ e, Throws err)
        end
    end
  else (set_position st i, evs, Returns output).

(** [parse] on the state of one message: the state after the call, the
    callbacks made, and the completion.  Every pass that continues moves
    [i] forward ([step_progress]), so [length input] passes are enough
    ([parse_terminates]). *)
Definition parseState (st : MessageState) : MessageState * list Event * Completion :=
  scan (length input) st (position st) [] [].

End Parse.

(** The table [#messages] of the parser. *)
Definition Messages := list (jsstring * MessageState).

Fixpoint get (m : Messages) (messageId : jsstring) : option MessageState :=
  match m with
  | [] => None
  | (k, v) :: m' => if eqs k messageId then Some v else get m' messageId
  end.

Fixpoint set (m : Messages) (messageId : jsstring) (st : MessageState) : Messages :=
  match m with
  | [] => [(messageId, st)]
  | (k, v) :: m' =>
      if eqs k messageId then (k, st) :: m' else (k, v) :: set m' messageId st
  end.

(** The parser: its options and its table. *)
Record StreamingMessageParser : Type := mkParser {
  artifactElementOption : option (jsstring -> jsstring);
  callbacksOption : option ParserCallbacks.t;
  messages : Messages
}.

(** [new StreamingMessageParser()], with the default options [{}]. *)
Definition newParser : StreamingMessageParser := mkParser None None [].

(** [parse(messageId, input)].  The state object is in the table from the
    start of the call, so what the call wrote before an exception stays. *)
Definition parse (p : StreamingMessageParser) (messageId input : jsstring)
  : StreamingMessageParser * list Event * Completion :=
  let state :=
    match get (messages p) messageId with
    | Some st => st
    | None => initialState
    end in
  let '(st', evs, c) :=
    parseState (artifactElementOption p) (callbacksOption p) messageId input state in
  (mkParser (artifactElementOption p) (callbacksOption p)
     (set (messages p) messageId st'), evs, c).

(** [reset()] *)
Definition reset (p : StreamingMessageParser) : StreamingMessageParser :=
  mkParser (artifactElementOption p) (callbacksOption p) [].

(* ================================================================== *)
(** ** Definitions for the statements *)
(* ================================================================== *)

(** *** The state of a message in the table *)

(** The stored cursor of a message: [0] for a message the parser has not
    seen, whose state would be created with [position: 0]. *)
Definition cursor (p : StreamingMessageParser) (messageId : jsstring) : nat :=
  match get (messages p) messageId with
  | Some st => position st
  | None => 0
  end.

Definition stateOf (p : StreamingMessageParser) (messageId : jsstring) : MessageState :=
  match get (messages p) messageId with
  | Some st => st
  | None => initialState
  end.

(** *** The protocol of the callbacks *)

(** Where the callbacks of a message stand: outside any artifact, inside
    the artifact [a] and between actions, or inside an action of [a]. *)
Inductive Phase : Type :=
| Outside
| InArtifact (a : BoltArtifactData)
| InAction (a : BoltArtifactData).

(** [follows mid (ph, n) e (ph', n')]: in the phase [ph], with [n] actions
    opened so far, the callback [e] is the one that the document order
    allows, and leads to [ph'] and [n'].  An action opens with the number
    [n]; its stream and close callbacks carry [n - 1], the number it
    opened with, and the identifier of the artifact around it. *)
Inductive follows (mid : jsstring) : Phase * Z -> Event -> Phase * Z -> Prop :=
| follows_artifact_open (n : Z) (a : BoltArtifactData) :
    follows mid (Outside, n) (onArtifactOpen (mkArtifactData mid a)) (InArtifact a, n)
| follows_action_open (n : Z) (a : BoltArtifactData) (act : BoltActionData) :
    follows mid (InArtifact a, n)
      (onActionOpen (mkActionData (id a) mid (String_of_Z n) act))
      (InAction a, (n + 1)%Z)
| follows_action_stream (n : Z) (a : BoltArtifactData) (act : BoltActionData) :
    follows mid (InAction a, n)
      (onActionStream (mkActionData (id a) mid (String_of_Z (n - 1)) act))
      (InAction a, n)
| follows_action_close (n : Z) (a : BoltArtifactData) (act : BoltActionData) :
    follows mid (InAction a, n)
      (onActionClose (mkActionData (id a) mid (String_of_Z (n - 1)) act))
      (InArtifact a, n)
| follows_artifact_close (n : Z) (a : BoltArtifactData) :
    follows mid (InArtifact a, n) (onArtifactClose (mkArtifactData mid a)) (Outside, n).

Inductive trace (mid : jsstring) : Phase * Z -> list Event -> Phase * Z -> Prop :=
| trace_nil (s : Phase * Z) : trace mid s [] s
| trace_cons (s1 s2 s3 : Phase * Z) (e : Event) (evs : list Event) :
    follows mid s1 e s2 -> trace mid s2 evs s3 -> trace mid s1 (e :: evs) s3.

(** The phase that a state stands for. *)
Definition phaseOf (st : MessageState) : Phase :=
  match insideArtifact st, currentArtifact st with
  | true, Some a => if insideAction st then InAction a else InArtifact a
  | _, _ => Outside
  end.

Definition stage (st : MessageState) : Phase * Z := (phaseOf st, actionId st).

(** The states that calls of [parse] which return leave behind: an action
    is open only inside an artifact, and an open artifact is recorded. *)
Definition wf (st : MessageState) : Prop :=
  (insideArtifact st = false -> insideAction st = false) /\
  (insideArtifact st = true -> currentArtifact st <> None).

(** *** Sequences of calls *)

(** The completion of a call after the output [out] of earlier calls. *)
Definition after (out : jsstring) (c : Completion) : Completion :=
  match c with
  | Returns o => Returns (out ++ o)
  | _ => c
  end.

(** A caller that passes the texts [inputs] to [parse], one after the
    other, for one message: it appends the outputs, collects the
    callbacks, and stops at the first call that throws. *)
Fixpoint feed (p : StreamingMessageParser) (messageId : jsstring)
  (inputs : list jsstring) : StreamingMessageParser * list Event * Completion :=
  match inputs with
  | [] => (p, [], Returns [])
  | input :: rest =>
      let '(p1, evs1, c1) := parse p messageId input in
      match c1 with
      | Returns out1 =>
          let '(p2, evs2, c2) := feed p1 messageId rest in
          (p2, evs1 ++ evs2, after out1 c2)
      | _ => (p1, evs1, c1)
      end
  end.

Definition eventsOf (r : StreamingMessageParser * list Event * Completion)
  : list Event := snd (fst r).

(** Options whose [callbacks] hold all five callbacks. *)
Definition allCallbacks : option ParserCallbacks.t :=
  Some (ParserCallbacks.make true true true true true).

(** A parser as [new StreamingMessageParser({ callbacks, artifactElement })]
    leaves it, for callbacks that hold all five. *)
Definition freshParser (artifactElement : option (jsstring -> jsstring))
  : StreamingMessageParser := mkParser artifactElement allCallbacks [].

(** *** The document order, as a check on the list of callbacks *)

Inductive Nesting : Type :=
| AtTop
| InsideArtifact (artifactId : option jsstring)
| InsideAction (artifactId : option jsstring).

Definition eqo (a b : option jsstring) : bool :=
  match a, b with
  | Some x, Some y => eqs x y
  | None, None => true
  | _, _ => false
  end.

(** The callback [e] in the nesting [s]: an artifact opens at the top; an
    action opens inside an artifact and outside any action; stream and
    close come inside the action; an artifact closes outside any action.
    The callbacks of an action carry the identifier of the artifact that
    is open. *)
Definition orderStep (s : Nesting) (e : Event) : option Nesting :=
  match s, e with
  | AtTop, onArtifactOpen d => Some (InsideArtifact (id (artifact d)))
  | InsideArtifact a, onActionOpen d =>
      if eqo (artifactId d) a then Some (InsideAction a) else None
  | InsideAction a, onActionStream d =>
      if eqo (artifactId d) a then Some (InsideAction a) else None
  | InsideAction a, onActionClose d =>
      if eqo (artifactId d) a then Some (InsideArtifact a) else None
  | InsideArtifact a, onArtifactClose d =>
      if eqo (id (artifact d)) a then Some AtTop else None
  | _, _ => None
  end.

Fixpoint documentOrder (s : Nesting) (evs : list Event) : bool :=
  match evs with
  | [] => true
  | e :: rest =>
      match orderStep s e with
      | Some s' => documentOrder s' rest
      | None => false
      end
  end.

Definition nestingOf (ph : Phase) : Nesting :=
  match ph with
  | Outside => AtTop
  | InArtifact a => InsideArtifact (id a)
  | InAction a => InsideAction (id a)
  end.

(** *** The action identifiers, as a check on the list of callbacks *)

(** [next] is the number that the next action-open must carry, [current]
    the identifier of the last action opened: stream and close callbacks
    must carry it. *)
Fixpoint actionIds (next : Z) (current : option jsstring) (evs : list Event) : bool :=
  match evs with
  | [] => true
  | onActionOpen d :: rest =>
      eqs (actionIdString d) (String_of_Z next)
      && actionIds (next + 1) (Some (actionIdString d)) rest
  | onActionStream d :: rest =>
      eqo (Some (actionIdString d)) current && actionIds next current rest
  | onActionClose d :: rest =>
      eqo (Some (actionIdString d)) current && actionIds next current rest
  | _ :: rest => actionIds next current rest
  end.

(** The identifiers of the action-open callbacks, in order. *)
Fixpoint openIds (evs : list Event) : list jsstring :=
  match evs with
  | [] => []
  | onActionOpen d :: rest => actionIdString d :: openIds rest
  | _ :: rest => openIds rest
  end.

(** *** Code fences *)

(** A code fence: the opening fence with its language tag, the body on its
    own lines, the closing fence. *)
Definition fence (lang body : jsstring) : jsstring :=
  str "```" ++ lang ++ LF :: body ++ LF :: str "```".

(** The body ends with a line feed followed by nothing but white space. *)
Fixpoint blankTail (s : jsstring) : bool :=
  match s with
  | [] => false
  | c :: s' => (eqc c LF && forallb isSpace s') || blankTail s'
  end.

(** *** Escaped angle brackets *)

(** The reading of the escaped angle brackets in one pass from left to
    right: at [&lt;] the character [<] is written, at [&gt;] the character
    [>], and any other character is copied.  [skip] counts the characters
    of an entity still to pass over. *)
Fixpoint unescapeFrom (skip : nat) (s : jsstring) : jsstring :=
  match s with
  | [] => []
  | c :: s' =>
      match skip with
      | S k => unescapeFrom k s'
      | 0 =>
          if prefixb (str "&lt;") s then "<" :: unescapeFrom 3 s'
          else if prefixb (str "&gt;") s then ">" :: unescapeFrom 3 s'
          else c :: unescapeFrom 0 s'
      end
  end.

Definition unescapeTags (s : jsstring) : jsstring := unescapeFrom 0 s.

(** *** Required attributes and JSON attributes *)

(** What [extractAttribute] reads for the name is [undefined] or empty:
    the test [!value] of the source.  The value read is the text between
    the name with an equals sign and a double quote, and the next double
    quote, at the first place of the tag text where the name stands, also
    at the end of a longer name. *)
Definition absentOrEmpty (tag : jsstring) (name : string) : bool :=
  negb (truthy (extractAttribute tag name)).

(** What [extractAttribute] reads for the name is [value]. *)
Definition attributeIs (tag : jsstring) (name value : string) : bool :=
  match extractAttribute tag name with
  | Some v => eqs v (str value)
  | None => false
  end.

(** The condition of the throws of [parseActionTag], on what
    [extractAttribute] reads from the text of the tag: the type read is
    one of the four kinds with required attributes, and the value read
    for one of them is [undefined] or empty. *)
Definition lacksRequired (tag : jsstring) : bool :=
  (attributeIs tag "type" "navigation"
   && (absentOrEmpty tag "fromScreen" || absentOrEmpty tag "toScreen"
       || absentOrEmpty tag "trigger" || absentOrEmpty tag "navigationType"))
  || (attributeIs tag "type" "screen"
      && (absentOrEmpty tag "screenId" || absentOrEmpty tag "screenName"
          || absentOrEmpty tag "screenType"))
  || (attributeIs tag "type" "component"
      && (absentOrEmpty tag "componentName" || absentOrEmpty tag "componentType"))
  || (attributeIs tag "type" "supabase"
      && (absentOrEmpty tag "operation"
          || negb (attributeIs tag "operation" "migration"
                   || attributeIs tag "operation" "query")
          || (attributeIs tag "operation" "migration"
              && absentOrEmpty tag "filePath"))).

(** [extractAttribute] reads nothing for the name. *)
Definition absent (tag : jsstring) (name : string) : bool :=
  match extractAttribute tag name with
  | Some _ => false
  | None => true
  end.

(** The reading of the claim in which a missing attribute is one that the
    tag does not carry. *)
Definition lacksRequiredAbsent (tag : jsstring) : bool :=
  (attributeIs tag "type" "navigation"
   && (absent tag "fromScreen" || absent tag "toScreen"
       || absent tag "trigger" || absent tag "navigationType"))
  || (attributeIs tag "type" "screen"
      && (absent tag "screenId" || absent tag "screenName" || absent tag "screenType"))
  || (attributeIs tag "type" "component"
      && (absent tag "componentName" || absent tag "componentType"))
  || (attributeIs tag "type" "supabase"
      && (absent tag "operation"
          || negb (attributeIs tag "operation" "migration"
                   || attributeIs tag "operation" "query")
          || (attributeIs tag "operation" "migration" && absent tag "filePath"))).

(** The value of a JSON attribute: what [JSON.parse] makes of the text
    that [extractAttribute] finds, nothing when the attribute is absent or
    the text is not JSON. *)
Definition jsonAttribute (tag : jsstring) (name : string) : option JSON.json :=
  match extractAttribute tag name with
  | Some v => JSON.parse v
  | None => None
  end.

Definition raises {A : Type} (r : Result A) : bool :=
  match r with
  | Ok _ => false
  | Raise _ => true
  end.

(** *** Sample texts *)

Definition m1 : jsstring := str "m1".

(** The quick-actions block of the specification. *)
Definition quickActionsText : jsstring :=
  qstr "<bolt-quick-actions><bolt-quick-action type='message' message='Hi'>Say hi</bolt-quick-action></bolt-quick-actions>".

Definition quickActionsMarkup : jsstring :=
  qstr "<div class='__boltQuickAction__' data-bolt-quick-action='true'><button class='__boltQuickAction__' data-bolt-quick-action='true' data-type='message' data-message='Hi' data-path='' data-href=''>Say hi</button></div>".

Definition artifactOpenText : jsstring :=
  qstr "<boltArtifact id='a1' title='T' type='bundled'>".

Definition a1 : BoltArtifactData :=
  mkArtifact (Some (str "a1")) (Some (str "T")) (Some (str "bundled")).

Definition fileWithoutPathText : jsstring :=
  artifactOpenText ++ qstr "<boltAction type='file'>data</boltAction></boltArtifact>".

Definition emptyScreenIdTag : jsstring :=
  qstr "<boltAction type='screen' screenId='' screenName='n' screenType='page'>".

Definition screenPropsTag : jsstring :=
  qstr "<boltAction type='screen' screenId='s' screenName='n' screenType='page' props='{\'a\':1}'>".

Definition screenArrayTag : jsstring :=
  qstr "<boltAction type='screen' screenId='s' screenName='n' screenType='page' props='[1,2]'>".

Definition fencedFileText (path : string) : jsstring :=
  artifactOpenText ++ qstr "<boltAction type='file' filePath='" ++ str path ++ qstr "'>"
  ++ fence (str "ts") (str "const x=1;") ++ str "</boltAction>".

(** The text of a file action with the path [path] and the content
    [content], inside an artifact, up to the close tag of the action. *)
Definition fileActionText (path : string) (content : jsstring) : jsstring :=
  artifactOpenText ++ qstr "<boltAction type='file' filePath='" ++ str path ++ qstr "'>"
  ++ content ++ str "</boltAction>".

Definition lookalikeText : jsstring := qstr "<boltArtifactX attr='v'>".

(** An artifact with two shell actions. *)
Definition twoActionsText : jsstring :=
  artifactOpenText
  ++ qstr "<boltAction type='shell'>a</boltAction><boltAction type='shell'>b</boltAction></boltArtifact>".

(** Options whose [callbacks] hold [onActionClose] alone. *)
Definition closeOnly : option ParserCallbacks.t :=
  Some (ParserCallbacks.make false false false false true).

(** A text that ends with a component tag without attributes, on which
    [parseActionTag] throws, and the text grown by the rest of the
    document. *)
Definition componentTagText : jsstring :=
  artifactOpenText ++ qstr "<boltAction type='component'>".

Definition componentTagGrown : jsstring :=
  componentTagText ++ str "x</boltAction></boltArtifact>".

(** A shell action, closed, before the component tag without attributes. *)
Definition shellThenComponentText : jsstring :=
  artifactOpenText
  ++ qstr "<boltAction type='shell'>ls</boltAction><boltAction type='component'>".

Definition componentError : JsError :=
  Error (str "Component action requires componentName and componentType").

(** The state after [fencedFileText] up to the end of the action tag. *)
Definition fileOpenState (path : string) : MessageState :=
  mkState 87 true true (Some a1) (mkAction (FileAction (Some (str path))) []) 1.

(** *** Notions used in the proofs *)

(** The rest of the text after a parse is shorter than the text. *)
Definition shorter {A : Type} (x : JSON.presult A) (s : jsstring) : Prop :=
  match x with
  | JSON.POk _ r => length r < length s
  | _ => True
  end.

(** A parse that did not run out of fuel. *)
Definition fueled {A : Type} (x : JSON.presult A) : Prop :=
  match x with
  | JSON.PFuel => False
  | _ => True
  end.

(** [stable r1 r]: the pass [r] on the longer text does what the pass [r1]
    on the shorter text did, when that one did not leave the loop. *)
Definition stable (r1 r : Step) : Prop :=
  match r1 with
  | Continue st' i' out evs => r = Continue st' i' out evs
  | Break _ => True
  | Throw _ evs err => exists st'', r = Throw st'' evs err
  end.

(** The callbacks of a pass that leaves the loop: none, or one
    action-stream callback. *)
Definition streamOnly (evs : list Event) : Prop :=
  evs = [] \/ exists d, evs = [onActionStream d].

(** The state in which a call ends, with the cursor [p] put in place where
    the call did not store one. *)
Definition keepCursor (p : nat) (r : MessageState * list Event * Completion)
  : MessageState * list Event * Completion :=
  let '(st, evs, c) := r in
  (match c with
   | Returns _ => st
   | _ => set_position st p
   end, evs, c).

Definition mapState (f : MessageState -> MessageState) (r : Step) : Step :=
  match r with
  | Continue st i out evs => Continue (f st) i out evs
  | Break evs => Break evs
  | Throw st evs err => Throw (f st) evs err
  end.

Definition isUnreachable (c : Completion) : bool :=
  match c with
  | Throws (Unreachable _) => true
  | _ => false
  end.

(** *** Parsers in use *)

(** The parser that a call leaves, and how the call ends. *)
Definition parserOf (r : StreamingMessageParser * list Event * Completion)
  : StreamingMessageParser := fst (fst r).

Definition completionOf (r : StreamingMessageParser * list Event * Completion)
  : Completion := snd r.

(** The parsers that a program can hold: a new one, and what calls of
    [parse], for any message and text and however they end, and calls of
    [reset] make of it. *)
Inductive reachable (artifactElement : option (jsstring -> jsstring))
  (callbacks : option ParserCallbacks.t) : StreamingMessageParser -> Prop :=
| reachable_new :
    reachable artifactElement callbacks (mkParser artifactElement callbacks [])
| reachable_parse (p : StreamingMessageParser) (messageId input : jsstring) :
    reachable artifactElement callbacks p ->
    reachable artifactElement callbacks (parserOf (parse p messageId input))
| reachable_reset (p : StreamingMessageParser) :
    reachable artifactElement callbacks p ->
    reachable artifactElement callbacks (reset p).

(** What the state of a message keeps through every call: an action is
    open only inside a recorded artifact; outside an action the current
    action is the record [{ content: '' }]; and the content stored in the
    current action is empty, unless it is a file action without a path,
    on which every call throws after it has appended to the content. *)
Definition settled (st : MessageState) : Prop :=
  wf st
  /\ (insideAction st = false -> currentAction st = emptyAction)
  /\ (content (currentAction st) = [] \/ fields (currentAction st) = FileAction None).

(** The call threw an [Error], which only [parseActionTag] raises. *)
Definition isError (c : Completion) : bool :=
  match c with
  | Throws (Error _) => true
  | _ => false
  end.

(** The output of a call that returns. *)
Definition outputOf (c : Completion) : jsstring :=
  match c with
  | Returns o => o
  | _ => []
  end.

Definition returns (c : Completion) : bool :=
  match c with
  | Returns _ => true
  | _ => false
  end.

(** *** Actions *)

(** A file action without a path: the record on which the close and the
    stream paths throw. *)
Definition pathless (f : ActionFields) : bool :=
  match f with
  | FileAction None => true
  | _ => false
  end.

(** The content that the close callback of an action carries, for the
    text [text] between the cursor and the close tag. *)
Definition closedContent (f : ActionFields) (text : jsstring) : jsstring :=
  match f with
  | FileAction (Some filePath) => cleanFileContent filePath (trim text) ++ [LF]
  | _ => trim text
  end.

(** The callbacks of a call that ends waiting inside an action: for a
    file action the action-stream callback with the text from the cursor
    on, one call when the options hold the callback; none for the other
    actions. *)
Definition waitingEvents (callbacks : option ParserCallbacks.t)
  (messageId : jsstring) (st : MessageState)
  (a : BoltArtifactData) (input : jsstring) : list Event :=
  match fields (currentAction st) with
  | FileAction (Some filePath) =>
      callback callbacks
        (onActionStream
           (mkActionData (id a) messageId (String_of_Z (actionId st - 1))
              (mkAction (FileAction (Some filePath))
                 (cleanFileContent filePath (sliceFrom input (position st))))))
  | _ => []
  end.

(** *** Attribute names and values *)

Definition isLetter (c : ascii) : bool := isLower c || isUpper c.

(** The name of an attribute as [extractAttribute] is called with it in
    the source: letters only, so that the name is its own pattern. *)
Definition isName (name : string) : bool := forallb isLetter (str name).

(** [n] is the name [name] up to the case of the letters. *)
Definition sameName (n : jsstring) (name : string) : bool :=
  eqs (map lowerc n) (map lowerc (str name)).

Definition hasQuote (s : jsstring) : bool := existsb (eqc dq) s.

(** The five types for which [parseActionTag] has a branch. *)
Definition typedKinds : list jsstring :=
  [str "supabase"; str "file"; str "screen"; str "navigation"; str "component"].

Definition nonEmpty (s : jsstring) : bool :=
  match s with
  | [] => false
  | _ :: _ => true
  end.

Definition isSome {A : Type} (o : option A) : bool :=
  match o with
  | Some _ => true
  | None => false
  end.

(** The fields that a record of each kind must have: those that the
    types of ~/types/actions declare without a question mark, with the
    values that the checks of [parseActionTag] ask for.  A file record
    must have its [filePath]; a supabase record has the operation
    [migration] with a file path that is not empty, or the operation
    [query] and no file path; the names and types of the screen,
    navigation and component records are not empty; a record of another
    type has none of the five typed kinds as its type. *)
Definition requiredPresent (f : ActionFields) : bool :=
  match f with
  | Untyped => false
  | SupabaseAction operation filePath =>
      (eqs operation (str "migration") && truthy filePath)
      || (eqs operation (str "query") && negb (isSome filePath))
  | FileAction filePath => isSome filePath
  | ScreenAction screenId screenName screenType _ _ _ _ =>
      nonEmpty screenId && nonEmpty screenName && nonEmpty screenType
  | NavigationAction fromScreen toScreen trigger navigationType _ =>
      nonEmpty fromScreen && nonEmpty toScreen && nonEmpty trigger
      && nonEmpty navigationType
  | ComponentAction componentName componentType _ _ _ =>
      nonEmpty componentName && nonEmpty componentType
  | OtherAction actionType =>
      negb (existsb (eqs (orEmpty actionType)) typedKinds && isSome actionType)
  end.

(** An entry of a list attribute: no white space around it, no comma. *)
Definition isEntry (s : jsstring) : bool :=
  eqs (trim s) s && negb (existsb (eqc ",") s).

Definition isEntryList (l : option (list jsstring)) : bool :=
  match l with
  | None => true
  | Some [] => false
  | Some xs => forallb isEntry xs
  end.

Definition listFields (f : ActionFields) : bool :=
  match f with
  | ScreenAction _ _ _ _ _ dependencies _ => isEntryList dependencies
  | ComponentAction _ _ usedByScreens exports imports =>
      isEntryList usedByScreens && isEntryList exports && isEntryList imports
  | _ => true
  end.

(** *** The artifact tag *)

(** The record of a container tag: [{ id, title, type }], each as
    [extractAttribute] reads it from the tag. *)
Definition artifactOf (artifactTag : jsstring) : BoltArtifactData :=
  mkArtifact (extractAttribute artifactTag "id")
    (extractAttribute artifactTag "title")
    (extractAttribute artifactTag "type").

(** [this._options.artifactElement ?? createArtifactElement] *)
Definition artifactFactory (artifactElement : option (jsstring -> jsstring))
  : jsstring -> jsstring :=
  match artifactElement with
  | Some f => f
  | None => createArtifactElement
  end.

(** What follows the marker in a tag: nothing, or a space and more. *)
Definition isTagRest (attrs : jsstring) : bool :=
  match attrs with
  | [] => true
  | c :: _ => eqc c " "
  end.

(** *** Quick actions *)

(** An entry of a quick-actions block with the text before it: the
    attributes of its tag and its label. *)
Record QuickAction : Type := mkQuickAction {
  leading : jsstring;
  attributes : jsstring;
  caption : jsstring
}.

Definition quickActionText (q : QuickAction) : jsstring :=
  leading q ++ QUICK_ACTION_OPEN ++ attributes q ++ ">" :: caption q ++ QUICK_ACTION_CLOSE.

(** The first occurrence of [p] in [s] is at [k]. *)
Definition firstAt (p s : jsstring) (k : nat) : bool :=
  match find p s with
  | Some j => j =? k
  | None => false
  end.

(** The entry is written as the pattern reads it: the text before it
    holds no open tag of an entry, the attributes no [>], the label no
    close tag of an entry. *)
Definition isQuickAction (q : QuickAction) : bool :=
  firstAt QUICK_ACTION_OPEN (leading q ++ QUICK_ACTION_OPEN) (length (leading q))
  && forallb notGt (attributes q)
  && firstAt QUICK_ACTION_CLOSE (caption q ++ QUICK_ACTION_CLOSE) (length (caption q)).

(** The content of a block: entries, and text after the last one. *)
Definition blockText (qs : list QuickAction) (trailing : jsstring) : jsstring :=
  flat_map quickActionText qs ++ trailing.

Definition buttonOf (q : QuickAction) : jsstring :=
  quickActionButton (attributes q) (caption q).

(** *** Names in camel case *)

(** [w] with its first letter in upper case. *)
Definition capitalize (w : jsstring) : jsstring :=
  match w with
  | c :: w' => ascii_of_nat (nat_of_ascii c - 32) :: w'
  | [] => []
  end.

(** A word of two or more lower-case letters. *)
Definition isLowerWord (w : jsstring) : bool :=
  (2 <=? length w) && forallb isLower w.

(** The words [first], [others] written in camel case: [message] and
    [id] give [messageId]. *)
Definition camelCase (first : jsstring) (others : list jsstring) : jsstring :=
  first ++ flat_map capitalize others.

(** *** Reading a JSON string back *)

Definition allChars : list ascii := map ascii_of_nat (seq 0 256).

(** The character whose quoted form begins the text. *)
Definition unquoteChar (s : jsstring) : option ascii :=
  List.find (fun c => prefixb (JSON.quoteChar c) s) allChars.

(** *** The action tag *)

(** The record of an action tag: [#parseActionTag] on the text of the
    tag alone. *)
Definition recordOf (actionTag : jsstring) : Result BoltActionData :=
  parseActionTag actionTag 0 (length actionTag - 1).

(** *** A document with one action *)

(** Text without [<]. *)
Definition plain (s : jsstring) : bool := negb (existsb (eqc "<") s).

(** Text, an artifact with one action in it, and text: the tags with
    what stands between the marker and the [>], the text around them. *)
Definition actionDocument (pre attrs between x body after post : jsstring) : jsstring :=
  pre ++ (ARTIFACT_TAG_OPEN ++ attrs ++ [">"]) ++ between
  ++ (ARTIFACT_ACTION_TAG_OPEN ++ x ++ [">"]) ++ body ++ ARTIFACT_ACTION_TAG_CLOSE
  ++ after ++ ARTIFACT_TAG_CLOSE ++ post.

(* ================================================================== *)
(** ** Strings: basic facts *)
(* ================================================================== *)

Section StringFacts.

Lemma eqc_eq (a b : ascii) : eqc a b = true <-> a = b.
Proof. apply Ascii.eqb_eq. Qed.

Lemma eqc_refl (a : ascii) : eqc a a = true.
Proof. apply Ascii.eqb_refl. Qed.

Lemma eqs_eq (a b : jsstring) : eqs a b = true <-> a = b.
Proof.
  revert b; induction a as [|x a IH]; intros [|y b]; simpl; split;
    try congruence; try discriminate.
  - rewrite andb_true_iff, eqc_eq, IH. intros [-> ->]; reflexivity.
  - intros [= -> ->]. rewrite eqc_refl. apply IH; reflexivity.
Qed.

Lemma eqs_refl (a : jsstring) : eqs a a = true.
Proof. apply eqs_eq; reflexivity. Qed.

Lemma prefixb_spec (p s : jsstring) :
  prefixb p s = true <-> exists r, s = p ++ r.
Proof.
  revert s; induction p as [|x p IH]; intros s; simpl.
  - split; [exists s; reflexivity | reflexivity].
  - destruct s as [|y s].
    + split; [discriminate | intros [r H]; discriminate].
    + rewrite andb_true_iff, eqc_eq, IH. split.
      * intros [-> [r ->]]. exists r; reflexivity.
      * intros [r [= -> ->]]. split; [reflexivity | exists r; reflexivity].
Qed.

Lemma prefixb_app (p r : jsstring) : prefixb p (p ++ r) = true.
Proof. apply prefixb_spec; exists r; reflexivity. Qed.

Lemma prefixb_length (p s : jsstring) : prefixb p s = true -> length p <= length s.
Proof.
  intros [r ->]%prefixb_spec. rewrite length_app. lia.
Qed.

(** A prefix test that succeeds keeps succeeding when the text grows. *)
Lemma prefixb_ext (p s e : jsstring) :
  prefixb p s = true -> prefixb p (s ++ e) = true.
Proof.
  intros [r ->]%prefixb_spec. rewrite <- app_assoc. apply prefixb_app.
Qed.

Lemma find_bound (p s : jsstring) (k : nat) :
  find p s = Some k -> k + length p <= length s.
Proof.
  revert k; induction s as [|c s IH]; intros k; simpl.
  - destruct (prefixb p []) eqn:E; [|discriminate].
    intros [= <-]. apply prefixb_length in E. simpl in *. lia.
  - destruct (prefixb p (c :: s)) eqn:E.
    + intros [= <-]. apply prefixb_length in E. simpl in *. lia.
    + destruct (find p s) as [k'|]; [|discriminate].
      intros [= <-]. specialize (IH k' eq_refl). simpl. lia.
Qed.

Lemma find_prefix (p s : jsstring) (k : nat) :
  find p s = Some k -> prefixb p (skipn k s) = true.
Proof.
  revert k; induction s as [|c s IH]; intros k; simpl.
  - destruct (prefixb p []) eqn:E; [|discriminate]. intros [= <-]. exact E.
  - destruct (prefixb p (c :: s)) eqn:E.
    + intros [= <-]. exact E.
    + destruct (find p s) as [k'|]; [|discriminate].
      intros [= <-]. simpl. apply IH; reflexivity.
Qed.

Lemma indexOf_ge (p s : jsstring) (i k : nat) : indexOf p s i = Some k -> i <= k.
Proof.
  unfold indexOf. destruct (find p (skipn i s)); [|discriminate].
  intros [= <-]. lia.
Qed.

Lemma indexOf_bound (p s : jsstring) (i k : nat) :
  0 < length p -> indexOf p s i = Some k -> k + length p <= length s.
Proof.
  intros Hp. unfold indexOf. destruct (find p (skipn i s)) as [k'|] eqn:E; [|discriminate].
  intros [= <-]. apply find_bound in E. rewrite length_skipn in E. lia.
Qed.

Lemma indexOf_startsWith (p s : jsstring) (i k : nat) :
  indexOf p s i = Some k -> startsWith p s k = true.
Proof.
  unfold indexOf, startsWith.
  destruct (find p (skipn i s)) as [k'|] eqn:E; [|discriminate].
  intros [= <-]. apply find_prefix in E. rewrite skipn_skipn in E.
  rewrite Nat.add_comm. exact E.
Qed.

End StringFacts.

(* ================================================================== *)
(** ** Every pass moves forward; the loop ends *)
(* ================================================================== *)

Section Progress.

Variable artifactElement : option (jsstring -> jsstring).
Variable callbacks : option ParserCallbacks.t.
Variable messageId : jsstring.
Variable input : jsstring.

Abbreviation pass := (step artifactElement callbacks messageId input).
Abbreviation loop := (scan artifactElement callbacks messageId input).
Abbreviation call := (parseState artifactElement callbacks messageId input).

Lemma prefixb_same_length (p s : jsstring) :
  prefixb p s = true -> length p = length s -> p = s.
Proof.
  intros [r ->]%prefixb_spec. rewrite length_app. intros H.
  destruct r; [rewrite app_nil_r; reflexivity | simpl in H; lia].
Qed.

(** The inner loop ends by a flush or an open tag at or after [i], by the
    early break, or at the end of the text with a prefix of the marker in
    [potentialTag]. *)
Lemma tagScan_inv (i n j : nat) (pt : jsstring) :
  i <= j -> j <= length input ->
  prefixb pt ARTIFACT_TAG_OPEN = true ->
  eqs pt ARTIFACT_TAG_OPEN = false ->
  length pt + n = length ARTIFACT_TAG_OPEN ->
  match tagScan input n j pt with
  | TagFlush j' => i <= j' /\ j' < length input
  | TagOpen e => i <= e /\ e < length input
  | TagEarlyBreak => True
  | TagExit j' pt' => j' = length input /\ prefixb pt' ARTIFACT_TAG_OPEN = true
  end.
Proof.
  revert j pt; induction n as [|n IH]; intros j pt Hij Hj Hp He Hl.
  - exfalso. rewrite Nat.add_0_r in Hl.
    apply (prefixb_same_length _ _ Hp) in Hl.
    apply eqs_eq in Hl. congruence.
  - cbn [tagScan].
    destruct (j <? length input) eqn:Ej; cbn [andb].
    2:{ apply Nat.ltb_ge in Ej. split; [lia | exact Hp]. }
    apply Nat.ltb_lt in Ej.
    destruct (length pt <? length ARTIFACT_TAG_OPEN) eqn:El.
    2:{ apply Nat.ltb_ge in El. exfalso; lia. }
    destruct (eqs (pt ++ [nth j input Ascii.zero]) ARTIFACT_TAG_OPEN) eqn:E1.
    + match goal with |- context [if ?b then _ else _] => destruct b end.
      * split; lia.
      * destruct (indexOf [">"] input j) as [e|] eqn:E2; [|exact I].
        pose proof (indexOf_bound [">"] input j e ltac:(simpl; lia) E2) as Hb.
        apply indexOf_ge in E2. simpl in Hb. lia.
    + destruct (prefixb (pt ++ [nth j input Ascii.zero]) ARTIFACT_TAG_OPEN) eqn:E2;
        cbn [negb].
      * apply IH; try lia; try assumption.
        rewrite length_app. change (length [nth j input Ascii.zero]) with 1. lia.
      * split; lia.
Qed.

Lemma stepTag_progress (st : MessageState) (i : nat) (st' : MessageState)
  (i' : nat) (out : jsstring) (evs : list Event) :
  i < length input ->
  stepTag artifactElement callbacks messageId input st i = Continue st' i' out evs -> i < i'.
Proof.
  intros Hi. unfold stepTag.
  pose proof (@tagScan_inv i (length ARTIFACT_TAG_OPEN) i []
                (le_n _) (Nat.lt_le_incl _ _ Hi) eq_refl eq_refl eq_refl) as H.
  destruct (tagScan input (length ARTIFACT_TAG_OPEN) i []) as [j|e| |j pt].
  - intros [= _ <- _ _]. lia.
  - intros [= _ <- _ _]. lia.
  - discriminate.
  - destruct H as [-> ->]. rewrite Nat.eqb_refl. discriminate.
Qed.

Lemma quickActionsBlock_progress (i i' : nat) (markup : jsstring) :
  quickActionsBlock input i = Some (markup, i') -> i < i'.
Proof.
  unfold quickActionsBlock.
  destruct (startsWith BOLT_QUICK_ACTIONS_OPEN input i); [|discriminate].
  destruct (indexOf BOLT_QUICK_ACTIONS_CLOSE input i) as [e|] eqn:E; [|discriminate].
  intros [= _ <-]. apply indexOf_ge in E. simpl. lia.
Qed.

Lemma stepInsideAction_progress (st : MessageState) (a : BoltArtifactData)
  (i : nat) (st' : MessageState) (i' : nat) (out : jsstring) (evs : list Event) :
  stepInsideAction callbacks messageId input st a i = Continue st' i' out evs -> i < i'.
Proof.
  unfold stepInsideAction.
  destruct (indexOf ARTIFACT_ACTION_TAG_CLOSE input i) as [c|] eqn:E.
  - apply indexOf_ge in E.
    destruct (fields (currentAction st)) as [| | [p|] | | | |];
      try discriminate; intros [= _ <- _ _]; simpl; lia.
  - destruct (fields (currentAction st)) as [| | [p|] | | | |]; discriminate.
Qed.

Lemma stepInsideArtifact_progress (st : MessageState) (a : BoltArtifactData)
  (i : nat) (st' : MessageState) (i' : nat) (out : jsstring) (evs : list Event) :
  stepInsideArtifact callbacks messageId input st a i = Continue st' i' out evs -> i < i'.
Proof.
  unfold stepInsideArtifact, openAction, closeArtifact.
  destruct (indexOf ARTIFACT_ACTION_TAG_OPEN input i) as [o|] eqn:Eo;
    destruct (indexOf ARTIFACT_TAG_CLOSE input i) as [c|] eqn:Ec;
    try apply indexOf_ge in Eo; try apply indexOf_ge in Ec.
  - destruct (o <? c).
    + destruct (indexOf [">"] input o) as [e|] eqn:Ee; [|discriminate].
      apply indexOf_ge in Ee.
      destruct (parseActionTag input o e); [|discriminate].
      intros [= _ <- _ _]. lia.
    + intros [= _ <- _ _]. simpl. lia.
  - destruct (indexOf [">"] input o) as [e|] eqn:Ee; [|discriminate].
    apply indexOf_ge in Ee.
    destruct (parseActionTag input o e); [|discriminate].
    intros [= _ <- _ _]. lia.
  - intros [= _ <- _ _]. simpl. lia.
  - discriminate.
Qed.

(** A pass that does not leave the loop moves [i] forward. *)
Lemma step_progress (st : MessageState) (i : nat) (st' : MessageState)
  (i' : nat) (out : jsstring) (evs : list Event) :
  i < length input -> pass st i = Continue st' i' out evs -> i < i'.
Proof.
  intros Hi. unfold step.
  destruct (quickActionsBlock input i) as [[markup k]|] eqn:Eq.
  - intros [= _ <- _ _]. eapply quickActionsBlock_progress; eassumption.
  - destruct (insideArtifact st).
    + destruct (currentArtifact st) as [a|]; [|discriminate].
      destruct (insideAction st).
      * apply stepInsideAction_progress.
      * apply stepInsideArtifact_progress.
    + match goal with |- context [if ?b then _ else _] => destruct b end.
      * apply stepTag_progress; assumption.
      * intros [= _ <- _ _]. lia.
Qed.

(** No pass writes [state.position]. *)
Lemma step_position (st : MessageState) (i : nat) :
  match pass st i with
  | Continue st' _ _ _ => position st' = position st
  | Break _ => True
  | Throw st' _ _ => position st' = position st
  end.
Proof.
  unfold step.
  destruct (quickActionsBlock input i) as [[markup k]|]; [reflexivity|].
  destruct (insideArtifact st).
  - destruct (currentArtifact st) as [a|]; [|reflexivity].
    destruct (insideAction st).
    + unfold stepInsideAction.
      destruct (indexOf ARTIFACT_ACTION_TAG_CLOSE input i);
        destruct (fields (currentAction st)) as [| | [p|] | | | |]; reflexivity || exact I.
    + unfold stepInsideArtifact, openAction, closeArtifact.
      destruct (indexOf ARTIFACT_ACTION_TAG_OPEN input i) as [o|];
        destruct (indexOf ARTIFACT_TAG_CLOSE input i) as [c|];
        try destruct (o <? c);
        try (destruct (indexOf [">"] input o) as [e|]; [|exact I];
             destruct (parseActionTag input o e));
        reflexivity || exact I.
  - match goal with |- context [if ?b then _ else _] => destruct b end; [|reflexivity].
    unfold stepTag.
    destruct (tagScan input (length ARTIFACT_TAG_OPEN) i []); try reflexivity; try exact I.
    match goal with |- context [if ?b then _ else _] => destruct b end;
      reflexivity || exact I.
Qed.

(** With fuel for the characters that remain, the loop does not run out of
    fuel, the cursor it stores is at or after the place where it started,
    and nothing else writes the cursor. *)
Lemma scan_spec (fuel : nat) (st : MessageState) (i : nat) (output : jsstring)
  (evs : list Event) :
  length input - i <= fuel ->
  let '(st', _, c) := loop fuel st i output evs in
  match c with
  | Returns _ => i <= position st'
  | Throws _ => position st' = position st
  | Diverges => False
  end.
Proof.
  revert st i output evs; induction fuel as [|fuel IH]; intros st i output evs Hf;
    cbn [scan].
  - destruct (i <? length input) eqn:E; [apply Nat.ltb_lt in E; lia | simpl; lia].
  - destruct (i <? length input) eqn:E; [|simpl; lia].
    apply Nat.ltb_lt in E.
    pose proof (step_progress st i) as Hp.
    pose proof (step_position st i) as Hs.
    destruct (pass st i) as [st1 i1 out e| e| st1 e err].
    + specialize (Hp st1 i1 out e E eq_refl).
      specialize (IH st1 i1 (output ++ out) (evs ++ e)).
      destruct (loop fuel st1 i1 (output ++ out) (evs ++ e)) as [[st' evs'] c].
      assert (length input - i1 <= fuel) as Hf' by lia.
      specialize (IH Hf'). destruct c; [lia | congruence | exact IH].
    + simpl. lia.
    + exact Hs.
Qed.

End Progress.

(* ================================================================== *)
(** ** The table of messages and the cursor *)
(* ================================================================== *)

Lemma get_set (m : Messages) (k : jsstring) (st : MessageState) :
  get (set m k st) k = Some st.
Proof.
  induction m as [|[k' v] m IH]; simpl.
  - rewrite eqs_refl; reflexivity.
  - destruct (eqs k' k) eqn:E; simpl; rewrite E; [reflexivity | exact IH].
Qed.

Lemma parse_unfold (p : StreamingMessageParser) (messageId input : jsstring) :
  parse p messageId input =
  let '(st', evs, c) :=
    parseState (artifactElementOption p) (callbacksOption p) messageId input (stateOf p
        messageId) in
  (mkParser (artifactElementOption p) (callbacksOption p) (set (messages p) messageId st'), evs, c).
Proof. reflexivity. Qed.

Lemma parseState_spec (f : option (jsstring -> jsstring))
  (callbacks : option ParserCallbacks.t) (messageId input : jsstring)
  (st : MessageState) :
  let '(st', _, c) := parseState f callbacks messageId input st in
  position st <= position st' /\ c <> Diverges.
Proof.
  unfold parseState.
  pose proof (scan_spec f callbacks messageId input (length input) st (position st) [] []) as H.
  destruct (scan f callbacks messageId input (length input) st (position st) [] [])
    as [[st' evs] c].
  assert (length input - position st <= length input) as Hl by lia.
  specialize (H Hl). destruct c.
  - split; [exact H | discriminate].
  - split; [lia | discriminate].
  - contradiction.
Qed.

(** X27.  Every call of [parse] returns or throws: the loop ends, on any
    parser and any text. *)
Theorem parse_terminates (p : StreamingMessageParser) (messageId input : jsstring) :
  snd (parse p messageId input) <> Diverges.
Proof.
  rewrite parse_unfold.
  pose proof (parseState_spec (artifactElementOption p) (callbacksOption p) messageId input
                (stateOf p messageId)) as H.
  destruct (parseState (artifactElementOption p) (callbacksOption p) messageId input
      (stateOf p messageId))
    as [[st' evs] c].
  simpl. apply H.
Qed.


(* ================================================================== *)
(** ** The order of the callbacks *)
(* ================================================================== *)

Lemma trace_one (mid : jsstring) (s1 s2 : Phase * Z) (e : Event) :
  follows mid s1 e s2 -> trace mid s1 [e] s2.
Proof. intros H. eapply trace_cons; [exact H | apply trace_nil]. Qed.

Lemma trace_app (mid : jsstring) (s1 s2 s3 : Phase * Z) (evs1 evs2 : list Event) :
  trace mid s1 evs1 s2 -> trace mid s2 evs2 s3 -> trace mid s1 (evs1 ++ evs2) s3.
Proof.
  induction 1 as [s|s1 s2 s3' e evs Hf Ht IH]; intros H2; simpl.
  - exact H2.
  - eapply trace_cons; [exact Hf | apply IH; exact H2].
Qed.

Lemma wf_initial : wf initialState.
Proof. split; [reflexivity | discriminate]. Qed.

Section Order.

Variable artifactElement : option (jsstring -> jsstring).
Variable callbacks : option ParserCallbacks.t.
Variable messageId : jsstring.
Variable input : jsstring.

(** The options hold all five callbacks: every call of the protocol is
    made. *)
Hypothesis all_callbacks : callbacks = allCallbacks.

Abbreviation pass := (step artifactElement callbacks messageId input).
Abbreviation loop := (scan artifactElement callbacks messageId input).
Abbreviation call := (parseState artifactElement callbacks messageId input).

Lemma stepInsideAction_trace (st : MessageState) (a : BoltArtifactData) (i : nat) :
  insideArtifact st = true -> currentArtifact st = Some a -> insideAction st = true ->
  match stepInsideAction callbacks messageId input st a i with
  | Continue st' _ _ evs => wf st' /\ trace messageId (stage st) evs (stage st')
  | Break evs => trace messageId (stage st) evs (stage st)
  | Throw _ evs _ => evs = []
  end.
Proof.
  intros Ha Hc Hi. unfold stepInsideAction, stage, phaseOf, wf.
  rewrite all_callbacks.
  destruct (indexOf ARTIFACT_ACTION_TAG_CLOSE input i) as [c|];
    destruct (fields (currentAction st)) as [| | [p|] | | | |];
    simpl; rewrite ?Ha, ?Hc, ?Hi;
    try reflexivity; try apply trace_nil;
    try (split; [split; [discriminate | congruence]
                | apply trace_one; apply follows_action_close]).
  apply trace_one. apply follows_action_stream.
Qed.

Lemma stepInsideArtifact_trace (st : MessageState) (a : BoltArtifactData) (i : nat) :
  insideArtifact st = true -> currentArtifact st = Some a -> insideAction st = false ->
  match stepInsideArtifact callbacks messageId input st a i with
  | Continue st' _ _ evs => wf st' /\ trace messageId (stage st) evs (stage st')
  | Break evs => trace messageId (stage st) evs (stage st)
  | Throw _ evs _ => evs = []
  end.
Proof.
  intros Ha Hc Hi.
  assert (forall o,
    match openAction callbacks messageId input st a o with
    | Continue st' _ _ evs => wf st' /\ trace messageId (stage st) evs (stage st')
    | Break evs => trace messageId (stage st) evs (stage st)
    | Throw _ evs _ => evs = []
    end) as Hopen.
  { intros o. unfold openAction, stage, phaseOf, wf. rewrite all_callbacks.
    destruct (indexOf [">"] input o) as [e|]; [|apply trace_nil].
    destruct (parseActionTag input o e) as [act|err]; [|reflexivity].
    simpl. rewrite Ha, Hc, Hi. split; [split; [discriminate | congruence]|].
    apply trace_one. apply follows_action_open. }
  assert (forall c,
    match closeArtifact callbacks messageId st a c with
    | Continue st' _ _ evs => wf st' /\ trace messageId (stage st) evs (stage st')
    | Break evs => trace messageId (stage st) evs (stage st)
    | Throw _ evs _ => evs = []
    end) as Hclose.
  { intros [c|]; unfold closeArtifact, stage, phaseOf, wf; [|apply trace_nil].
    rewrite all_callbacks. simpl. rewrite Ha, Hc, Hi. split; [split; [reflexivity | discriminate]|].
    apply trace_one. apply follows_artifact_close. }
  unfold stepInsideArtifact.
  destruct (indexOf ARTIFACT_ACTION_TAG_OPEN input i) as [o|]; [|apply Hclose].
  match goal with |- context [if ?b then _ else _] => destruct b end;
    [apply Hopen | apply Hclose].
Qed.

Lemma stepTag_trace (st : MessageState) (i : nat) :
  wf st -> insideArtifact st = false ->
  match stepTag artifactElement callbacks messageId input st i with
  | Continue st' _ _ evs => wf st' /\ trace messageId (stage st) evs (stage st')
  | Break evs => trace messageId (stage st) evs (stage st)
  | Throw _ evs _ => evs = []
  end.
Proof.
  intros Hw Ha. unfold stepTag. rewrite all_callbacks.
  destruct (tagScan input (length ARTIFACT_TAG_OPEN) i []) as [j|e| |j pt].
  - split; [exact Hw | apply trace_nil].
  - unfold stage, phaseOf, wf. simpl. rewrite Ha.
    destruct Hw as [Hw _]. rewrite (Hw Ha).
    split; [split; [discriminate | discriminate]|].
    apply trace_one. apply follows_artifact_open.
  - apply trace_nil.
  - match goal with |- context [if ?b then _ else _] => destruct b end.
    + apply trace_nil.
    + split; [exact Hw | apply trace_nil].
Qed.

(** A pass makes the callbacks that the document order allows. *)
Lemma step_trace (st : MessageState) (i : nat) :
  wf st ->
  match pass st i with
  | Continue st' _ _ evs => wf st' /\ trace messageId (stage st) evs (stage st')
  | Break evs => trace messageId (stage st) evs (stage st)
  | Throw _ evs _ => evs = []
  end.
Proof.
  intros Hw. unfold step.
  destruct (quickActionsBlock input i) as [[markup k]|].
  { split; [exact Hw | apply trace_nil]. }
  destruct (insideArtifact st) eqn:Ha.
  - destruct (currentArtifact st) as [a|] eqn:Hc; [|reflexivity].
    destruct (insideAction st) eqn:Hi.
    + apply stepInsideAction_trace; assumption.
    + apply stepInsideArtifact_trace; assumption.
  - match goal with |- context [if ?b then _ else _] => destruct b end.
    + apply stepTag_trace; assumption.
    + split; [exact Hw | apply trace_nil].
Qed.

Lemma stage_set_position (st : MessageState) (i : nat) :
  stage (set_position st i) = stage st.
Proof. reflexivity. Qed.

Lemma wf_set_position (st : MessageState) (i : nat) : wf st -> wf (set_position st i).
Proof. intros H; exact H. Qed.

(** The loop extends a trace by a trace, up to the end of the call; when
    the call returns, the state it leaves is well formed and stands at the
    end of the trace. *)
Lemma scan_trace (fuel : nat) (st : MessageState) (i : nat) (output : jsstring)
  (evs : list Event) (s0 : Phase * Z) :
  wf st -> trace messageId s0 evs (stage st) ->
  let '(st', evs', c) := loop fuel st i output evs in
  exists s', trace messageId s0 evs' s' /\
             (forall o, c = Returns o -> wf st' /\ s' = stage st').
Proof.
  revert st i output evs; induction fuel as [|fuel IH]; intros st i output evs Hw Ht;
    cbn [scan].
  - destruct (i <? length input).
    + exists (stage st). split; [exact Ht | discriminate].
    + exists (stage st). split; [exact Ht | intros o _; split; [exact Hw | reflexivity]].
  - destruct (i <? length input).
    2:{ exists (stage st). split; [exact Ht | intros o _; split; [exact Hw | reflexivity]]. }
    pose proof (step_trace st i Hw) as Hs.
    destruct (pass st i) as [st1 i1 out e| e| st1 e err].
    + destruct Hs as [Hw1 Ht1].
      apply IH; [exact Hw1 | eapply trace_app; eassumption].
    + exists (stage st). split; [eapply trace_app; eassumption|].
      intros o _; split; [exact Hw | reflexivity].
    + subst e. rewrite app_nil_r. exists (stage st). split; [exact Ht | discriminate].
Qed.

Lemma parseState_trace (st : MessageState) (evs : list Event) (s0 : Phase * Z) :
  wf st -> trace messageId s0 evs (stage st) ->
  let '(st', evs', c) := call st in
  exists s', trace messageId s0 (evs ++ evs') s' /\
             (forall o, c = Returns o -> wf st' /\ s' = stage st').
Proof.
  intros Hw Ht. unfold parseState.
  pose proof (scan_trace (length input) st (position st) [] [] (stage st) Hw
                (trace_nil _ _)) as H.
  destruct (loop (length input) st (position st) [] []) as [[st' evs'] c].
  destruct H as [s' [H1 H2]]. exists s'. split; [|exact H2].
  eapply trace_app; eassumption.
Qed.

End Order.

(* ================================================================== *)
(** ** Sequences of calls for one message *)
(* ================================================================== *)

Lemma stateOf_set (f : option (jsstring -> jsstring))
  (callbacks : option ParserCallbacks.t) (m : Messages)
  (k : jsstring) (st : MessageState) :
  stateOf (mkParser f callbacks (set m k st)) k = st.
Proof. unfold stateOf. simpl. rewrite get_set. reflexivity. Qed.

Lemma feed_trace (messageId : jsstring) (inputs : list jsstring) :
  forall (p : StreamingMessageParser) (evs0 : list Event) (s0 : Phase * Z),
  callbacksOption p = allCallbacks ->
  wf (stateOf p messageId) ->
  trace messageId s0 evs0 (stage (stateOf p messageId)) ->
  exists s', trace messageId s0 (evs0 ++ eventsOf (feed p messageId inputs)) s'.
Proof.
  induction inputs as [|input rest IH]; intros p evs0 s0 Hall Hw Ht.
  - simpl. rewrite app_nil_r. eexists; exact Ht.
  - cbn [feed]. rewrite parse_unfold.
    pose proof (parseState_trace (artifactElementOption p) (callbacksOption p) messageId input
                  Hall (stateOf p messageId) evs0 s0 Hw Ht) as H.
    destruct (parseState (artifactElementOption p) (callbacksOption p) messageId input
                (stateOf p messageId)) as [[st' evs1] c1].
    destruct H as [s1 [H1 H2]].
    destruct c1 as [out1|err|]; try (exists s1; exact H1).
    destruct (H2 out1 eq_refl) as [Hw' ->].
    specialize (IH (mkParser (artifactElementOption p) (callbacksOption p)
                      (set (messages p) messageId st')) (evs0 ++ evs1) s0).
    rewrite stateOf_set in IH. specialize (IH Hall Hw' H1).
    destruct (feed (mkParser (artifactElementOption p) (callbacksOption p)
                      (set (messages p) messageId st')) messageId rest)
      as [[p2 evs2] c2].
    unfold eventsOf in *. simpl in *. rewrite app_assoc. exact IH.
Qed.

(** The callbacks of any sequence of calls on a new parser with all five
    callbacks, up to and with those of the first call that throws, follow
    the protocol from the phase [Outside] and the action number 0. *)
Lemma feed_fresh_trace (f : option (jsstring -> jsstring)) (messageId : jsstring)
  (inputs : list jsstring) :
  exists s', trace messageId (Outside, 0%Z)
               (eventsOf (feed (freshParser f) messageId inputs)) s'.
Proof.
  apply (feed_trace messageId inputs (freshParser f) [] (Outside, 0%Z)).
  - reflexivity.
  - exact wf_initial.
  - apply trace_nil.
Qed.

Lemma eqo_refl (a : option jsstring) : eqo a a = true.
Proof. destruct a; simpl; [apply eqs_refl | reflexivity]. Qed.

Lemma trace_documentOrder (mid : jsstring) (s s' : Phase * Z) (evs : list Event) :
  trace mid s evs s' -> documentOrder (nestingOf (fst s)) evs = true.
Proof.
  induction 1 as [s|s1 s2 s3 e evs Hf Ht IH]; [reflexivity|].
  destruct Hf; simpl in *; rewrite ?eqo_refl; exact IH.
Qed.

Lemma actionIds_current_irrelevant (mid : jsstring) (s s' : Phase * Z)
  (evs : list Event) (cur : option jsstring) :
  trace mid s evs s' ->
  (forall a, fst s = InAction a -> cur = Some (String_of_Z (snd s - 1))) ->
  actionIds (snd s) cur evs = true.
Proof.
  intros Ht; revert cur; induction Ht as [s|s1 s2 s3 e evs Hf Ht IH]; intros cur Hc;
    [reflexivity|].
  destruct Hf; simpl in *.
  - apply IH. discriminate.
  - rewrite eqs_refl. simpl. apply IH. intros _ _. f_equal. f_equal. lia.
  - rewrite (Hc a eq_refl). simpl. rewrite eqs_refl. simpl.
    apply IH. intros _ _. reflexivity.
  - rewrite (Hc a eq_refl). simpl. rewrite eqs_refl. simpl.
    apply IH. discriminate.
  - apply IH. discriminate.
Qed.

Lemma str_inj (a b : string) : str a = str b -> a = b.
Proof.
  unfold str. intros H.
  rewrite <- (string_of_list_ascii_of_string a), <- (string_of_list_ascii_of_string b).
  rewrite H. reflexivity.
Qed.

Lemma to_int_proper (n : Z) : Z.to_int n <> Decimal.Pos Decimal.Nil
                              /\ Z.to_int n <> Decimal.Neg Decimal.Nil.
Proof.
  destruct n as [|p|p]; simpl; split; try discriminate;
    intros [= H]; exact (DecimalPos.Unsigned.to_uint_nonnil p H).
Qed.

(** [String(n)] tells integers apart. *)
Lemma String_of_Z_inj (a b : Z) : String_of_Z a = String_of_Z b -> a = b.
Proof.
  unfold String_of_Z. intros H%str_inj.
  apply DecimalZ.to_int_inj.
  pose proof (to_int_proper a) as [Ha1 Ha2].
  pose proof (to_int_proper b) as [Hb1 Hb2].
  pose proof (NilZero.isi (Z.to_int a) Ha1 Ha2) as Ia.
  pose proof (NilZero.isi (Z.to_int b) Hb1 Hb2) as Ib.
  rewrite H in Ia. congruence.
Qed.

(** The identifiers that [actionIds] accepts for the action-open callbacks
    are those of the numbers [next], [next + 1], ... *)
Lemma actionIds_openIds (evs : list Event) :
  forall (next : Z) (cur : option jsstring),
  actionIds next cur evs = true ->
  openIds evs =
  map (fun k => String_of_Z (next + Z.of_nat k)) (seq 0 (length (openIds evs))).
Proof.
  induction evs as [|e evs IH]; intros next cur H; [reflexivity|].
  destruct e as [d|d|d|d|d]; simpl in *.
  - eapply IH; eassumption.
  - eapply IH; eassumption.
  - apply andb_true_iff in H as [H1 H2]. apply eqs_eq in H1.
    rewrite H1 at 1. f_equal; [f_equal; lia|].
    rewrite (IH _ _ H2) at 1. rewrite <- seq_shift, map_map.
    apply map_ext. intros k. f_equal. lia.
  - apply andb_true_iff in H as [_ H]. eapply IH; eassumption.
  - apply andb_true_iff in H as [_ H]. eapply IH; eassumption.
Qed.

Lemma actionIds_NoDup (evs : list Event) (next : Z) (cur : option jsstring) :
  actionIds next cur evs = true -> NoDup (openIds evs).
Proof.
  intros H. rewrite (actionIds_openIds evs next cur H).
  apply Injective_map_NoDup; [|apply seq_NoDup].
  intros x y E. apply String_of_Z_inj in E. lia.
Qed.

(* ================================================================== *)
(** ** Text that looks like the artifact marker *)
(* ================================================================== *)

Section Lookalike.

Variable artifactElement : option (jsstring -> jsstring).
Variable callbacks : option ParserCallbacks.t.
Variable messageId : jsstring.
Variable input : jsstring.

Lemma skipn_cons_inv (s : jsstring) (j : nat) (x : ascii) (r : jsstring) :
  skipn j s = x :: r ->
  nth j s Ascii.zero = x /\ charAt s j = Some x /\ skipn (j + 1) s = r /\ j < length s.
Proof.
  revert j; induction s as [|y s IH]; intros j H.
  - rewrite skipn_nil in H. discriminate.
  - destruct j as [|j]; simpl in *.
    + injection H as -> ->. repeat split. lia.
    + destruct (IH j H) as [H1 [H2 [H3 H4]]]. repeat split; try assumption. lia.
Qed.

Lemma eqs_app_same (p a b : jsstring) : eqs (p ++ a) (p ++ b) = eqs a b.
Proof.
  induction p as [|x p IH]; simpl; [reflexivity|].
  rewrite eqc_refl. exact IH.
Qed.

Lemma prefixb_app_same (p a b : jsstring) : prefixb (p ++ a) (p ++ b) = prefixb a b.
Proof.
  induction p as [|x p IH]; simpl; [reflexivity|].
  rewrite eqc_refl. exact IH.
Qed.

Lemma eqc_neq (a b : ascii) : a <> b -> eqc a b = false.
Proof. intros H. apply Ascii.eqb_neq. exact H. Qed.

(** The inner loop on a text that follows the marker on [m] and then has
    [c] where the marker has [d]: the flush comes at [c]. *)
Lemma tagScan_diverges (m : jsstring) :
  forall (p q : jsstring) (d c : ascii) (rest : jsstring) (j : nat),
  p ++ m ++ d :: q = ARTIFACT_TAG_OPEN ->
  c <> d ->
  skipn j input = m ++ c :: rest ->
  tagScan input (length (m ++ d :: q)) j p = TagFlush (j + length m).
Proof.
  induction m as [|x m IH]; intros p q d c rest j Hp Hc Hs.
  - simpl in Hs. destruct (skipn_cons_inv _ _ _ _ Hs) as [Hn [_ [_ Hj]]].
    cbn [tagScan app length].
    apply Nat.ltb_lt in Hj. rewrite Hj. cbn [andb].
    assert ((length p <? length ARTIFACT_TAG_OPEN) = true) as ->.
    { apply Nat.ltb_lt. rewrite <- Hp, length_app. simpl. lia. }
    rewrite Hn, <- Hp. simpl app.
    rewrite eqs_app_same, prefixb_app_same. simpl.
    rewrite (eqc_neq _ _ Hc). simpl. rewrite Nat.add_0_r. reflexivity.
  - simpl in Hs. destruct (skipn_cons_inv _ _ _ _ Hs) as [Hn [_ [Hr Hj]]].
    cbn [tagScan app length].
    apply Nat.ltb_lt in Hj. rewrite Hj. cbn [andb].
    assert ((length p <? length ARTIFACT_TAG_OPEN) = true) as ->.
    { apply Nat.ltb_lt. rewrite <- Hp, length_app. simpl. lia. }
    rewrite Hn. rewrite <- Hp.
    rewrite eqs_app_same, prefixb_app_same.
    specialize (IH (p ++ [x]) q d c rest (j + 1)).
    rewrite <- app_assoc in IH. specialize (IH Hp Hc Hr).
    change ((x :: m) ++ d :: q) with (x :: (m ++ d :: q)).
    destruct (m ++ d :: q) as [|y w] eqn:Em; [destruct m; discriminate|].
    simpl eqs. simpl prefixb. rewrite eqc_refl. cbn [andb negb].
    rewrite IH. f_equal. lia.
Qed.

(** The inner loop on a text that holds the whole marker and then a
    character [c] other than [>] and the space: the flush comes at the
    last character of the marker. *)
Lemma tagScan_lookalike (q : jsstring) :
  forall (p : jsstring) (c : ascii) (rest : jsstring) (j : nat),
  q <> [] ->
  p ++ q = ARTIFACT_TAG_OPEN ->
  c <> ">" -> c <> " " ->
  skipn j input = q ++ c :: rest ->
  tagScan input (length q) j p = TagFlush (j + length q - 1).
Proof.
  induction q as [|x q IH]; intros p c rest j Hq Hp Hc1 Hc2 Hs; [congruence|].
  simpl in Hs. destruct (skipn_cons_inv _ _ _ _ Hs) as [Hn [_ [Hr Hj]]].
  cbn [tagScan length].
  apply Nat.ltb_lt in Hj. rewrite Hj. cbn [andb].
  assert ((length p <? length ARTIFACT_TAG_OPEN) = true) as ->.
  { apply Nat.ltb_lt. rewrite <- Hp, length_app. simpl. lia. }
  rewrite Hn. rewrite <- Hp.
  rewrite eqs_app_same, prefixb_app_same. simpl. rewrite eqc_refl. simpl.
  destruct q as [|y q].
  - simpl in Hr. destruct (skipn_cons_inv _ _ _ _ Hr) as [_ [Hc [_ _]]].
    rewrite Hc. rewrite (eqc_neq _ _ Hc1), (eqc_neq _ _ Hc2). simpl.
    f_equal. lia.
  - simpl eqs. cbn [negb].
    specialize (IH (p ++ [x]) c rest (j + 1)).
    rewrite <- app_assoc in IH.
    rewrite (IH ltac:(discriminate) Hp Hc1 Hc2 Hr). f_equal. simpl. lia.
Qed.

Lemma slice_skipn (s : jsstring) (i k : nat) (t r : jsstring) :
  skipn i s = t ++ r -> k = length t -> slice s i (i + k) = t.
Proof.
  intros H ->. unfold slice. rewrite H.
  replace (i + length t - i) with (length t + 0) by lia.
  rewrite firstn_app_2. simpl. apply app_nil_r.
Qed.

End Lookalike.

(* ================================================================== *)
(** ** The code fence *)
(* ================================================================== *)

Section Fence.

Lemma dropWhile_nil_forallb (f : ascii -> bool) (s : jsstring) :
  dropWhile f s = [] -> forallb f s = true.
Proof.
  induction s as [|c s IH]; simpl; [reflexivity|].
  destruct (f c); [exact IH | discriminate].
Qed.

Lemma dropWhile_all (f : ascii -> bool) (a : jsstring) (x : ascii) (r : jsstring) :
  forallb f a = true -> f x = false -> dropWhile f (a ++ x :: r) = x :: r.
Proof.
  intros Ha Hx. induction a as [|c a IH]; simpl in *.
  - rewrite Hx; reflexivity.
  - apply andb_true_iff in Ha as [-> Ha]. apply IH; exact Ha.
Qed.

(** After white space, a closing fence followed by white space only: this
    cannot be met inside [b ++ LF :: ```] unless [b] is all white space. *)
Lemma closing_fence_blank (b : jsstring) :
  (let r2 := dropWhile isSpace (b ++ LF :: str "```") in
   prefixb (str "```") r2 &&
   match dropWhile isSpace (skipn 3 r2) with [] => true | _ => false end) = true ->
  forallb isSpace b = true.
Proof.
  induction b as [|x b IH]; [reflexivity|].
  cbn [app dropWhile forallb].
  destruct (isSpace x) eqn:Ex; [exact IH|].
  cbv zeta. intros H. exfalso. apply andb_true_iff in H as [H1 H2].
  change (str "```") with ["`"; "`"; "`"] in H1.
  cbn [prefixb] in H1.
  apply andb_true_iff in H1 as [_ H1].
  destruct b as [|y b]; [discriminate H1|].
  cbn [app prefixb] in H1. apply andb_true_iff in H1 as [_ H1].
  destruct b as [|z b]; [discriminate H1|].
  cbn [app skipn] in H2.
  destruct (dropWhile isSpace (b ++ LF :: str "```")) eqn:E; [|discriminate].
  apply dropWhile_nil_forallb in E. rewrite forallb_app in E.
  apply andb_true_iff in E as [_ E]. discriminate E.
Qed.

Lemma fenceTail_inside (c : ascii) (b : jsstring) :
  fenceTail (c :: b ++ LF :: str "```") = true ->
  eqc c LF && forallb isSpace b = true.
Proof.
  unfold fenceTail. intros H. apply andb_true_iff in H as [H1 H2].
  rewrite H1. apply closing_fence_blank in H2. rewrite H2. reflexivity.
Qed.

(** The lazy group takes the whole body when no blank tail lets it stop
    earlier. *)
Lemma lazyBody_fence (body : jsstring) :
  blankTail body = false -> lazyBody (body ++ LF :: str "```") = Some body.
Proof.
  induction body as [|c b IH]; intros H; [reflexivity|].
  simpl in H. apply orb_false_iff in H as [H1 H2].
  cbn [app lazyBody].
  destruct (fenceTail (c :: b ++ LF :: str "```")) eqn:E.
  - apply fenceTail_inside in E. congruence.
  - rewrite (IH H2). reflexivity.
Qed.

Lemma dropWhile_backticks (r : jsstring) :
  dropWhile isSpace (str "```" ++ r) = str "```" ++ r.
Proof. reflexivity. Qed.

Lemma cleanoutMarkdownSyntax_fence (lang body : jsstring) :
  forallb isWord lang = true -> blankTail body = false ->
  cleanoutMarkdownSyntax (fence lang body) = body.
Proof.
  intros Hl Hb. unfold cleanoutMarkdownSyntax, codeBlockMatch, fence.
  rewrite dropWhile_backticks, prefixb_app.
  change (skipn 3 (str "```" ++ ?r)) with r.
  rewrite (dropWhile_all isWord lang LF _ Hl eq_refl).
  rewrite eqc_refl, (lazyBody_fence body Hb). reflexivity.
Qed.

End Fence.

(* ================================================================== *)
(** ** The attributes of an action tag *)
(* ================================================================== *)

Section ActionTag.

Lemma isType_attributeIs (tag : jsstring) (name : string) :
  isType (extractAttribute tag "type") name = attributeIs tag "type" name.
Proof. reflexivity. Qed.

Lemma attributeIs_orEmpty (tag : jsstring) (name value : string) :
  truthy (extractAttribute tag name) = true ->
  eqs (orEmpty (extractAttribute tag name)) (str value) = attributeIs tag name value.
Proof.
  unfold attributeIs. destruct (extractAttribute tag name) as [[|c v]|];
    simpl; intros H; try discriminate; reflexivity.
Qed.

Lemma attributeIs_truthy (tag : jsstring) (name value : string) :
  value <> EmptyString ->
  attributeIs tag name value = true -> truthy (extractAttribute tag name) = true.
Proof.
  unfold attributeIs. intros Hv.
  destruct (extractAttribute tag name) as [[|c v]|]; simpl; try discriminate.
  - destruct value; [congruence | discriminate].
  - reflexivity.
Qed.

Lemma attributeIs_exclusive (tag : jsstring) (name v1 v2 : string) :
  eqs (str v1) (str v2) = false ->
  attributeIs tag name v1 = true -> attributeIs tag name v2 = false.
Proof.
  unfold attributeIs. destruct (extractAttribute tag name) as [v|]; [|discriminate].
  intros H E. apply eqs_eq in E. subst v. exact H.
Qed.

(** [parseActionTag] throws exactly on the tags that lack a required
    attribute. *)
Lemma parseActionTag_raises (input : jsstring) (o e : nat) :
  raises (parseActionTag input o e) = lacksRequired (slice input o (e + 1)).
Proof.
  unfold parseActionTag, lacksRequired.
  set (tag := slice input o (e + 1)).
  rewrite !isType_attributeIs. unfold absentOrEmpty.
  destruct (attributeIs tag "type" "supabase") eqn:T1.
  { rewrite (attributeIs_exclusive tag "type" "supabase" "navigation" eq_refl T1).
    rewrite (attributeIs_exclusive tag "type" "supabase" "screen" eq_refl T1).
    rewrite (attributeIs_exclusive tag "type" "supabase" "component" eq_refl T1).
    cbn [andb orb existsb].
    destruct (truthy (extractAttribute tag "operation")) eqn:Top; cbn [negb orb];
      [|reflexivity].
    rewrite !(attributeIs_orEmpty tag "operation" _ Top). rewrite orb_false_r.
    destruct (attributeIs tag "operation" "migration") eqn:Em; cbn [orb negb andb].
    - destruct (truthy (extractAttribute tag "filePath")); reflexivity.
    - destruct (attributeIs tag "operation" "query"); reflexivity. }
  destruct (attributeIs tag "type" "file") eqn:T2.
  { rewrite (attributeIs_exclusive tag "type" "file" "navigation" eq_refl T2).
    rewrite (attributeIs_exclusive tag "type" "file" "screen" eq_refl T2).
    rewrite (attributeIs_exclusive tag "type" "file" "component" eq_refl T2).
    reflexivity. }
  destruct (attributeIs tag "type" "screen") eqn:T3.
  { rewrite (attributeIs_exclusive tag "type" "screen" "navigation" eq_refl T3).
    rewrite (attributeIs_exclusive tag "type" "screen" "component" eq_refl T3).
    cbn [andb orb]. rewrite orb_false_r.
    match goal with |- context [if ?b then _ else _] => destruct b end; reflexivity. }
  destruct (attributeIs tag "type" "navigation") eqn:T4.
  { rewrite (attributeIs_exclusive tag "type" "navigation" "component" eq_refl T4).
    cbn [andb orb]. rewrite !orb_false_r.
    match goal with |- context [if ?b then _ else _] => destruct b end; reflexivity. }
  destruct (attributeIs tag "type" "component") eqn:T5.
  { cbn [andb orb]. rewrite orb_false_r.
    match goal with |- context [if ?b then _ else _] => destruct b end; reflexivity. }
  reflexivity.
Qed.

(** The text that [extractAttribute] returns holds no double quote. *)
Lemma untilQuote_no_quote (s v : jsstring) : untilQuote s = Some v -> ~ In dq v.
Proof.
  revert v; induction s as [|c s IH]; intros v; simpl; [discriminate|].
  destruct (eqc c dq) eqn:E.
  - intros [= <-]. intros [].
  - destruct (untilQuote s) as [w|]; [|discriminate].
    intros [= <-]. intros [H|H].
    + subst c. rewrite eqc_refl in E. discriminate.
    + exact (IH w eq_refl H).
Qed.

Lemma extractAttribute_no_quote (tag : jsstring) (name : string) (v : jsstring) :
  extractAttribute tag name = Some v -> ~ In dq v.
Proof.
  unfold extractAttribute. generalize (str name) as n.
  induction tag as [|c tag IH]; intros n; simpl.
  - unfold attrMatchAt. destruct (prefixci (n ++ ["="; dq]) []); [|discriminate].
    rewrite skipn_nil. discriminate.
  - destruct (attrMatchAt n (c :: tag)) as [w|] eqn:E.
    + intros [= <-]. unfold attrMatchAt in E.
      destruct (prefixci (n ++ ["="; dq]) (c :: tag)); [|discriminate].
      eapply untilQuote_no_quote; exact E.
    + apply IH.
Qed.

Lemma optionalJson_jsonAttribute (tag : jsstring) (name : string) :
  optionalJson (extractAttribute tag name) = jsonAttribute tag name.
Proof.
  unfold optionalJson, jsonAttribute.
  destruct (extractAttribute tag name) as [[|c v]|]; reflexivity.
Qed.

End ActionTag.

(* ================================================================== *)
(** ** The quick-actions block across calls *)
(* ================================================================== *)

(** What the loop does at the open marker of a quick-actions block whose
    close marker is not in the text, outside an artifact: control falls
    out of the quick-actions branch into the matching of the artifact
    marker, which flushes the six characters [<bolt-] to the output and
    moves on.  The rest of the marker follows, character by character. *)
Lemma quick_actions_open_without_close (artifactElement : option (jsstring -> jsstring))
  (callbacks : option ParserCallbacks.t)
  (messageId input : jsstring) (st : MessageState) (i : nat) :
  insideArtifact st = false ->
  startsWith BOLT_QUICK_ACTIONS_OPEN input i = true ->
  indexOf BOLT_QUICK_ACTIONS_CLOSE input i = None ->
  step artifactElement callbacks messageId input st i = Continue st (i + 6) (str "<bolt-") [].
Proof.
  intros Ha Hs Hc. unfold step, quickActionsBlock. rewrite Hs, Hc, Ha.
  unfold startsWith in Hs. apply prefixb_spec in Hs as [r Hr].
  change BOLT_QUICK_ACTIONS_OPEN with (str "<bolt" ++ "-" :: str "quick-actions>") in Hr.
  rewrite <- app_assoc in Hr. cbn [app] in Hr.
  destruct (skipn_cons_inv _ _ _ _ Hr) as [_ [H0 [H1 _]]].
  destruct (skipn_cons_inv _ _ _ _ H1) as [_ [H2 _]].
  rewrite H0, H2. simpl isChar. cbn [andb negb].
  unfold stepTag.
  change (length ARTIFACT_TAG_OPEN) with (length (str "<bolt" ++ "A" :: str "rtifact")).
  rewrite (tagScan_diverges input (str "<bolt") [] (str "rtifact") "A" "-"
             (str "quick-actions>" ++ r) i eq_refl ltac:(discriminate) Hr).
  change (i + length (str "<bolt") + 1) with (i + 5 + 1).
  replace (i + 5 + 1) with (i + 6) by lia.
  rewrite (slice_skipn input i 6 (str "<bolt-") (str "quick-actions>" ++ r) Hr eq_refl).
  reflexivity.
Qed.

(** C2.  The text is the open marker of a quick-actions block, with no
    close marker, passed to a parser that has not seen the message.  The
    claim has [parse] leave the cursor at 0, return no output and wait;
    the code returns the marker itself as output and stores the cursor 20,
    past it. *)
Theorem quick_actions_without_close_is_flushed :
  parse (freshParser None) m1 BOLT_QUICK_ACTIONS_OPEN
  = (mkParser None allCallbacks [(m1, mkState 20 false false None emptyAction 0)],
     [],
     Returns BOLT_QUICK_ACTIONS_OPEN).
Proof. vm_compute. reflexivity. Qed.

(** C1.  The text is the quick-actions block of the specification, split
    after its open marker.  The two calls on one state return the text
    itself, piece by piece; the single call on a fresh state returns the
    markup of the group of buttons. *)
Theorem resumption_fails_on_quick_actions :
  snd (feed (freshParser None) m1 [firstn 20 quickActionsText; quickActionsText])
  = Returns quickActionsText
  /\ snd (parse (freshParser None) m1 quickActionsText) = Returns quickActionsMarkup
  /\ quickActionsText <> quickActionsMarkup.
Proof.
  split; [vm_compute; reflexivity|].
  split; [vm_compute; reflexivity|].
  vm_compute. discriminate.
Qed.

(* ================================================================== *)
(** ** A file action without a path *)
(* ================================================================== *)

(** C3.  A file action without [filePath], with content and close tag,
    inside an artifact: the call makes the artifact-open and action-open
    callbacks, with [filePath] undefined, and then throws a [TypeError] on
    the close path, where it reads [filePath.endsWith]; no action-close
    callback is made. *)
Theorem file_without_path_throws :
  snd (parse (freshParser None) m1 fileWithoutPathText) = Throws TypeError
  /\ eventsOf (parse (freshParser None) m1 fileWithoutPathText)
     = [onArtifactOpen (mkArtifactData m1 a1);
        onActionOpen (mkActionData (Some (str "a1")) m1 (str "0")
                        (mkAction (FileAction None) []))].
Proof. split; vm_compute; reflexivity. Qed.

(** The same defect on the stream path: the content of the action has not
    reached its close tag yet. *)
Example file_without_path_throws_on_stream :
  snd (parse (freshParser None) m1
         (artifactOpenText ++ qstr "<boltAction type='file'>da"))
  = Throws TypeError.
Proof. vm_compute. reflexivity. Qed.

(** X30.  The two paths for every text: inside a file action whose path is
    undefined, a pass that is not taken by the quick-actions branch throws
    the [TypeError]. *)
Lemma file_without_path_always_throws (artifactElement : option (jsstring -> jsstring))
  (callbacks : option ParserCallbacks.t)
  (messageId input : jsstring) (st : MessageState) (a : BoltArtifactData)
  (i : nat) (c0 : jsstring) :
  insideArtifact st = true -> currentArtifact st = Some a -> insideAction st = true ->
  currentAction st = mkAction (FileAction None) c0 ->
  quickActionsBlock input i = None ->
  exists st', step artifactElement callbacks messageId input st i = Throw st' [] TypeError.
Proof.
  intros Ha Hc Hi Hact Hq. unfold step. rewrite Hq, Ha, Hc, Hi.
  unfold stepInsideAction. rewrite Hact. cbn [fields].
  destruct (indexOf ARTIFACT_ACTION_TAG_CLOSE input i); eauto.
Qed.

(* ================================================================== *)
(** ** Required attributes *)
(* ================================================================== *)

Lemma openAction_throws (callbacks : option ParserCallbacks.t) (messageId input : jsstring)
    (st : MessageState)
  (a : BoltArtifactData) (o e : nat) :
  indexOf [">"] input o = Some e ->
  (exists st' evs err, openAction callbacks messageId input st a o = Throw st' evs err)
  <-> raises (parseActionTag input o e) = true.
Proof.
  intros He. unfold openAction. rewrite He.
  destruct (parseActionTag input o e) as [act|err]; simpl; split.
  - intros [st' [evs [err H]]]. discriminate.
  - discriminate.
  - reflexivity.
  - intros _. eauto.
Qed.

(** C4, counterexample.  A screen tag that carries its three required
    attributes, [screenId] with the empty value: no attribute is missing
    from the tag, and [parse] throws. *)
Lemma empty_required_attribute_throws :
  lacksRequiredAbsent emptyScreenIdTag = false
  /\ snd (parse (freshParser None) m1 (artifactOpenText ++ emptyScreenIdTag))
     = Throws (Error (str "Screen action requires screenId, screenName, and screenType")).
Proof. split; vm_compute; reflexivity. Qed.

(** C4, amended.  The pass of [parse] that meets an action-open tag
    throws exactly when [lacksRequired] holds of the text of the tag,
    which runs from the marker at [o] to the first [>] after it, at [e].
    The text is read the way [extractAttribute] reads it: the value of a
    name is the text up to the next double quote, after the first place
    where the name, letters compared without case, is followed by an
    equals sign and a double quote, also at the end of a longer attribute
    name.  The
    pass throws when the value read for [type] is navigation, screen,
    component or supabase and the value read for a required attribute is
    [undefined] or empty: fromScreen, toScreen, trigger or navigationType
    for navigation; screenId, screenName or screenType for screen;
    componentName or componentType for component; for supabase the
    operation, which must also be migration or query, and filePath when
    the operation is migration.  It throws in no other case. *)
Theorem action_tag_throws_iff (callbacks : option ParserCallbacks.t) (messageId input :
    jsstring) (st : MessageState)
  (a : BoltArtifactData) (o e : nat) :
  indexOf [">"] input o = Some e ->
  (exists st' evs err, openAction callbacks messageId input st a o = Throw st' evs err)
  <-> lacksRequired (slice input o (e + 1)) = true.
Proof.
  intros He. rewrite (openAction_throws callbacks messageId input st a o e He).
  rewrite parseActionTag_raises. reflexivity.
Qed.

(** How the tag is read, on three tags.  [type] is found at the end of
    [componentType], written first: the type read is [shared], and the
    component tag without a name does not throw.  [screenType] is found at
    the end of [xscreenType]: the screen tag without a [screenType]
    attribute does not throw.  The tag ends at the first [>], here inside
    the value of [fromScreen]: nothing is read for it, and the navigation
    tag with its four attributes throws. *)
Example attributes_are_read_by_pattern :
  recordOf (qstr "<boltAction componentType='shared' type='component'>")
  = Ok (mkAction (OtherAction (Some (str "shared"))) [])
  /\ recordOf (qstr "<boltAction type='screen' screenId='s' screenName='n' xscreenType='page'>")
     = Ok (mkAction
             (ScreenAction (str "s") (str "n") (str "page") None None None None) [])
  /\ completionOf
       (parse (freshParser None) m1
          (artifactOpenText
           ++ qstr "<boltAction type='navigation' fromScreen='a>b' toScreen='c' trigger='t' navigationType='push'>"))
     = Throws
         (Error (str "Navigation action requires fromScreen, toScreen, trigger, and navigationType")).
Proof. repeat split; vm_compute; reflexivity. Qed.

Lemma action_tag_throws_iff_witness :
  indexOf [">"] emptyScreenIdTag 0 = Some 70
  /\ ((exists st' evs err,
         openAction allCallbacks m1 emptyScreenIdTag initialState a1 0 = Throw st' evs err)
      <-> lacksRequired (slice emptyScreenIdTag 0 (70 + 1)) = true).
Proof.
  split; [vm_compute; reflexivity|].
  apply (action_tag_throws_iff allCallbacks m1 emptyScreenIdTag initialState a1 0 70).
  vm_compute; reflexivity.
Defined.

(* ================================================================== *)
(** ** JSON attributes *)
(* ================================================================== *)

Section JsonAttributes.

Variable callbacks : option ParserCallbacks.t.
Variable messageId : jsstring.

Lemma parseActionTag_screen (input : jsstring) (o e : nat) :
  let tag := slice input o (e + 1) in
  attributeIs tag "type" "screen" = true ->
  lacksRequired tag = false ->
  parseActionTag input o e =
  Ok (mkAction
        (ScreenAction
           (orEmpty (extractAttribute tag "screenId"))
           (orEmpty (extractAttribute tag "screenName"))
           (orEmpty (extractAttribute tag "screenType"))
           (extractAttribute tag "parentScreen")
           (extractAttribute tag "navigationTrigger")
           (optionalList (extractAttribute tag "dependencies"))
           (jsonAttribute tag "props")) []).
Proof.
  intros tag T H0. pose proof (parseActionTag_raises input o e) as H.
  fold tag in H. rewrite H0 in H. clear H0.
  unfold parseActionTag in *. fold tag in H |- *.
  rewrite !isType_attributeIs in *.
  rewrite (attributeIs_exclusive tag "type" "screen" "supabase" eq_refl T) in *.
  rewrite (attributeIs_exclusive tag "type" "screen" "file" eq_refl T) in *.
  rewrite T in *.
  match goal with |- context [if ?b then _ else _] => destruct b end;
    [discriminate H|].
  rewrite optionalJson_jsonAttribute. reflexivity.
Qed.

Lemma parseActionTag_navigation (input : jsstring) (o e : nat) :
  let tag := slice input o (e + 1) in
  attributeIs tag "type" "navigation" = true ->
  lacksRequired tag = false ->
  parseActionTag input o e =
  Ok (mkAction
        (NavigationAction
           (orEmpty (extractAttribute tag "fromScreen"))
           (orEmpty (extractAttribute tag "toScreen"))
           (orEmpty (extractAttribute tag "trigger"))
           (orEmpty (extractAttribute tag "navigationType"))
           (jsonAttribute tag "params")) []).
Proof.
  intros tag T H0. pose proof (parseActionTag_raises input o e) as H.
  fold tag in H. rewrite H0 in H. clear H0.
  unfold parseActionTag in *. fold tag in H |- *.
  rewrite !isType_attributeIs in *.
  rewrite (attributeIs_exclusive tag "type" "navigation" "supabase" eq_refl T) in *.
  rewrite (attributeIs_exclusive tag "type" "navigation" "file" eq_refl T) in *.
  rewrite (attributeIs_exclusive tag "type" "navigation" "screen" eq_refl T) in *.
  rewrite T in *.
  match goal with |- context [if ?b then _ else _] => destruct b end;
    [discriminate H|].
  rewrite optionalJson_jsonAttribute. reflexivity.
Qed.

(** C7, counterexample.  The screen tag of the claim, with
    [props] written as the JSON text of [{a:1}] with escaped quotes:
    [extractAttribute] cuts the value at the first inner quote, the text
    [{\] is not JSON, and the record of the action-open callback has no
    [props], while [JSON.parse] of the whole text gives the object. *)
Lemma escaped_json_props_are_dropped :
  JSON.parse (qstr "{'a':1}")
  = Some (JSON.JObject [([97%N], JSON.JNumber (str "1"))])
  /\ extractAttribute screenPropsTag "props" = Some (str "{\")
  /\ eventsOf (parse (freshParser None) m1 (artifactOpenText ++ screenPropsTag))
     = [onArtifactOpen (mkArtifactData m1 a1);
        onActionOpen
          (mkActionData (Some (str "a1")) m1 (str "0")
             (mkAction
                (ScreenAction (str "s") (str "n") (str "page") None None None None)
                []))].
Proof. repeat split; vm_compute; reflexivity. Qed.

(** C7, amended.  For an action tag from [o] to its [>] at [e] that lacks
    no required attribute, the pass does not throw and makes the
    action-open callback (one call, when the options hold the callback);
    the record of a screen tag has as [props], and
    the record of a navigation tag as [params], what [JSON.parse] makes of
    the text of the attribute, which runs up to the next double quote and
    so holds none; the field is absent when that text is not JSON or the
    attribute is absent. *)
Theorem json_attribute_of_action_open (input : jsstring) (st : MessageState)
  (a : BoltArtifactData) (o e : nat) :
  indexOf [">"] input o = Some e ->
  lacksRequired (slice input o (e + 1)) = false ->
  (exists st' act,
     openAction callbacks messageId input st a o
     = Continue st' (e + 1) []
         (callback callbacks
            (onActionOpen
               (mkActionData (id a) messageId (String_of_Z (actionId st)) act)))
     /\ (attributeIs (slice input o (e + 1)) "type" "screen" = true ->
         exists sid sname stype parent trigger deps,
           fields act = ScreenAction sid sname stype parent trigger deps
                          (jsonAttribute (slice input o (e + 1)) "props"))
     /\ (attributeIs (slice input o (e + 1)) "type" "navigation" = true ->
         exists from to trigger ntype,
           fields act = NavigationAction from to trigger ntype
                          (jsonAttribute (slice input o (e + 1)) "params")))
  /\ (forall name v,
        extractAttribute (slice input o (e + 1)) name = Some v -> ~ In dq v).
Proof.
  intros He H. split; [|intros name v; apply extractAttribute_no_quote].
  unfold openAction. rewrite He.
  pose proof (parseActionTag_raises input o e) as Hr. rewrite H in Hr.
  destruct (parseActionTag input o e) as [act|err] eqn:E; [|discriminate Hr].
  eexists; exists act. split; [reflexivity|]. split; intros T.
  - rewrite (parseActionTag_screen input o e T H) in E. injection E as <-.
    simpl. repeat eexists.
  - rewrite (parseActionTag_navigation input o e T H) in E. injection E as <-.
    simpl. repeat eexists.
Qed.

End JsonAttributes.

Lemma json_attribute_of_action_open_witness :
  indexOf [">"] screenArrayTag 0 = Some 85
  /\ lacksRequired (slice screenArrayTag 0 (85 + 1)) = false
  /\ jsonAttribute (slice screenArrayTag 0 (85 + 1)) "props"
     = Some (JSON.JArray [JSON.JNumber (str "1"); JSON.JNumber (str "2")])
  /\ (exists st' act,
        openAction allCallbacks m1 screenArrayTag initialState a1 0
        = Continue st' (85 + 1) []
            [onActionOpen
               (mkActionData (id a1) m1 (String_of_Z (actionId initialState)) act)]
        /\ (attributeIs (slice screenArrayTag 0 (85 + 1)) "type" "screen" = true ->
            exists sid sname stype parent trigger deps,
              fields act = ScreenAction sid sname stype parent trigger deps
                             (jsonAttribute (slice screenArrayTag 0 (85 + 1)) "props"))
        /\ (attributeIs (slice screenArrayTag 0 (85 + 1)) "type" "navigation" = true ->
            exists from to trigger ntype,
              fields act = NavigationAction from to trigger ntype
                             (jsonAttribute (slice screenArrayTag 0 (85 + 1)) "params"))).
Proof.
  split; [vm_compute; reflexivity|].
  split; [vm_compute; reflexivity|].
  split; [vm_compute; reflexivity|].
  apply (json_attribute_of_action_open allCallbacks m1 screenArrayTag initialState a1 0 85).
  - vm_compute; reflexivity.
  - vm_compute; reflexivity.
Defined.

(* ================================================================== *)
(** ** File content on close, callbacks, lookalikes *)
(* ================================================================== *)

(** The two texts of the claim through whole calls of [parse]: the fence
    for [a.ts] closes with the body and a line feed, the fence for [a.md]
    with the fence and a line feed; escaped angle brackets are restored
    for the first only. *)
Example fenced_file_examples :
  eventsOf (parse (freshParser None) m1 (fencedFileText "a.ts"))
  = [onArtifactOpen (mkArtifactData m1 a1);
     onActionOpen (mkActionData (Some (str "a1")) m1 (str "0")
                     (mkAction (FileAction (Some (str "a.ts"))) []));
     onActionClose (mkActionData (Some (str "a1")) m1 (str "0")
                      (mkAction (FileAction (Some (str "a.ts")))
                         (str "const x=1;" ++ [LF])))]
  /\ eventsOf (parse (freshParser None) m1 (fencedFileText "a.md"))
     = [onArtifactOpen (mkArtifactData m1 a1);
        onActionOpen (mkActionData (Some (str "a1")) m1 (str "0")
                        (mkAction (FileAction (Some (str "a.md"))) []));
        onActionClose (mkActionData (Some (str "a1")) m1 (str "0")
                         (mkAction (FileAction (Some (str "a.md")))
                            (fence (str "ts") (str "const x=1;") ++ [LF])))]
  /\ cleanEscapedTags (str "a &lt; b &gt; c") = str "a < b > c".
Proof. repeat split; vm_compute; reflexivity. Qed.

(** A body with a blank tail: the lazy group of the pattern stops at the
    first line feed after which only white space precedes the closing
    fence, so the blank lines at the end of the body are not kept. *)
Example fence_blank_tail :
  cleanoutMarkdownSyntax (fence [] (str "x" ++ [LF])) = str "x".
Proof. vm_compute. reflexivity. Qed.

(** The identifiers where they hold: on a new parser whose options hold
    all five callbacks, for any texts passed one after the other for one
    message, up to and with the first call that throws, the action-open
    callbacks carry the decimal strings of 0, 1, 2, ... in order, every
    action-stream and action-close callback carries the identifier of the
    last action opened before it, and no two action-open callbacks carry
    the same identifier. *)
Theorem action_ids_are_sequential (artifactElement : option (jsstring -> jsstring))
  (messageId : jsstring) (inputs : list jsstring) :
  actionIds 0 None (eventsOf (feed (freshParser artifactElement) messageId inputs)) = true
  /\ NoDup (openIds (eventsOf (feed (freshParser artifactElement) messageId inputs))).
Proof.
  destruct (feed_fresh_trace artifactElement messageId inputs) as [s' Ht].
  assert (actionIds 0 None
            (eventsOf (feed (freshParser artifactElement) messageId inputs)) = true) as H.
  { apply (actionIds_current_irrelevant messageId (Outside, 0%Z) s' _ None Ht).
    discriminate. }
  split; [exact H | eapply actionIds_NoDup; exact H].
Qed.

(** The order where it holds: on a new parser whose options hold all
    five callbacks, for any texts passed one after the other for one
    message, up to and with the first call that throws, the callbacks
    come in document order: an artifact opens outside any artifact; an
    action opens inside an artifact and outside any action; stream and
    close callbacks come inside the action that is open; an artifact
    closes outside any action; and the callbacks of an action carry the
    identifier of the artifact that is open. *)
Theorem callbacks_in_document_order (artifactElement : option (jsstring -> jsstring))
  (messageId : jsstring) (inputs : list jsstring) :
  documentOrder AtTop (eventsOf (feed (freshParser artifactElement) messageId inputs))
  = true.
Proof.
  destruct (feed_fresh_trace artifactElement messageId inputs) as [s' Ht].
  exact (trace_documentOrder messageId (Outside, 0%Z) s' _ Ht).
Qed.

(** The scenario of the specification, in two calls split inside the
    content of the action. *)
Example ordering_scenario :
  eventsOf (feed (freshParser None) m1
              [artifactOpenText ++ qstr "<boltAction type='shell'>echo";
               artifactOpenText
               ++ qstr "<boltAction type='shell'>echo hi</boltAction></boltArtifact>"])
  = [onArtifactOpen (mkArtifactData m1 a1);
     onActionOpen (mkActionData (Some (str "a1")) m1 (str "0")
                     (mkAction (OtherAction (Some (str "shell"))) []));
     onActionClose (mkActionData (Some (str "a1")) m1 (str "0")
                      (mkAction (OtherAction (Some (str "shell"))) (str "echo hi")));
     onArtifactClose (mkArtifactData m1 a1)].
Proof. vm_compute. reflexivity. Qed.

(** C8.  The identifiers are not kept on two inputs.  With options that
    hold [onActionClose] and no [onActionOpen], the increment, which
    stands in the argument of the call of [onActionOpen], is never
    evaluated: the close callbacks of the two actions of a document both
    carry [-1], and the counter of the message is still 0 after the call.
    With all five callbacks, a call that throws at a malformed action tag
    has set [insideAction] and not moved the cursor: the call on the grown
    text makes an action-close callback with the identifier [0] of the
    action that the first call had opened and closed, for a record without
    type whose content is the text from the start, and throws again. *)
Theorem action_ids_are_not_kept :
  parse (mkParser None closeOnly []) m1 twoActionsText
  = (mkParser None closeOnly [(m1, mkState 140 false false None emptyAction 0)],
     [onActionClose
        (mkActionData (Some (str "a1")) m1 (str "-1")
           (mkAction (OtherAction (Some (str "shell"))) (str "a")));
      onActionClose
        (mkActionData (Some (str "a1")) m1 (str "-1")
           (mkAction (OtherAction (Some (str "shell"))) (str "b")))],
     Returns (createArtifactElement m1))
  /\ parse (freshParser None) m1 shellThenComponentText
     = (mkParser None allCallbacks
          [(m1, mkState 0 true true (Some a1) emptyAction 1)],
        [onArtifactOpen (mkArtifactData m1 a1);
         onActionOpen
           (mkActionData (Some (str "a1")) m1 (str "0")
              (mkAction (OtherAction (Some (str "shell"))) []));
         onActionClose
           (mkActionData (Some (str "a1")) m1 (str "0")
              (mkAction (OtherAction (Some (str "shell"))) (str "ls")))],
        Throws componentError)
  /\ parse (parserOf (parse (freshParser None) m1 shellThenComponentText)) m1
       (shellThenComponentText ++ str "x")
     = (mkParser None allCallbacks
          [(m1, mkState 0 true true (Some a1) emptyAction 1)],
        [onActionClose
           (mkActionData (Some (str "a1")) m1 (str "0")
              (mkAction Untyped
                 (artifactOpenText ++ qstr "<boltAction type='shell'>ls")))],
        Throws componentError).
Proof. repeat split; vm_compute; reflexivity. Qed.

(** C9.  The callbacks leave the document order on two calls with a
    growing text, on a parser with all five callbacks.  The first text
    ends with a component tag without attributes: the call makes the
    artifact-open callback and throws, with [insideAction] set and the
    cursor still at 0.  The call on the grown text takes the text from
    the start as the content of an action: it makes an action-close
    callback, with the identifier [-1] and a record without type, for an
    action that no callback opened, and then the artifact-close
    callback. *)
Theorem action_close_without_open :
  parse (freshParser None) m1 componentTagText
  = (mkParser None allCallbacks
       [(m1, mkState 0 true true (Some a1) emptyAction 0)],
     [onArtifactOpen (mkArtifactData m1 a1)],
     Throws componentError)
  /\ eventsOf (parse (parserOf (parse (freshParser None) m1 componentTagText)) m1
                 componentTagGrown)
     = [onActionClose
          (mkActionData (Some (str "a1")) m1 (str "-1")
             (mkAction Untyped (componentTagText ++ str "x")));
        onArtifactClose (mkArtifactData m1 a1)]
  /\ documentOrder AtTop
       (eventsOf (parse (freshParser None) m1 componentTagText)
        ++ eventsOf (parse (parserOf (parse (freshParser None) m1 componentTagText)) m1
                       componentTagGrown))
     = false.
Proof. repeat split; vm_compute; reflexivity. Qed.

Lemma prefix_of_marker_head (m : jsstring) :
  m <> [] -> prefixb m ARTIFACT_TAG_OPEN = true ->
  exists m', m = "<" :: m' /\ (m' = [] \/ exists m'', m' = "b" :: m'').
Proof.
  intros Hm Hp. destruct m as [|x m]; [congruence|].
  change ARTIFACT_TAG_OPEN with ("<" :: "b" :: str "oltArtifact") in Hp.
  cbn [prefixb] in Hp. apply andb_true_iff in Hp as [Hx Hp].
  apply eqc_eq in Hx. subst x. exists m. split; [reflexivity|].
  destruct m as [|y m]; [left; reflexivity|].
  apply andb_true_iff in Hp as [Hy _]. apply eqc_eq in Hy. subst y.
  right. exists m. reflexivity.
Qed.

(** C10.  Outside any artifact, where the text at [i] follows the marker
    [<boltArtifact] on a non-empty part [m] and goes on with a character
    [c], the pass of [parse] at [i] copies the text to the output, leaves
    the state as it is (no artifact opens) and makes no callback, in two
    cases: [m] is the whole marker and [c] is neither [>] nor a space, and
    the thirteen characters of the marker are copied; or [m] with [c] is
    no beginning of the marker (and the text is not a closing tag, nor a
    quick-actions block with its close marker), and [m] with [c] is
    copied. *)
Theorem lookalike_is_passed_through (artifactElement : option (jsstring -> jsstring))
  (callbacks : option ParserCallbacks.t)
  (messageId input : jsstring) (st : MessageState) (i : nat)
  (m : jsstring) (c : ascii) (rest : jsstring) :
  insideArtifact st = false ->
  skipn i input = m ++ c :: rest ->
  m <> [] ->
  prefixb m ARTIFACT_TAG_OPEN = true ->
  (if eqs m ARTIFACT_TAG_OPEN
   then c <> ">" /\ c <> " "
   else prefixb (m ++ [c]) ARTIFACT_TAG_OPEN = false
        /\ (m = ["<"] -> c <> "/")
        /\ quickActionsBlock input i = None) ->
  step artifactElement callbacks messageId input st i
  = Continue st
      (i + length (if eqs m ARTIFACT_TAG_OPEN then m else m ++ [c]))
      (if eqs m ARTIFACT_TAG_OPEN then m else m ++ [c])
      [].
Proof.
  intros Ha Hs Hm Hp Hcase.
  destruct (prefix_of_marker_head m Hm Hp) as [m' [Em Hm']].
  assert (isChar (charAt input i) "<" && negb (isChar (charAt input (i + 1)) "/") = true)
    as Hlt.
  { rewrite Em in Hs. cbn [app] in Hs.
    destruct (skipn_cons_inv _ _ _ _ Hs) as [_ [H0 [H1 _]]]. rewrite H0.
    destruct Hm' as [->|[m'' ->]]; cbn [app] in H1;
      destruct (skipn_cons_inv _ _ _ _ H1) as [_ [H2 _]]; rewrite H2; simpl.
    - destruct (eqs m ARTIFACT_TAG_OPEN) eqn:E.
      + apply eqs_eq in E. rewrite E in Em. discriminate Em.
      + destruct Hcase as [_ [Hc _]]. rewrite (eqc_neq _ _ (Hc Em)). reflexivity.
    - reflexivity. }
  destruct (eqs m ARTIFACT_TAG_OPEN) eqn:E.
  - apply eqs_eq in E. subst m. destruct Hcase as [Hc1 Hc2].
    assert (quickActionsBlock input i = None) as Hq.
    { unfold quickActionsBlock, startsWith. rewrite Hs. reflexivity. }
    unfold step. rewrite Hq, Ha, Hlt. unfold stepTag.
    rewrite (tagScan_lookalike input ARTIFACT_TAG_OPEN [] c rest i
               ltac:(discriminate) eq_refl Hc1 Hc2 Hs).
    change (length ARTIFACT_TAG_OPEN) with 13.
    replace (i + 13 - 1 + 1) with (i + 13) by lia.
    rewrite (slice_skipn input i 13 ARTIFACT_TAG_OPEN (c :: rest) Hs eq_refl).
    reflexivity.
  - destruct Hcase as [Hn [_ Hq]].
    apply prefixb_spec in Hp as [r Hr].
    destruct r as [|d q].
    { rewrite app_nil_r in Hr. rewrite Hr, eqs_refl in E. discriminate E. }
    assert (c <> d) as Hcd.
    { intros ->. rewrite Hr in Hn.
      replace (m ++ d :: q) with ((m ++ [d]) ++ q) in Hn
        by (rewrite <- app_assoc; reflexivity).
      rewrite prefixb_app in Hn. discriminate Hn. }
    unfold step. rewrite Hq, Ha, Hlt. unfold stepTag.
    rewrite Hr.
    rewrite (tagScan_diverges input m [] q d c rest i (eq_sym Hr) Hcd Hs).
    replace (i + length m + 1) with (i + length (m ++ [c]))
      by (rewrite length_app; simpl; lia).
    assert (skipn i input = (m ++ [c]) ++ rest) as Hs'
      by (rewrite <- app_assoc; exact Hs).
    rewrite (slice_skipn input i (length (m ++ [c])) (m ++ [c]) rest Hs' eq_refl).
    reflexivity.
Qed.

Lemma lookalike_is_passed_through_witness :
  step None allCallbacks m1 lookalikeText initialState 0
  = Continue initialState (0 + 13) ARTIFACT_TAG_OPEN [].
Proof.
  apply (lookalike_is_passed_through None allCallbacks m1 lookalikeText initialState 0
           ARTIFACT_TAG_OPEN "X" (qstr " attr='v'>")).
  - reflexivity.
  - reflexivity.
  - discriminate.
  - reflexivity.
  - split; discriminate.
Defined.

(** The lookalike of the claim and a text that leaves the marker partway,
    through whole calls of [parse]: the output is the text, no callback is
    made, and the state is outside any artifact. *)
Example lookalike_examples :
  parse (freshParser None) m1 lookalikeText
  = (mkParser None allCallbacks [(m1, mkState 24 false false None emptyAction 0)],
     [], Returns lookalikeText)
  /\ parse (freshParser None) m1 (qstr "<boltArt id='x'>")
     = (mkParser None allCallbacks [(m1, mkState 16 false false None emptyAction 0)],
        [], Returns (qstr "<boltArt id='x'>")).
Proof. split; vm_compute; reflexivity. Qed.

(* ================================================================== *)
(** ** JSON.parse never runs out of fuel *)
(* ================================================================== *)

Module JSONFacts.
Import JSON.

Lemma dropWhile_length (f : ascii -> bool) (s : jsstring) :
  length (dropWhile f s) <= length s.
Proof.
  induction s as [|c s IH]; simpl; [lia|].
  destruct (f c); simpl; lia.
Qed.

Lemma skipWs_length (s : jsstring) : length (skipWs s) <= length s.
Proof. apply dropWhile_length. Qed.

Lemma span_length (f : ascii -> bool) (s a r : jsstring) :
  span f s = (a, r) -> length r <= length s.
Proof.
  revert a r; induction s as [|c s IH]; intros a r; simpl.
  - intros [= <- <-]. simpl; lia.
  - destruct (f c).
    + destruct (span f s) as [a' r'] eqn:E. intros [= <- <-].
      specialize (IH a' r' eq_refl). lia.
    + intros [= <- <-]. simpl; lia.
Qed.

Lemma digits1_length (s ds r : jsstring) :
  digits1 s = Some (ds, r) -> length r <= length s.
Proof.
  unfold digits1. destruct (span isDigit s) as [a r'] eqn:E.
  destruct a; [discriminate|]. intros [= <- <-].
  eapply span_length; exact E.
Qed.

Lemma intPart_length (s ip r : jsstring) :
  intPart s = Some (ip, r) -> length r < length s.
Proof.
  unfold intPart. destruct s as [|c s]; [discriminate|].
  destruct (eqc c "0").
  - intros [= <- <-]. simpl; lia.
  - destruct (isDigit c); [|discriminate].
    destruct (span isDigit s) as [ds r'] eqn:E. intros [= <- <-].
    apply span_length in E. simpl; lia.
Qed.

Lemma fracPart_length (s fp r : jsstring) :
  fracPart s = Some (fp, r) -> length r <= length s.
Proof.
  unfold fracPart. destruct s as [|c s]; [intros [= <- <-]; lia|].
  destruct (eqc c ".").
  - destruct (digits1 s) as [[ds r']|] eqn:E; [|discriminate].
    intros [= <- <-]. apply digits1_length in E. simpl; lia.
  - intros [= <- <-]. lia.
Qed.

Lemma expPart_length (s ep r : jsstring) :
  expPart s = Some (ep, r) -> length r <= length s.
Proof.
  unfold expPart. destruct s as [|e s]; [intros [= <- <-]; lia|].
  destruct (eqc e "e" || eqc e "E").
  - assert (forall sg r1,
              match s with
              | c :: r0 => if eqc c "+" || eqc c "-" then ([c], r0) else ([], s)
              | [] => ([], s)
              end = (sg, r1) -> length r1 <= length s) as H.
    { intros sg r1. destruct s as [|c r0]; [intros [= <- <-]; lia|].
      destruct (eqc c "+" || eqc c "-"); intros [= <- <-]; simpl; lia. }
    destruct (match s with
              | c :: r0 => if eqc c "+" || eqc c "-" then ([c], r0) else ([], s)
              | [] => ([], s)
              end) as [sg r1] eqn:E.
    specialize (H sg r1 eq_refl).
    destruct (digits1 r1) as [[ds r']|] eqn:E1; [|discriminate].
    intros [= <- <-]. apply digits1_length in E1. simpl; lia.
  - intros [= <- <-]. lia.
Qed.

Lemma parseNumber_spec (s : jsstring) :
  match parseNumber s with
  | POk _ r => length r < length s
  | PErr => True
  | PFuel => False
  end.
Proof.
  unfold parseNumber.
  assert (forall sign s1,
            match s with
            | c :: r => if eqc c "-" then ([c], r) else ([], s)
            | [] => ([], s)
            end = (sign, s1) -> length s1 <= length s) as H.
  { intros sign s1. destruct s as [|c r]; [intros [= <- <-]; lia|].
    destruct (eqc c "-"); intros [= <- <-]; simpl; lia. }
  destruct (match s with
            | c :: r => if eqc c "-" then ([c], r) else ([], s)
            | [] => ([], s)
            end) as [sign s1].
  specialize (H sign s1 eq_refl).
  destruct (intPart s1) as [[ip s2]|] eqn:E1; [|exact I].
  destruct (fracPart s2) as [[fp s3]|] eqn:E2; [|exact I].
  destruct (expPart s3) as [[ep s4]|] eqn:E3; [|exact I].
  apply intPart_length in E1. apply fracPart_length in E2.
  apply expPart_length in E3. lia.
Qed.

Lemma parseString_spec (n : nat) :
  forall s, length s <= n ->
  match parseString s with
  | POk _ r => length r < length s
  | PErr => True
  | PFuel => False
  end.
Proof.
  induction n as [|n IH]; intros s Hn.
  - destruct s; [exact I | simpl in Hn; lia].
  - destruct s as [|c r]; [exact I|]. cbn [parseString].
    destruct (eqc c dq); [simpl; lia|].
    destruct (eqc c "\").
    + destruct r as [|e r']; [exact I|].
      destruct (eqc e "u").
      * destruct r' as [|h3 [|h2 [|h1 [|h0 r'']]]]; try exact I.
        destruct (hex4 h3 h2 h1 h0); [|exact I].
        specialize (IH r''). simpl in Hn.
        destruct (parseString r''); simpl in *; try exact I; [|apply IH; lia].
        assert (length rest < length r'') by (apply IH; lia). lia.
      * destruct (escapeUnit e); [|exact I].
        specialize (IH r'). simpl in Hn.
        destruct (parseString r'); simpl in *; try exact I; [|apply IH; lia].
        assert (length rest < length r') by (apply IH; lia). lia.
    + destruct (nat_of_ascii c <? 32); [exact I|].
      specialize (IH r). simpl in Hn.
      destruct (parseString r); simpl in *; try exact I; [|apply IH; lia].
      assert (length rest < length r) by (apply IH; lia). lia.
Qed.

Lemma pmap_shorter {A B : Type} (f : A -> B) (x : presult A) (s : jsstring) :
  shorter x s -> shorter (pmap f x) s.
Proof. destruct x; exact (fun H => H). Qed.

Lemma pmap_fueled {A B : Type} (f : A -> B) (x : presult A) :
  fueled x -> fueled (pmap f x).
Proof. destruct x; exact (fun H => H). Qed.

Lemma parseString_shorter (s : jsstring) : shorter (parseString s) s.
Proof.
  pose proof (parseString_spec (length s) s (le_n _)) as H.
  destruct (parseString s); simpl; auto.
Qed.

Lemma parseString_fueled (s : jsstring) : fueled (parseString s).
Proof.
  pose proof (parseString_spec (length s) s (le_n _)) as H.
  destruct (parseString s); simpl; auto.
Qed.

Lemma parseNumber_shorter (s : jsstring) : shorter (parseNumber s) s.
Proof. pose proof (parseNumber_spec s) as H. destruct (parseNumber s); simpl; auto. Qed.

Lemma parseNumber_fueled (s : jsstring) : fueled (parseNumber s).
Proof. pose proof (parseNumber_spec s) as H. destruct (parseNumber s); simpl; auto. Qed.

(** A value, an element list and a member list consume characters, and
    fuel for twice the text is enough for them. *)
Lemma descent_spec (fuel : nat) :
  forall s,
  (shorter (parseValue fuel s) s
   /\ (2 * length s + 1 <= fuel -> fueled (parseValue fuel s)))
  /\ (forall acc, shorter (parseElements fuel s acc) s
                  /\ (2 * length s + 2 <= fuel -> fueled (parseElements fuel s acc)))
  /\ (forall acc, shorter (parseMembers fuel s acc) s
                  /\ (2 * length s + 2 <= fuel -> fueled (parseMembers fuel s acc))).
Proof.
  induction fuel as [|f IH]; intros s.
  { repeat split; simpl; try exact I; lia. }
  split; [|split].
  - cbn [parseValue]. destruct s as [|c r]; [split; [exact I | intros _; exact I]|].
    destruct (eqc c "n").
    { destruct (prefixb (str "null") (c :: r)) eqn:E; [|split; [exact I | intros _; exact I]].
      apply prefixb_length in E. split; [|intros _; exact I].
      unfold shorter. rewrite length_skipn. simpl in *. lia. }
    destruct (eqc c "t").
    { destruct (prefixb (str "true") (c :: r)) eqn:E; [|split; [exact I | intros _; exact I]].
      apply prefixb_length in E. split; [|intros _; exact I].
      unfold shorter. rewrite length_skipn. simpl in *. lia. }
    destruct (eqc c "f").
    { destruct (prefixb (str "false") (c :: r)) eqn:E; [|split; [exact I | intros _; exact I]].
      apply prefixb_length in E. split; [|intros _; exact I].
      unfold shorter. rewrite length_skipn. simpl in *. lia. }
    destruct (eqc c dq).
    { split; [|intros _; apply pmap_fueled, parseString_fueled].
      apply pmap_shorter. pose proof (parseString_shorter r) as H.
      destruct (parseString r); simpl in *; auto. }
    destruct (eqc c "[").
    { pose proof (skipWs_length r) as Hw.
      destruct (skipWs r) as [|c1 r'] eqn:E; [split; [exact I | intros _; exact I]|].
      destruct (eqc c1 "]"); [split; [simpl in *; lia | intros _; exact I]|].
      destruct (IH (c1 :: r')) as [_ [He _]]. destruct (He []) as [H1 H2].
      split.
      - destruct (parseElements f (c1 :: r') []); simpl in *; auto. lia.
      - intros Hf. apply H2. simpl in *. lia. }
    destruct (eqc c "{").
    { pose proof (skipWs_length r) as Hw.
      destruct (skipWs r) as [|c1 r'] eqn:E; [split; [exact I | intros _; exact I]|].
      destruct (eqc c1 "}"); [split; [simpl in *; lia | intros _; exact I]|].
      destruct (IH (c1 :: r')) as [_ [_ Hm]]. destruct (Hm []) as [H1 H2].
      split.
      - destruct (parseMembers f (c1 :: r') []); simpl in *; auto. lia.
      - intros Hf. apply H2. simpl in *. lia. }
    split; [apply pmap_shorter, parseNumber_shorter
           | intros _; apply pmap_fueled, parseNumber_fueled].
  - intros acc. cbn [parseElements].
    destruct (IH s) as [[Hv1 Hv2] _].
    destruct (parseValue f s) as [v r| |] eqn:Ev.
    + simpl in Hv1. pose proof (skipWs_length r) as Hw.
      destruct (skipWs r) as [|c r'] eqn:E; [split; [exact I | intros _; exact I]|].
      destruct (eqc c ",").
      * pose proof (skipWs_length r') as Hw'.
        destruct (IH (skipWs r')) as [_ [He _]]. destruct (He (acc ++ [v])) as [H1 H2].
        split.
        -- destruct (parseElements f (skipWs r') (acc ++ [v])); simpl in *; auto. lia.
        -- intros Hf. apply H2. simpl in *. lia.
      * destruct (eqc c "]"); split; simpl in *; auto; lia.
    + split; [exact I | intros _; exact I].
    + split; [exact I|]. intros Hf. apply Hv2. lia.
  - intros acc. cbn [parseMembers].
    destruct s as [|c r]; [split; [exact I | intros _; exact I]|].
    destruct (eqc c dq); [|split; [exact I | intros _; exact I]].
    pose proof (parseString_shorter r) as Hs.
    pose proof (parseString_fueled r) as Hsf.
    destruct (parseString r) as [key r1| |]; simpl in Hs, Hsf;
      [|split; [exact I | intros _; exact I] | contradiction].
    pose proof (skipWs_length r1) as Hw1.
    destruct (skipWs r1) as [|c1 r2]; [split; [exact I | intros _; exact I]|].
    destruct (eqc c1 ":"); [|split; [exact I | intros _; exact I]].
    pose proof (skipWs_length r2) as Hw2.
    destruct (IH (skipWs r2)) as [[Hv1 Hv2] _].
    destruct (parseValue f (skipWs r2)) as [v r3| |] eqn:Ev.
    + simpl in Hv1. pose proof (skipWs_length r3) as Hw3.
      destruct (skipWs r3) as [|c2 r'] eqn:E; [split; [exact I | intros _; exact I]|].
      destruct (eqc c2 ",").
      * pose proof (skipWs_length r') as Hw'.
        destruct (IH (skipWs r')) as [_ [_ Hm]].
        destruct (Hm (acc ++ [(key, v)])) as [H1 H2].
        split.
        -- destruct (parseMembers f (skipWs r') (acc ++ [(key, v)])); simpl in *; auto. lia.
        -- intros Hf. apply H2. simpl in *. lia.
      * destruct (eqc c2 "}"); split; simpl in *; auto; lia.
    + split; [exact I | intros _; exact I].
    + split; [exact I|]. intros Hf. apply Hv2. simpl in *. lia.
Qed.

(** [JSON.parse] returns a value or throws: the descent has the fuel it
    needs. *)
Lemma parse_fuel (text : jsstring) : parseResult text <> PFuel.
Proof.
  unfold parseResult.
  destruct (descent_spec (2 * length text + 1) (skipWs text)) as [[_ H] _].
  pose proof (skipWs_length text) as Hw.
  destruct (parseValue (2 * length text + 1) (skipWs text)) as [v r| |].
  - destruct (skipWs r); discriminate.
  - discriminate.
  - exfalso. apply H. lia.
Qed.

End JSONFacts.

(* ================================================================== *)
(** ** A call reads the text from the cursor on *)
(* ================================================================== *)

Section Locality.

Variable artifactElement : option (jsstring -> jsstring).
Variable callbacks : option ParserCallbacks.t.
Variable messageId : jsstring.

(** Two texts of one length that are equal from the position [p] on. *)
Variables (s1 s2 : jsstring) (p : nat).
Hypothesis same_length : length s1 = length s2.
Hypothesis same_from_p : skipn p s1 = skipn p s2.

Lemma skipn_agree (j : nat) : p <= j -> skipn j s1 = skipn j s2.
Proof.
  intros H. replace j with ((j - p) + p) by lia.
  rewrite <- !skipn_skipn, same_from_p. reflexivity.
Qed.

Lemma charAt_skipn (s : jsstring) (j : nat) : charAt s j = hd_error (skipn j s).
Proof.
  unfold charAt. revert j; induction s as [|c s IH]; intros [|j]; simpl; auto.
Qed.

Lemma nth_skipn (s : jsstring) (j : nat) (d : ascii) : nth j s d = hd d (skipn j s).
Proof.
  revert j; induction s as [|c s IH]; intros [|j]; simpl; auto.
Qed.

Lemma startsWith_agree (pat : jsstring) (j : nat) :
  p <= j -> startsWith pat s1 j = startsWith pat s2 j.
Proof. intros H. unfold startsWith. rewrite (skipn_agree j H). reflexivity. Qed.

Lemma indexOf_agree (pat : jsstring) (j : nat) :
  p <= j -> indexOf pat s1 j = indexOf pat s2 j.
Proof. intros H. unfold indexOf. rewrite (skipn_agree j H). reflexivity. Qed.

Lemma slice_agree (a b : nat) : p <= a -> slice s1 a b = slice s2 a b.
Proof. intros H. unfold slice. rewrite (skipn_agree a H). reflexivity. Qed.

Lemma sliceFrom_agree (a : nat) : p <= a -> sliceFrom s1 a = sliceFrom s2 a.
Proof. intros H. unfold sliceFrom. apply skipn_agree; exact H. Qed.

Lemma charAt_agree (j : nat) : p <= j -> charAt s1 j = charAt s2 j.
Proof. intros H. rewrite !charAt_skipn, (skipn_agree j H). reflexivity. Qed.

Lemma nth_agree (j : nat) (d : ascii) : p <= j -> nth j s1 d = nth j s2 d.
Proof. intros H. rewrite !nth_skipn, (skipn_agree j H). reflexivity. Qed.

Lemma quickActionsBlock_agree (i : nat) :
  p <= i -> quickActionsBlock s1 i = quickActionsBlock s2 i.
Proof.
  intros H. unfold quickActionsBlock.
  rewrite (startsWith_agree _ i H), (indexOf_agree _ i H).
  destruct (startsWith BOLT_QUICK_ACTIONS_OPEN s2 i); [|reflexivity].
  destruct (indexOf BOLT_QUICK_ACTIONS_CLOSE s2 i) as [e|]; [|reflexivity].
  rewrite (slice_agree (i + length BOLT_QUICK_ACTIONS_OPEN) e ltac:(lia)).
  reflexivity.
Qed.

Lemma parseActionTag_agree (o e : nat) :
  p <= o -> parseActionTag s1 o e = parseActionTag s2 o e.
Proof.
  intros H. unfold parseActionTag. rewrite (slice_agree o (e + 1) H). reflexivity.
Qed.

Lemma stepInsideAction_agree (st : MessageState) (a : BoltArtifactData) (i : nat) :
  p <= i ->
  stepInsideAction callbacks messageId s1 st a i = stepInsideAction callbacks messageId s2 st a i.
Proof.
  intros H. unfold stepInsideAction.
  rewrite (indexOf_agree _ i H), (sliceFrom_agree i H).
  destruct (indexOf ARTIFACT_ACTION_TAG_CLOSE s2 i) as [c|]; [|reflexivity].
  rewrite (slice_agree i c H). reflexivity.
Qed.

Lemma openAction_agree (st : MessageState) (a : BoltArtifactData) (o : nat) :
  p <= o -> openAction callbacks messageId s1 st a o = openAction callbacks messageId s2 st a o.
Proof.
  intros H. unfold openAction. rewrite (indexOf_agree _ o H).
  destruct (indexOf [">"] s2 o) as [e|]; [|reflexivity].
  rewrite (parseActionTag_agree o e H). reflexivity.
Qed.

Lemma stepInsideArtifact_agree (st : MessageState) (a : BoltArtifactData) (i : nat) :
  p <= i ->
  stepInsideArtifact callbacks messageId s1 st a i = stepInsideArtifact callbacks messageId
      s2 st a i.
Proof.
  intros H. unfold stepInsideArtifact.
  rewrite !(indexOf_agree _ i H).
  destruct (indexOf ARTIFACT_ACTION_TAG_OPEN s2 i) as [o|] eqn:E; [|reflexivity].
  apply indexOf_ge in E.
  rewrite (openAction_agree st a o ltac:(lia)). reflexivity.
Qed.

Lemma tagScan_agree (n j : nat) (pt : jsstring) :
  p <= j -> tagScan s1 n j pt = tagScan s2 n j pt.
Proof.
  revert j pt; induction n as [|n IH]; intros j pt H; [reflexivity|].
  cbn [tagScan]. rewrite same_length, (nth_agree j _ H).
  rewrite (charAt_agree (j + 1) ltac:(lia)), (indexOf_agree _ j H).
  rewrite (IH (j + 1) _ ltac:(lia)). reflexivity.
Qed.

Lemma stepTag_agree (st : MessageState) (i : nat) :
  p <= i ->
  stepTag artifactElement callbacks messageId s1 st i = stepTag artifactElement callbacks
      messageId s2 st i.
Proof.
  intros H. unfold stepTag. rewrite (tagScan_agree _ i [] H), same_length.
  destruct (tagScan s2 (length ARTIFACT_TAG_OPEN) i []) as [j|e| |j pt];
    try reflexivity.
  - rewrite (slice_agree i (j + 1) H). reflexivity.
  - rewrite (slice_agree i (e + 1) H). reflexivity.
Qed.

Lemma step_agree (st : MessageState) (i : nat) :
  p <= i ->
  step artifactElement callbacks messageId s1 st i = step artifactElement callbacks
      messageId s2 st i.
Proof.
  intros H. unfold step, charText.
  rewrite (quickActionsBlock_agree i H), (charAt_agree i H),
    (charAt_agree (i + 1) ltac:(lia)).
  destruct (quickActionsBlock s2 i) as [[markup k]|]; [reflexivity|].
  destruct (insideArtifact st).
  - destruct (currentArtifact st) as [a|]; [|reflexivity].
    rewrite (stepInsideAction_agree st a i H), (stepInsideArtifact_agree st a i H).
    reflexivity.
  - rewrite (stepTag_agree st i H). reflexivity.
Qed.

Lemma scan_agree (fuel : nat) (st : MessageState) (i : nat) (output : jsstring)
  (evs : list Event) :
  p <= i ->
  scan artifactElement callbacks messageId s1 fuel st i output evs
  = scan artifactElement callbacks messageId s2 fuel st i output evs.
Proof.
  revert st i output evs; induction fuel as [|fuel IH]; intros st i output evs H;
    cbn [scan]; rewrite same_length; [reflexivity|].
  destruct (i <? length s2) eqn:E; [|reflexivity].
  apply Nat.ltb_lt in E. rewrite <- same_length in E.
  rewrite <- (step_agree st i H).
  pose proof (step_progress artifactElement callbacks messageId s1 st i) as Hp.
  destruct (step artifactElement callbacks messageId s1 st i) as [st1 i1 out e| e| st1 e err];
    try reflexivity.
  apply IH. specialize (Hp st1 i1 out e E eq_refl). lia.
Qed.

End Locality.

(** X28.  The result of a call does not depend on the text before the stored
    cursor: two texts of one length that are equal from the cursor of the
    message on give the same parser, callbacks and completion.  What lies
    before the cursor is not read again. *)
Theorem parse_reads_from_cursor (p : StreamingMessageParser)
  (messageId input1 input2 : jsstring) :
  length input1 = length input2 ->
  skipn (cursor p messageId) input1 = skipn (cursor p messageId) input2 ->
  parse p messageId input1 = parse p messageId input2.
Proof.
  intros Hl Hs. rewrite !parse_unfold. unfold parseState. rewrite Hl.
  assert (position (stateOf p messageId) = cursor p messageId) as Hc.
  { unfold stateOf, cursor. destruct (get (messages p) messageId); reflexivity. }
  rewrite <- Hc in Hs.
  rewrite (scan_agree (artifactElementOption p) (callbacksOption p) messageId input1 input2
             (position (stateOf p messageId)) Hl Hs (length input2)
             (stateOf p messageId) (position (stateOf p messageId)) [] [] (le_n _)).
  reflexivity.
Qed.

(* ================================================================== *)
(** ** Texts that grow *)
(* ================================================================== *)

Section Extension.

(** A text [s] and what is appended to it. *)
Variables (s e : jsstring).

Lemma prefixb_ext_fits (p t : jsstring) :
  length p <= length t -> prefixb p (t ++ e) = prefixb p t.
Proof.
  revert t; induction p as [|x p IH]; intros t H; [reflexivity|].
  destruct t as [|y t]; [simpl in H; lia|].
  simpl. rewrite IH; [reflexivity | simpl in H; lia].
Qed.

Lemma find_ext (p t : jsstring) (k : nat) :
  find p t = Some k -> find p (t ++ e) = Some k.
Proof.
  revert k; induction t as [|c t IH]; intros k; simpl.
  - destruct (prefixb p []) eqn:E; [|discriminate].
    intros [= <-]. destruct p; [|discriminate]. simpl.
    destruct e; reflexivity.
  - destruct (prefixb p (c :: t)) eqn:E.
    + intros [= <-]. change (c :: t ++ e) with ((c :: t) ++ e).
      rewrite (prefixb_ext _ _ e E). reflexivity.
    + destruct (find p t) as [k'|] eqn:F; [|discriminate].
      intros [= <-].
      pose proof (find_bound _ _ _ F) as Hb.
      change (c :: t ++ e) with ((c :: t) ++ e).
      rewrite prefixb_ext_fits by (simpl; lia).
      rewrite E, (IH k' eq_refl). reflexivity.
Qed.

Lemma skipn_app_le (i : nat) : i <= length s -> skipn i (s ++ e) = skipn i s ++ e.
Proof.
  intros H. rewrite skipn_app. replace (i - length s) with 0 by lia. reflexivity.
Qed.

Lemma indexOf_ext (p : jsstring) (i k : nat) :
  i <= length s -> indexOf p s i = Some k -> indexOf p (s ++ e) i = Some k.
Proof.
  intros Hi. unfold indexOf. rewrite (skipn_app_le i Hi).
  destruct (find p (skipn i s)) as [k'|] eqn:F; [|discriminate].
  rewrite (find_ext _ _ _ F). exact (fun H => H).
Qed.

Lemma slice_ext (a b : nat) : b <= length s -> slice (s ++ e) a b = slice s a b.
Proof.
  intros H. unfold slice.
  destruct (Nat.le_gt_cases a (length s)) as [Ha|Ha].
  - rewrite (skipn_app_le a Ha), firstn_app, length_skipn.
    replace (b - a - (length s - a)) with 0 by lia.
    simpl. apply app_nil_r.
  - replace (b - a) with 0 by lia. reflexivity.
Qed.

Lemma charAt_ext (j : nat) (c : ascii) :
  charAt s j = Some c -> charAt (s ++ e) j = Some c.
Proof.
  unfold charAt. intros H. rewrite nth_error_app1; [exact H|].
  apply nth_error_Some. congruence.
Qed.

Lemma charAt_lt (t : jsstring) (j : nat) :
  j < length t -> charAt t j = Some (nth j t Ascii.zero).
Proof. intros H. unfold charAt. apply nth_error_nth'. exact H. Qed.

Lemma charAt_ge (t : jsstring) (j : nat) : length t <= j -> charAt t j = None.
Proof. intros H. unfold charAt. apply nth_error_None. exact H. Qed.

Lemma nth_ext (j : nat) (d : ascii) : j < length s -> nth j (s ++ e) d = nth j s d.
Proof. intros H. apply app_nth1. exact H. Qed.

Lemma startsWith_fits (p : jsstring) (a : nat) :
  a + length p <= length s -> startsWith p (s ++ e) a = startsWith p s a.
Proof.
  intros H. unfold startsWith. rewrite skipn_app_le by lia.
  apply prefixb_ext_fits. rewrite length_skipn. lia.
Qed.

(** An occurrence that is not found in [t] is not in [t]. *)
Lemma find_None (p t : jsstring) (k : nat) :
  find p t = None -> prefixb p (skipn k t) = false.
Proof.
  revert k; induction t as [|c t IH]; intros k; simpl.
  - destruct (prefixb p []) eqn:E; [discriminate|]. intros _.
    rewrite skipn_nil. exact E.
  - destruct (prefixb p (c :: t)) eqn:E; [discriminate|].
    destruct (find p t) eqn:F; [discriminate|]. intros _.
    destruct k as [|k]; [exact E | simpl; apply IH; reflexivity].
Qed.

(** An occurrence found only in the longer text does not lie within the
    shorter one. *)
Lemma indexOf_new (p : jsstring) (i a : nat) :
  i <= length s ->
  indexOf p s i = None -> indexOf p (s ++ e) i = Some a -> length s < a + length p.
Proof.
  intros Hi Hn Ha.
  destruct (Nat.lt_ge_cases (length s) (a + length p)) as [H|H]; [exact H|].
  exfalso.
  pose proof (indexOf_ge _ _ _ _ Ha) as Hge.
  pose proof (indexOf_startsWith _ _ _ _ Ha) as Hst.
  rewrite (startsWith_fits p a H) in Hst.
  unfold indexOf in Hn. destruct (find p (skipn i s)) eqn:F; [discriminate|].
  pose proof (find_None p (skipn i s) (a - i) F) as Hf.
  rewrite skipn_skipn in Hf. replace (a - i + i) with a in Hf by lia.
  unfold startsWith in Hst. congruence.
Qed.

End Extension.

(* ================================================================== *)
(** ** The passes of a shorter text are passes of the longer text *)
(* ================================================================== *)

(** The bound that a found index gives. *)
Ltac indexOf_bounded H Hb :=
  match type of H with
  | indexOf ?p ?s ?i = Some ?k =>
      pose proof (indexOf_bound p s i k ltac:(simpl; lia) H) as Hb
  end.

Section Stability.

Variable artifactElement : option (jsstring -> jsstring).
Variable callbacks : option ParserCallbacks.t.
Variable messageId : jsstring.

(** The shorter text [T1] and what the longer text adds to it; no
    quick-actions block opens in the longer text. *)
Variables (T1 E : jsstring).
Hypothesis no_quick_actions :
  forall i, startsWith BOLT_QUICK_ACTIONS_OPEN (T1 ++ E) i = false.

Lemma stable_refl (r : Step) : stable r r.
Proof. destruct r; simpl; eauto. Qed.

Lemma quickActionsBlock_long (i : nat) : quickActionsBlock (T1 ++ E) i = None.
Proof. unfold quickActionsBlock. rewrite no_quick_actions. reflexivity. Qed.

Lemma quickActionsBlock_short (i : nat) : quickActionsBlock T1 i = None.
Proof.
  unfold quickActionsBlock.
  destruct (startsWith BOLT_QUICK_ACTIONS_OPEN T1 i) eqn:H; [|reflexivity].
  exfalso. pose proof (no_quick_actions i) as Hn.
  unfold startsWith in *.
  destruct (Nat.le_gt_cases i (length T1)) as [Hi|Hi].
  - rewrite (skipn_app_le T1 E i Hi), (prefixb_ext _ _ E H) in Hn. discriminate.
  - rewrite skipn_all2 in H by lia. discriminate H.
Qed.

Lemma stepInsideAction_stable (st : MessageState) (a : BoltArtifactData) (i : nat) :
  i <= length T1 ->
  stable (stepInsideAction callbacks messageId T1 st a i)
         (stepInsideAction callbacks messageId (T1 ++ E) st a i).
Proof.
  intros Hi. unfold stepInsideAction.
  destruct (indexOf ARTIFACT_ACTION_TAG_CLOSE T1 i) as [c|] eqn:E1.
  - rewrite (indexOf_ext T1 E _ i c Hi E1).
    indexOf_bounded E1 Hb.
    rewrite (slice_ext T1 E i c ltac:(lia)).
    destruct (fields (currentAction st)) as [| | [p|] | | | |]; simpl; eauto.
  - destruct (fields (currentAction st)) as [| | [p|] | | | |]; simpl; auto.
    destruct (indexOf ARTIFACT_ACTION_TAG_CLOSE (T1 ++ E) i); eauto.
Qed.

Lemma openAction_stable (st : MessageState) (a : BoltArtifactData) (o : nat) :
  o <= length T1 ->
  stable (openAction callbacks messageId T1 st a o) (openAction callbacks messageId (T1 ++
      E) st a o).
Proof.
  intros Ho. unfold openAction.
  destruct (indexOf [">"] T1 o) as [e|] eqn:E1; [|exact I].
  rewrite (indexOf_ext T1 E _ o e Ho E1).
  indexOf_bounded E1 Hb. simpl in Hb.
  unfold parseActionTag. rewrite (slice_ext T1 E o (e + 1) ltac:(lia)).
  fold (parseActionTag T1 o e).
  destruct (parseActionTag T1 o e); simpl; eauto.
Qed.

(** The action-open marker does not start inside the artifact-close
    marker. *)
Lemma markers_apart (t : jsstring) (a c : nat) :
  startsWith ARTIFACT_ACTION_TAG_OPEN t a = true ->
  startsWith ARTIFACT_TAG_CLOSE t c = true ->
  c <= a -> a < c + 15 -> False.
Proof.
  unfold startsWith. intros Ha Hc Hle Hlt.
  apply prefixb_spec in Hc as [r Hr].
  replace a with ((a - c) + c) in Ha by lia.
  rewrite <- skipn_skipn, Hr in Ha.
  assert (a - c < 15) as Hk by lia.
  remember (a - c) as k eqn:Ek. clear Ek Hle Hlt Hr.
  do 15 (destruct k as [|k]; [simpl in Ha; discriminate Ha|]).
  lia.
Qed.

Lemma stepInsideArtifact_stable (st : MessageState) (a : BoltArtifactData) (i : nat) :
  i <= length T1 ->
  stable (stepInsideArtifact callbacks messageId T1 st a i)
         (stepInsideArtifact callbacks messageId (T1 ++ E) st a i).
Proof.
  intros Hi. unfold stepInsideArtifact.
  destruct (indexOf ARTIFACT_ACTION_TAG_OPEN T1 i) as [o|] eqn:Eo;
    destruct (indexOf ARTIFACT_TAG_CLOSE T1 i) as [c|] eqn:Ec.
  - rewrite (indexOf_ext T1 E _ i o Hi Eo), (indexOf_ext T1 E _ i c Hi Ec).
    indexOf_bounded Eo Hb.
    destruct (o <? c); [apply openAction_stable; lia | apply stable_refl].
  - pose proof (indexOf_ext T1 E _ i o Hi Eo) as Eo'. rewrite Eo'.
    indexOf_bounded Eo Hb. simpl in Hb.
    destruct (indexOf ARTIFACT_TAG_CLOSE (T1 ++ E) i) as [c'|] eqn:Ec';
      [|apply openAction_stable; lia].
    pose proof (indexOf_new T1 E _ i c' Hi Ec Ec') as Hn. simpl in Hn.
    assert ((o <? c') = true) as ->.
    { apply Nat.ltb_lt. destruct (Nat.lt_ge_cases o c') as [H|H]; [exact H|].
      exfalso. apply (markers_apart (T1 ++ E) o c').
      - eapply indexOf_startsWith; exact Eo'.
      - eapply indexOf_startsWith; exact Ec'.
      - exact H.
      - lia. }
    apply openAction_stable; lia.
  - rewrite (indexOf_ext T1 E _ i c Hi Ec).
    indexOf_bounded Ec Hb. simpl in Hb.
    destruct (indexOf ARTIFACT_ACTION_TAG_OPEN (T1 ++ E) i) as [o'|] eqn:Eo';
      [|apply stable_refl].
    pose proof (indexOf_new T1 E _ i o' Hi Eo Eo') as Hn. simpl in Hn.
    assert ((o' <? c) = false) as -> by (apply Nat.ltb_ge; lia).
    apply stable_refl.
  - exact I.
Qed.

Lemma marker_last (pt : jsstring) (x : ascii) :
  eqs (pt ++ [x]) ARTIFACT_TAG_OPEN = true -> x = "t".
Proof.
  intros H. apply eqs_eq in H.
  change ARTIFACT_TAG_OPEN with (str "<boltArtifac" ++ ["t"]) in H.
  apply app_inj_tail in H as [_ H]. exact H.
Qed.

Lemma tagScan_stable (n j : nat) (pt : jsstring) :
  match tagScan T1 n j pt with
  | TagFlush j' => tagScan (T1 ++ E) n j pt = TagFlush j'
  | TagOpen e' => tagScan (T1 ++ E) n j pt = TagOpen e'
  | _ => True
  end.
Proof.
  revert j pt; induction n as [|n IH]; intros j pt; [exact I|].
  cbn [tagScan].
  destruct (j <? length T1) eqn:Ej; [|exact I].
  apply Nat.ltb_lt in Ej.
  assert ((j <? length (T1 ++ E)) = true) as ->
    by (apply Nat.ltb_lt; rewrite length_app; lia).
  cbn [andb]. destruct (length pt <? length ARTIFACT_TAG_OPEN); [|exact I].
  rewrite (nth_ext T1 E j Ascii.zero Ej).
  destruct (eqs (pt ++ [nth j T1 Ascii.zero]) ARTIFACT_TAG_OPEN) eqn:Eq.
  - destruct (charAt T1 (j + 1)) as [c|] eqn:Ec.
    + rewrite (charAt_ext T1 E (j + 1) c Ec).
      destruct (negb (eqc c ">") && negb (eqc c " ")); [reflexivity|].
      destruct (indexOf [">"] T1 j) as [e|] eqn:Ei; [|exact I].
      rewrite (indexOf_ext T1 E _ j e ltac:(lia) Ei). reflexivity.
    + destruct (indexOf [">"] T1 j) as [e|] eqn:Ei; [|exact I].
      exfalso.
      indexOf_bounded Ei Hb. simpl in Hb.
      pose proof (indexOf_ge _ _ _ _ Ei) as Hg.
      apply nth_error_None in Ec.
      assert (e = j) as -> by lia.
      apply indexOf_startsWith in Ei. unfold startsWith in Ei.
      apply prefixb_spec in Ei as [r Hr]. simpl in Hr.
      destruct (skipn_cons_inv _ _ _ _ Hr) as [Hn _].
      apply marker_last in Eq. rewrite Hn in Eq. discriminate Eq.
  - destruct (prefixb (pt ++ [nth j T1 Ascii.zero]) ARTIFACT_TAG_OPEN);
      cbn [negb]; [apply IH | reflexivity].
Qed.

Lemma stepTag_stable (st : MessageState) (i : nat) :
  i < length T1 ->
  stable (stepTag artifactElement callbacks messageId T1 st i)
         (stepTag artifactElement callbacks messageId (T1 ++ E) st i).
Proof.
  intros Hi. unfold stepTag.
  pose proof (tagScan_stable (length ARTIFACT_TAG_OPEN) i []) as Hs.
  pose proof (tagScan_inv T1 i (length ARTIFACT_TAG_OPEN) i []
                (le_n _) (Nat.lt_le_incl _ _ Hi) eq_refl eq_refl eq_refl) as Hv.
  destruct (tagScan T1 (length ARTIFACT_TAG_OPEN) i []) as [j|e| |j pt].
  - rewrite Hs. rewrite (slice_ext T1 E i (j + 1) ltac:(lia)). reflexivity.
  - rewrite Hs. rewrite (slice_ext T1 E i (e + 1) ltac:(lia)). reflexivity.
  - exact I.
  - destruct Hv as [-> ->]. rewrite Nat.eqb_refl. exact I.
Qed.

(** A [<] as the last character of the text: the pass waits. *)
Lemma stepTag_at_end (st : MessageState) (i : nat) :
  nth i T1 Ascii.zero = "<" -> S i = length T1 ->
  stepTag artifactElement callbacks messageId T1 st i = Break [].
Proof.
  intros Hn Hl. unfold stepTag.
  change (length ARTIFACT_TAG_OPEN) with 13. cbn [tagScan].
  assert ((i <? length T1) = true) as -> by (apply Nat.ltb_lt; lia).
  rewrite Hn. simpl.
  assert ((i + 1 <? length T1) = false) as -> by (apply Nat.ltb_ge; lia).
  simpl.
  assert ((i + 1 =? length T1) = true) as -> by (apply Nat.eqb_eq; lia).
  reflexivity.
Qed.

(** A pass on the shorter text that does not leave the loop is the pass
    on the longer text. *)
Lemma step_stable (st : MessageState) (i : nat) :
  i < length T1 ->
  stable (step artifactElement callbacks messageId T1 st i)
         (step artifactElement callbacks messageId (T1 ++ E) st i).
Proof.
  intros Hi. unfold step.
  rewrite quickActionsBlock_short, quickActionsBlock_long.
  destruct (insideArtifact st).
  - destruct (currentArtifact st) as [a|]; [|simpl; eauto].
    destruct (insideAction st).
    + apply stepInsideAction_stable; lia.
    + apply stepInsideArtifact_stable; lia.
  - unfold charText.
    pose proof (charAt_lt T1 i Hi) as Hc. rewrite Hc.
    rewrite (charAt_ext T1 E i _ Hc). cbn [isChar].
    destruct (eqc (nth i T1 Ascii.zero) "<") eqn:Elt; cbn [andb]; [|reflexivity].
    destruct (charAt T1 (i + 1)) as [y|] eqn:Ey.
    + rewrite (charAt_ext T1 E (i + 1) y Ey). cbn [isChar].
      destruct (eqc y "/"); cbn [negb]; [reflexivity|].
      apply stepTag_stable; exact Hi.
    + cbn [isChar negb]. apply nth_error_None in Ey.
      apply eqc_eq in Elt.
      rewrite (stepTag_at_end st i Elt ltac:(lia)). exact I.
Qed.

Lemma step_break_events (input : jsstring) (st : MessageState) (i : nat)
  (evs : list Event) :
  step artifactElement callbacks messageId input st i = Break evs -> streamOnly evs.
Proof.
  unfold step, streamOnly.
  destruct (quickActionsBlock input i) as [[markup k]|]; [discriminate|].
  destruct (insideArtifact st).
  - destruct (currentArtifact st) as [a|]; [|discriminate].
    destruct (insideAction st).
    + unfold stepInsideAction.
      destruct (indexOf ARTIFACT_ACTION_TAG_CLOSE input i);
        destruct (fields (currentAction st)) as [| | [p|] | | | |];
        try discriminate; intros [= <-]; unfold callback;
        try match goal with |- context [registered ?c ?e] => destruct (registered c e) end;
        eauto.
    + unfold stepInsideArtifact, openAction, closeArtifact.
      destruct (indexOf ARTIFACT_ACTION_TAG_OPEN input i) as [o|];
        destruct (indexOf ARTIFACT_TAG_CLOSE input i) as [c|];
        try destruct (o <? c);
        try (destruct (indexOf [">"] input o) as [e|];
             [destruct (parseActionTag input o e)|]);
        try discriminate; intros [= <-]; eauto.
  - match goal with |- context [if ?b then _ else _] => destruct b end;
      [|discriminate].
    unfold stepTag.
    destruct (tagScan input (length ARTIFACT_TAG_OPEN) i []); try discriminate.
    + intros [= <-]; eauto.
    + match goal with |- context [if ?b then _ else _] => destruct b end;
        try discriminate; intros [= <-]; eauto.
Qed.

End Stability.

(* ================================================================== *)
(** ** Resumption *)
(* ================================================================== *)

Section Loop.

Variable artifactElement : option (jsstring -> jsstring).
Variable callbacks : option ParserCallbacks.t.
Variable messageId : jsstring.
Variable input : jsstring.

Abbreviation pass := (step artifactElement callbacks messageId input).
Abbreviation loop := (scan artifactElement callbacks messageId input).

(** More fuel than the characters that remain changes nothing. *)
Lemma scan_fuel (fuel1 : nat) :
  forall fuel2 st i output evs,
  length input - i <= fuel1 -> length input - i <= fuel2 ->
  loop fuel1 st i output evs = loop fuel2 st i output evs.
Proof.
  induction fuel1 as [|fuel1 IH]; intros fuel2 st i output evs H1 H2.
  - destruct fuel2; cbn [scan];
      (destruct (i <? length input) eqn:E; [apply Nat.ltb_lt in E; lia | reflexivity]).
  - destruct fuel2; cbn [scan];
      (destruct (i <? length input) eqn:E; [|reflexivity]);
      apply Nat.ltb_lt in E; [lia|].
    pose proof (step_progress artifactElement callbacks messageId input st i) as Hp.
    destruct (pass st i) as [st1 i1 out e| e| st1 e err]; try reflexivity.
    specialize (Hp st1 i1 out e E eq_refl). apply IH; lia.
Qed.

Lemma scan_continue (fuel : nat) (st : MessageState) (i : nat) (output : jsstring)
  (evs : list Event) (st' : MessageState) (i' : nat) (out : jsstring)
  (e : list Event) :
  i < length input ->
  pass st i = Continue st' i' out e ->
  loop (S fuel) st i output evs = loop fuel st' i' (output ++ out) (evs ++ e).
Proof.
  intros Hi Hs. cbn [scan]. apply Nat.ltb_lt in Hi. rewrite Hi, Hs. reflexivity.
Qed.

Lemma scan_throw (fuel : nat) (st : MessageState) (i : nat) (output : jsstring)
  (evs : list Event) (st' : MessageState) (e : list Event) (err : JsError) :
  i < length input ->
  pass st i = Throw st' e err ->
  loop (S fuel) st i output evs = (st', evs ++ e, Throws err).
Proof.
  intros Hi Hs. cbn [scan]. apply Nat.ltb_lt in Hi. rewrite Hi, Hs. reflexivity.
Qed.

(** The output and the callbacks gathered so far are carried along. *)
Lemma scan_acc (fuel : nat) :
  forall st i output evs,
  loop fuel st i output evs
  = let '(st', e, c) := loop fuel st i [] [] in (st', evs ++ e, after output c).
Proof.
  induction fuel as [|fuel IH]; intros st i output evs; cbn [scan].
  - destruct (i <? length input); simpl; rewrite !app_nil_r; reflexivity.
  - destruct (i <? length input); [|simpl; rewrite !app_nil_r; reflexivity].
    destruct (pass st i) as [st1 i1 out e| e| st1 e err].
    + rewrite (IH st1 i1 (output ++ out) (evs ++ e)).
      rewrite (IH st1 i1 ([] ++ out) ([] ++ e)).
      destruct (loop fuel st1 i1 [] []) as [[st' e'] c].
      simpl. rewrite <- app_assoc. destruct c; simpl; rewrite ?app_assoc; reflexivity.
    + simpl. rewrite app_nil_r. reflexivity.
    + reflexivity.
Qed.

(** The passes do not read [state.position]. *)
Lemma step_set_position (st : MessageState) (p i : nat) :
  pass (set_position st p) i = mapState (fun s => set_position s p) (pass st i).
Proof.
  unfold step.
  destruct (quickActionsBlock input i) as [[markup k]|]; [reflexivity|].
  cbn [insideArtifact currentArtifact insideAction set_position].
  destruct (insideArtifact st).
  - destruct (currentArtifact st) as [a|]; [|reflexivity].
    destruct (insideAction st).
    + unfold stepInsideAction.
      cbn [currentAction set_position].
      destruct (indexOf ARTIFACT_ACTION_TAG_CLOSE input i);
        destruct (fields (currentAction st)) as [| | [q|] | | | |]; reflexivity.
    + unfold stepInsideArtifact, openAction, closeArtifact.
      destruct (indexOf ARTIFACT_ACTION_TAG_OPEN input i) as [o|];
        destruct (indexOf ARTIFACT_TAG_CLOSE input i) as [c|];
        try destruct (o <? c);
        try (destruct (indexOf [">"] input o) as [e|];
             [destruct (parseActionTag input o e)|]);
        reflexivity.
  - match goal with |- context [if ?b then _ else _] => destruct b end;
      [|reflexivity].
    unfold stepTag.
    destruct (tagScan input (length ARTIFACT_TAG_OPEN) i []); try reflexivity.
    match goal with |- context [if ?b then _ else _] => destruct b end; reflexivity.
Qed.

Lemma scan_set_position (fuel : nat) :
  forall st p i output evs,
  loop fuel (set_position st p) i output evs
  = keepCursor p (loop fuel st i output evs).
Proof.
  induction fuel as [|fuel IH]; intros st p i output evs; cbn [scan].
  - destruct (i <? length input); reflexivity.
  - destruct (i <? length input); [|reflexivity].
    rewrite step_set_position.
    destruct (pass st i) as [st1 i1 out e| e| st1 e err]; simpl.
    + apply IH.
    + reflexivity.
    + reflexivity.
Qed.

End Loop.

Section Resume.

Variable artifactElement : option (jsstring -> jsstring).
Variable callbacks : option ParserCallbacks.t.
Variable messageId : jsstring.
Variables (T1 E : jsstring).
Hypothesis no_quick_actions :
  forall i, startsWith BOLT_QUICK_ACTIONS_OPEN (T1 ++ E) i = false.

Abbreviation short := (scan artifactElement callbacks messageId T1).
Abbreviation long := (scan artifactElement callbacks messageId (T1 ++ E)).

(** The loop on the shorter text, up to the pass where it stops and waits,
    is the beginning of the loop on the longer text. *)
Lemma scan_resume (fuel1 : nat) :
  forall st i output evs st1 evs1 o1,
  length T1 - i <= fuel1 ->
  short fuel1 st i output evs = (st1, evs1, Returns o1) ->
  exists stb pre sfx,
    st1 = set_position stb (position st1) /\ i <= position st1
    /\ evs1 = pre ++ sfx /\ streamOnly sfx
    /\ forall fuel, length (T1 ++ E) - i <= fuel ->
         long fuel st i output evs = long fuel stb (position st1) o1 pre.
Proof.
  induction fuel1 as [|fuel1 IH]; intros st i output evs st1 evs1 o1 Hf; cbn [scan].
  - destruct (i <? length T1) eqn:Ei; [discriminate|].
    intros [= <- <- <-]. exists st, evs, [].
    repeat split; simpl; auto; [rewrite app_nil_r; reflexivity | left; reflexivity].
  - destruct (i <? length T1) eqn:Ei.
    2:{ intros [= <- <- <-]. exists st, evs, [].
        repeat split; simpl; auto; [rewrite app_nil_r; reflexivity | left; reflexivity]. }
    apply Nat.ltb_lt in Ei.
    pose proof (step_stable artifactElement callbacks messageId T1 E no_quick_actions st i
        Ei) as Hs.
    pose proof (step_progress artifactElement callbacks messageId T1 st i) as Hp.
    pose proof (step_break_events artifactElement callbacks messageId T1 st i) as Hb.
    destruct (step artifactElement callbacks messageId T1 st i) as [st' i' out e| e| st' e err].
    + simpl in Hs. specialize (Hp st' i' out e Ei eq_refl).
      intros H. destruct (IH st' i' (output ++ out) (evs ++ e) st1 evs1 o1
                            ltac:(lia) H) as [stb [pre [sfx [H1 [H2 [H3 [H4 H5]]]]]]].
      exists stb, pre, sfx. repeat split; auto; [lia|].
      intros fuel Hfuel. destruct fuel as [|fuel].
      { rewrite length_app in Hfuel. lia. }
      rewrite (scan_fuel artifactElement callbacks messageId (T1 ++ E) (S fuel) fuel
                 stb (position st1) o1 pre ltac:(lia) ltac:(lia)).
      rewrite (scan_continue artifactElement callbacks messageId (T1 ++ E) fuel st i
                 output evs st' i' out e
                 ltac:(rewrite length_app; lia) Hs).
      apply H5. lia.
    + intros [= <- <- <-]. exists st, evs, e.
      repeat split; simpl; auto.
    + discriminate.
Qed.

(** An exception on the shorter text is an exception on the longer one. *)
Lemma scan_throws (fuel1 : nat) :
  forall st i output evs st1 evs1 err,
  length T1 - i <= fuel1 ->
  short fuel1 st i output evs = (st1, evs1, Throws err) ->
  forall fuel, length (T1 ++ E) - i <= fuel ->
  exists st2, long fuel st i output evs = (st2, evs1, Throws err).
Proof.
  induction fuel1 as [|fuel1 IH]; intros st i output evs st1 evs1 err Hf; cbn [scan].
  - destruct (i <? length T1); discriminate.
  - destruct (i <? length T1) eqn:Ei; [|discriminate].
    apply Nat.ltb_lt in Ei.
    pose proof (step_stable artifactElement callbacks messageId T1 E no_quick_actions st i
        Ei) as Hs.
    pose proof (step_progress artifactElement callbacks messageId T1 st i) as Hp.
    destruct (step artifactElement callbacks messageId T1 st i) as [st' i' out e| e| st' e err'].
    + simpl in Hs. specialize (Hp st' i' out e Ei eq_refl).
      intros H fuel Hfuel. destruct fuel as [|fuel].
      { rewrite length_app in Hfuel. lia. }
      rewrite (scan_continue artifactElement callbacks messageId (T1 ++ E) fuel st i
                 output evs st' i' out e
                 ltac:(rewrite length_app; lia) Hs).
      apply (IH st' i' _ _ st1 evs1 err ltac:(lia) H). lia.
    + discriminate.
    + intros [= <- <- <-] fuel Hfuel. destruct Hs as [st2 Hs].
      destruct fuel as [|fuel].
      { rewrite length_app in Hfuel. lia. }
      rewrite (scan_throw artifactElement callbacks messageId (T1 ++ E) fuel st i
                 output evs st2 e err'
                 ltac:(rewrite length_app; lia) Hs).
      eauto.
Qed.

(** Resumption on the state of a message.  In a text [T1 ++ E] with no
    quick-actions open marker, when the call on the whole text returns,
    the call on the beginning [T1] returns too, the call on the whole text
    from the state it leaves returns, the two outputs together are the
    output of the single call, and the final states are equal.  The
    callbacks of the single call are those of the first call, without the
    action-stream callback with which it may end, followed by those of the
    second call. *)
Lemma parseState_resumes (st0 st : MessageState) (evs : list Event) (o : jsstring) :
  parseState artifactElement callbacks messageId (T1 ++ E) st0 = (st, evs, Returns o) ->
  exists st1 evs1 o1 evs2 o2 pre sfx,
    parseState artifactElement callbacks messageId T1 st0 = (st1, evs1, Returns o1)
    /\ parseState artifactElement callbacks messageId (T1 ++ E) st1 = (st, evs2, Returns o2)
    /\ o1 ++ o2 = o
    /\ evs1 = pre ++ sfx /\ streamOnly sfx /\ evs = pre ++ evs2.
Proof.
  unfold parseState. intros H.
  pose proof (scan_spec artifactElement callbacks messageId T1 (length T1) st0 (position st0)
                [] [] ltac:(lia)) as Hspec.
  destruct (short (length T1) st0 (position st0) [] []) as [[st1 evs1] c1] eqn:E1.
  destruct c1 as [o1|err|]; [| |contradiction].
  2:{ destruct (scan_throws (length T1) st0 (position st0) [] [] st1 evs1 err
                  ltac:(lia) E1 (length (T1 ++ E)) ltac:(lia)) as [st2 H2].
      congruence. }
  destruct (scan_resume (length T1) st0 (position st0) [] [] st1 evs1 o1
              ltac:(lia) E1) as [stb [pre [sfx [H1 [H2 [H3 [H4 H5]]]]]]].
  rewrite (H5 (length (T1 ++ E)) ltac:(lia)) in H.
  rewrite scan_acc in H.
  assert (long (length (T1 ++ E)) st1 (position st1) [] []
          = keepCursor (position st1) (long (length (T1 ++ E)) stb (position st1) [] []))
    as Hk.
  { rewrite H1 at 1. apply scan_set_position. }
  destruct (long (length (T1 ++ E)) stb (position st1) [] []) as [[st' e'] c'].
  destruct c' as [o2|err|]; simpl in H; try discriminate.
  injection H as <- <- <-.
  exists st1, evs1, o1, e', o2, pre, sfx.
  rewrite Hk. simpl. repeat split; auto.
Qed.

End Resume.

Lemma set_set (m : Messages) (k : jsstring) (a b : MessageState) :
  set (set m k a) k b = set m k b.
Proof.
  induction m as [|[k' v] m IH]; simpl.
  - rewrite eqs_refl. reflexivity.
  - destruct (eqs k' k) eqn:Ek; simpl; rewrite Ek; [reflexivity|].
    rewrite IH. reflexivity.
Qed.

(** X29.  Resumption, for the texts that hold no quick-actions open marker
    ([find] does not find it).  If [parse(id, T)] returns on a parser, then for every split point [k] the
    call [parse(id, T[0:k])] on that parser returns, the call
    [parse(id, T)] that follows it returns, the two outputs together are
    the output of the single call, and the parser is left in the same
    state.  The callbacks of the single call are those of the first call,
    without the action-stream callback with which it may end, followed by
    those of the second call. *)
Theorem resumption_without_quick_actions (p : StreamingMessageParser)
  (messageId T : jsstring) (k : nat)
  (p' : StreamingMessageParser) (evs : list Event) (o : jsstring) :
  find BOLT_QUICK_ACTIONS_OPEN T = None ->
  parse p messageId T = (p', evs, Returns o) ->
  exists p1 evs1 o1 evs2 o2 pre sfx,
    parse p messageId (firstn k T) = (p1, evs1, Returns o1)
    /\ parse p1 messageId T = (p', evs2, Returns o2)
    /\ o1 ++ o2 = o
    /\ evs1 = pre ++ sfx /\ streamOnly sfx /\ evs = pre ++ evs2.
Proof.
  intros Hfind H.
  assert (forall i, startsWith BOLT_QUICK_ACTIONS_OPEN T i = false) as Hq
    by (intros i; apply find_None; exact Hfind).
  clear Hfind. rewrite parse_unfold in H.
  destruct (parseState (artifactElementOption p) (callbacksOption p) messageId T (stateOf p
      messageId))
    as [[st evs'] c] eqn:Es.
  injection H as <- <- ->.
  rewrite <- (firstn_skipn k T) in Es, Hq.
  destruct (parseState_resumes (artifactElementOption p) (callbacksOption p) messageId
              (firstn k T) (skipn k T) Hq (stateOf p messageId) st evs' o Es)
    as [st1 [evs1 [o1 [evs2 [o2 [pre [sfx [H1 [H2 [H3 [H4 [H5 H6]]]]]]]]]]]].
  rewrite (firstn_skipn k T) in H2.
  exists (mkParser (artifactElementOption p) (callbacksOption p) (set (messages p) messageId st1)),
    evs1, o1, evs2, o2, pre, sfx.
  rewrite !parse_unfold. rewrite H1. cbn [artifactElementOption callbacksOption messages].
  rewrite stateOf_set, H2, set_set. repeat split; auto.
Qed.

Lemma resumption_without_quick_actions_witness :
  exists p1 evs1 o1 evs2 o2 pre sfx,
    parse (freshParser None) m1 (firstn 100 (fencedFileText "a.ts"))
    = (p1, evs1, Returns o1)
    /\ parse p1 m1 (fencedFileText "a.ts")
       = (fst (fst (parse (freshParser None) m1 (fencedFileText "a.ts"))),
          evs2, Returns o2)
    /\ o1 ++ o2 = createArtifactElement m1
    /\ evs1 = pre ++ sfx /\ streamOnly sfx
    /\ eventsOf (parse (freshParser None) m1 (fencedFileText "a.ts")) = pre ++ evs2.
Proof.
  apply (resumption_without_quick_actions (freshParser None) m1
           (fencedFileText "a.ts") 100).
  - vm_compute. reflexivity.
  - vm_compute. reflexivity.
Defined.

(* ================================================================== *)
(** ** The unreachable branch *)
(* ================================================================== *)

Section Unreachable.

Variable artifactElement : option (jsstring -> jsstring).
Variable callbacks : option ParserCallbacks.t.
Variable messageId : jsstring.
Variable input : jsstring.

Lemma parseActionTag_error (o e : nat) :
  match parseActionTag input o e with
  | Raise (Error _) => True
  | Raise _ => False
  | Ok _ => True
  end.
Proof.
  unfold parseActionTag.
  repeat match goal with
         | |- context [if ?b then _ else _] => destruct b
         end; exact I.
Qed.

Lemma step_reaches (st : MessageState) (i : nat) :
  wf st ->
  match step artifactElement callbacks messageId input st i with
  | Throw _ _ (Unreachable _) => False
  | _ => True
  end.
Proof.
  intros [_ Hw]. unfold step.
  destruct (quickActionsBlock input i) as [[markup k]|]; [exact I|].
  destruct (insideArtifact st).
  - destruct (currentArtifact st) as [a|]; [|exact (Hw eq_refl eq_refl)].
    destruct (insideAction st).
    + unfold stepInsideAction.
      destruct (indexOf ARTIFACT_ACTION_TAG_CLOSE input i);
        destruct (fields (currentAction st)) as [| | [q|] | | | |]; exact I.
    + unfold stepInsideArtifact, openAction, closeArtifact.
      destruct (indexOf ARTIFACT_ACTION_TAG_OPEN input i) as [o|];
        destruct (indexOf ARTIFACT_TAG_CLOSE input i) as [c|];
        try destruct (o <? c); try exact I;
        (destruct (indexOf [">"] input o) as [e|]; [|exact I]);
        pose proof (parseActionTag_error o e) as H;
        destruct (parseActionTag input o e) as [act|[msg| |msg]];
        try exact I; exact H.
  - match goal with |- context [if ?b then _ else _] => destruct b end; [|exact I].
    unfold stepTag.
    destruct (tagScan input (length ARTIFACT_TAG_OPEN) i []); try exact I.
    match goal with |- context [if ?b then _ else _] => destruct b end; exact I.
Qed.

Lemma scan_reaches (fuel : nat) :
  callbacks = allCallbacks ->
  forall st i output evs,
  wf st ->
  isUnreachable (snd (scan artifactElement callbacks messageId input fuel st i output evs)) = false.
Proof.
  intros Hall.
  induction fuel as [|fuel IH]; intros st i output evs Hw; cbn [scan].
  - destruct (i <? length input); reflexivity.
  - destruct (i <? length input); [|reflexivity].
    pose proof (step_reaches st i Hw) as Hr.
    pose proof (step_trace artifactElement callbacks messageId input Hall st i Hw) as Ht.
    destruct (step artifactElement callbacks messageId input st i) as [st1 i1 out e| e| st1 e err].
    + apply IH. apply Ht.
    + reflexivity.
    + destruct err; [reflexivity | reflexivity | contradiction].
Qed.

End Unreachable.

(** The call [unreachable('Artifact not initialized')] is not reached in
    any sequence of calls on a new parser with all five callbacks. *)
Theorem unreachable_is_not_reached (artifactElement : option (jsstring -> jsstring))
  (messageId : jsstring) (inputs : list jsstring) :
  isUnreachable (snd (feed (freshParser artifactElement) messageId inputs)) = false.
Proof.
  assert (forall p, callbacksOption p = allCallbacks -> wf (stateOf p messageId) ->
                    isUnreachable (snd (feed p messageId inputs)) = false) as H.
  { induction inputs as [|input rest IH]; intros p Hall Hw; [reflexivity|].
    cbn [feed]. rewrite parse_unfold.
    pose proof (scan_reaches (artifactElementOption p) (callbacksOption p) messageId input
                  (length input) Hall
                  (stateOf p messageId) (position (stateOf p messageId)) [] [] Hw) as Hr.
    pose proof (parseState_trace (artifactElementOption p) (callbacksOption p) messageId input
                  Hall (stateOf p messageId) [] (stage (stateOf p messageId)) Hw
                  (trace_nil _ _)) as Ht.
    unfold parseState in *.
    destruct (scan (artifactElementOption p) (callbacksOption p) messageId input (length input)
                (stateOf p messageId) (position (stateOf p messageId)) [] [])
      as [[st' evs1] c1].
    destruct Ht as [s' [_ Ht]].
    destruct c1 as [out1|err|]; [|exact Hr|reflexivity].
    destruct (Ht out1 eq_refl) as [Hw' _].
    specialize (IH (mkParser (artifactElementOption p) (callbacksOption p)
                      (set (messages p) messageId st'))).
    rewrite stateOf_set in IH. specialize (IH Hall Hw').
    destruct (feed (mkParser (artifactElementOption p) (callbacksOption p)
                      (set (messages p) messageId st')) messageId rest)
      as [[p2 evs2] c2].
    simpl in *. destruct c2; exact IH. }
  apply H; [reflexivity | exact wf_initial].
Qed.

(* ================================================================== *)
(** ** cleanEscapedTags *)
(* ================================================================== *)

Lemma replaceFrom_skip (p r s : jsstring) :
  forall k, replaceFrom k p r s = replaceFrom 0 p r (skipn k s).
Proof.
  induction s as [|c s IH]; intros k.
  - rewrite skipn_nil. destruct k; reflexivity.
  - destruct k as [|k]; [reflexivity|]. cbn [skipn replaceFrom]. apply IH.
Qed.

(** The replacement, one occurrence at a time: an occurrence at the head
    is replaced and the text goes on after it. *)
Lemma replaceAll_cons (p r : jsstring) (c : ascii) (s : jsstring) :
  replaceAll p r (c :: s)
  = if prefixb p (c :: s) then r ++ replaceAll p r (skipn (length p - 1) s)
    else c :: replaceAll p r s.
Proof.
  unfold replaceAll. cbn [replaceFrom].
  destruct (prefixb p (c :: s)); [|reflexivity].
  rewrite replaceFrom_skip. reflexivity.
Qed.

(** A text [q] with no character of the replacement [r] that begins the
    result begins the text itself: the characters before the first
    replacement are copied. *)
Lemma replaceAll_prefix (p r q : jsstring) :
  r <> [] -> (forall x, In x q -> ~ In x r) ->
  forall s, prefixb q (replaceAll p r s) = true -> prefixb q s = true.
Proof.
  intros Hr. induction q as [|x q IH]; intros Hq s H; [reflexivity|].
  destruct s as [|c s]; [exact H|].
  rewrite replaceAll_cons in H.
  destruct (prefixb p (c :: s)).
  - destruct r as [|y r']; [congruence|]. cbn [app prefixb] in H.
    apply andb_true_iff in H as [H _]. apply eqc_eq in H. subst y.
    exfalso. apply (Hq x); left; reflexivity.
  - cbn [prefixb] in H |- *. apply andb_true_iff in H as [H1 H2]. rewrite H1.
    apply IH; [intros y Hy; apply Hq; right; exact Hy | exact H2].
Qed.

Lemma find_after (q : jsstring) (t : jsstring) :
  q <> [] -> find q t = None ->
  forall r, (forall x, In x q -> ~ In x r) -> find q (r ++ t) = None.
Proof.
  intros Hq Ht r. induction r as [|y r IH]; intros H; [exact Ht|].
  cbn [app find].
  destruct (prefixb q (y :: r ++ t)) eqn:E.
  - exfalso. destruct q as [|x q]; [congruence|]. cbn [prefixb] in E.
    apply andb_true_iff in E as [E _]. apply eqc_eq in E. subst y.
    apply (H x); left; reflexivity.
  - rewrite IH; [reflexivity|]. intros x Hx Hin. apply (H x Hx). right; exact Hin.
Qed.

(** The result of a replacement holds no occurrence of a text [q] that
    shares no character with the replacement, when [q] occurs in the text
    only where the pattern does. *)
Lemma replaceAll_free (p r q : jsstring) :
  r <> [] -> q <> [] -> (forall x, In x q -> ~ In x r) ->
  forall n s, length s <= n ->
  (forall k, prefixb q (skipn k s) = true -> prefixb p (skipn k s) = true) ->
  find q (replaceAll p r s) = None.
Proof.
  intros Hr Hq Hqr. induction n as [|n IH]; intros s Hl H.
  - destruct s; [|simpl in Hl; lia]. destruct q; [congruence | reflexivity].
  - destruct s as [|c s]; [destruct q; [congruence | reflexivity]|].
    simpl in Hl. rewrite replaceAll_cons.
    destruct (prefixb p (c :: s)) eqn:E.
    + apply find_after; [exact Hq| |exact Hqr].
      apply IH; [rewrite length_skipn; lia|].
      intros k Hk. rewrite skipn_skipn in Hk |- *.
      apply (H (S (k + (length p - 1)))). exact Hk.
    + cbn [find].
      destruct (prefixb q (c :: replaceAll p r s)) eqn:E2.
      * exfalso.
        assert (prefixb q (replaceAll p r (c :: s)) = true) as E3
            by (rewrite replaceAll_cons, E; exact E2).
        apply (replaceAll_prefix p r q Hr Hqr) in E3.
        specialize (H 0 E3). simpl in H. congruence.
      * rewrite IH; [reflexivity | lia |].
        intros k Hk. apply (H (S k)). exact Hk.
Qed.

Lemma replaceAll_absent (p r s : jsstring) :
  find p s = None -> replaceAll p r s = s.
Proof.
  unfold replaceAll. induction s as [|c s IH]; [reflexivity|].
  cbn [find replaceFrom].
  destruct (prefixb p (c :: s)); [discriminate|].
  destruct (find p s); [discriminate|]. intros _. rewrite IH; reflexivity.
Qed.

Lemma cleanEscapedTags_free (content : jsstring) :
  find (str "&lt;") (cleanEscapedTags content) = None
  /\ find (str "&gt;") (cleanEscapedTags content) = None.
Proof.
  unfold cleanEscapedTags.
  assert (find (str "&lt;") (replaceAll (str "&lt;") (str "<") content) = None) as H1.
  { apply (replaceAll_free (str "&lt;") (str "<") (str "&lt;")
             ltac:(discriminate) ltac:(discriminate)) with (n := length content);
      [|lia|intros k Hk; exact Hk].
    intros x Hx [<-|[]]. simpl in Hx. intuition discriminate. }
  split.
  - apply (replaceAll_free (str "&gt;") (str ">") (str "&lt;")
             ltac:(discriminate) ltac:(discriminate))
      with (n := length (replaceAll (str "&lt;") (str "<") content)); [|lia|].
    + intros x Hx [<-|[]]. simpl in Hx. intuition discriminate.
    + intros k Hk. rewrite (find_None _ _ k H1) in Hk. discriminate.
  - apply (replaceAll_free (str "&gt;") (str ">") (str "&gt;")
             ltac:(discriminate) ltac:(discriminate))
      with (n := length (replaceAll (str "&lt;") (str "<") content));
      [|lia|intros k Hk; exact Hk].
    intros x Hx [<-|[]]. simpl in Hx. intuition discriminate.
Qed.

(** X1.  The result of [cleanEscapedTags] holds neither [&lt;] nor
    [&gt;]: every escaped angle bracket of the content is restored, and
    restoring one does not make a new one. *)
Theorem cleanEscapedTags_leaves_no_entity (content : jsstring) :
  find (str "&lt;") (cleanEscapedTags content) = None
  /\ find (str "&gt;") (cleanEscapedTags content) = None.
Proof. apply cleanEscapedTags_free. Qed.

(** X2.  [cleanEscapedTags] applied to its own result changes nothing. *)
Theorem cleanEscapedTags_idempotent (content : jsstring) :
  cleanEscapedTags (cleanEscapedTags content) = cleanEscapedTags content.
Proof.
  destruct (cleanEscapedTags_free content) as [H1 H2].
  unfold cleanEscapedTags at 1.
  rewrite (replaceAll_absent _ _ _ H1). apply replaceAll_absent. exact H2.
Qed.

(* ================================================================== *)
(** ** cleanoutMarkdownSyntax *)
(* ================================================================== *)

Lemma dropWhile_split (f : ascii -> bool) (s : jsstring) :
  exists a, forallb f a = true /\ s = a ++ dropWhile f s.
Proof.
  induction s as [|c s [a [Ha IH]]]; [exists []; split; reflexivity|].
  simpl. destruct (f c) eqn:E.
  - exists (c :: a). simpl. rewrite E, Ha. split; [reflexivity | congruence].
  - exists []. split; reflexivity.
Qed.

(** The text that [fenceTail] accepts: a line feed, white space, the
    closing fence, white space. *)
Lemma fenceTail_shape (r : jsstring) :
  fenceTail r = true ->
  exists ws2 ws3, forallb isSpace ws2 = true /\ forallb isSpace ws3 = true
                  /\ r = LF :: ws2 ++ str "```" ++ ws3.
Proof.
  unfold fenceTail. destruct r as [|c r1]; [discriminate|].
  intros H. apply andb_true_iff in H as [H1 H]. apply andb_true_iff in H as [H2 H3].
  apply eqc_eq in H1. subst c.
  destruct (dropWhile_split isSpace r1) as [ws2 [Hw E]].
  apply prefixb_spec in H2 as [ws3 H2].
  exists ws2, ws3. repeat split; [exact Hw| |].
  - rewrite H2 in H3. change (skipn 3 (str "```" ++ ws3)) with ws3 in H3.
    destruct (dropWhile isSpace ws3) eqn:E3; [|discriminate].
    apply dropWhile_nil_forallb. exact E3.
  - rewrite E at 1. rewrite H2. reflexivity.
Qed.

Lemma lazyBody_shape (s g : jsstring) :
  lazyBody s = Some g -> exists r, s = g ++ r /\ fenceTail r = true.
Proof.
  revert g; induction s as [|c s IH]; intros g; cbn [lazyBody].
  - destruct (fenceTail []) eqn:E; [|discriminate].
    intros [= <-]. exists []. split; [reflexivity | exact E].
  - destruct (fenceTail (c :: s)) eqn:E.
    + intros [= <-]. exists (c :: s). split; [reflexivity | exact E].
    + destruct (lazyBody s) as [g'|]; [|discriminate].
      intros [= <-]. destruct (IH g' eq_refl) as [r [-> Hr]].
      exists r. split; [reflexivity | exact Hr].
Qed.

(** A match of the pattern: the content is white space, the opening fence
    with its language tag, the group, and the closing fence. *)
Lemma codeBlockMatch_shape (content g : jsstring) :
  codeBlockMatch content = Some g ->
  exists ws1 lang ws2 ws3,
    forallb isSpace ws1 = true /\ forallb isWord lang = true
    /\ forallb isSpace ws2 = true /\ forallb isSpace ws3 = true
    /\ content = ws1 ++ str "```" ++ lang ++ LF :: g ++ LF :: ws2 ++ str "```" ++ ws3.
Proof.
  unfold codeBlockMatch.
  destruct (dropWhile_split isSpace content) as [ws1 [H1 E1]].
  destruct (prefixb (str "```") (dropWhile isSpace content)) eqn:Ep; [|discriminate].
  apply prefixb_spec in Ep as [c2 Ep]. rewrite Ep.
  change (skipn 3 (str "```" ++ c2)) with c2.
  destruct (dropWhile_split isWord c2) as [lang [H2 E2]].
  destruct (dropWhile isWord c2) as [|c c3] eqn:Ed; [discriminate|].
  destruct (eqc c LF) eqn:Ec; [|discriminate]. apply eqc_eq in Ec. subst c.
  intros Hl. apply lazyBody_shape in Hl as [r [-> Hr]].
  apply fenceTail_shape in Hr as [ws2 [ws3 [H3 [H4 ->]]]].
  exists ws1, lang, ws2, ws3. repeat split; try assumption.
  rewrite E1 at 1. rewrite Ep, E2. reflexivity.
Qed.

(** X3.  [cleanoutMarkdownSyntax] returns a part of the content: the
    content as it is, or the text between an opening fence and a closing
    fence that begin and end the content. *)
Theorem cleanoutMarkdownSyntax_returns_a_part (content : jsstring) :
  exists before after, content = before ++ cleanoutMarkdownSyntax content ++ after.
Proof.
  unfold cleanoutMarkdownSyntax.
  destruct (codeBlockMatch content) as [g|] eqn:E.
  - apply codeBlockMatch_shape in E as [ws1 [lang [ws2 [ws3 [_ [_ [_ [_ ->]]]]]]]].
    exists (ws1 ++ str "```" ++ lang ++ [LF]), (LF :: ws2 ++ str "```" ++ ws3).
    rewrite <- !app_assoc. reflexivity.
  - exists [], []. rewrite app_nil_r. reflexivity.
Qed.

Lemma endsWith_app (a p : jsstring) : endsWith p (a ++ p) = true.
Proof.
  unfold endsWith. rewrite length_app.
  replace (length a + length p - length p) with (length a) by lia.
  rewrite skipn_app, skipn_all, Nat.sub_diag. simpl.
  rewrite eqs_refl, andb_true_r. apply Nat.leb_le. lia.
Qed.

Lemma trimEnd_spaces (a ws : jsstring) (x : ascii) :
  forallb isSpace ws = true -> isSpace x = false ->
  trimEnd (a ++ x :: ws) = a ++ [x].
Proof.
  intros Hw Hx. unfold trimEnd.
  rewrite rev_app_distr. cbn [rev]. rewrite <- app_assoc. cbn [app].
  rewrite (dropWhile_all isSpace (rev ws) x (rev a)).
  - cbn [rev]. rewrite rev_involutive. reflexivity.
  - rewrite forallb_forall in *. intros y Hy. apply Hw. apply in_rev. exact Hy.
  - exact Hx.
Qed.

(** X4.  Content that does not end, white space apart, with a closing
    fence is returned as it is: while the closing fence of a file has not
    arrived, the opening fence stays in the content. *)
Theorem cleanoutMarkdownSyntax_needs_closing_fence (content : jsstring) :
  endsWith (str "```") (trimEnd content) = false ->
  cleanoutMarkdownSyntax content = content.
Proof.
  intros H. unfold cleanoutMarkdownSyntax.
  destruct (codeBlockMatch content) as [g|] eqn:E; [|reflexivity].
  exfalso.
  apply codeBlockMatch_shape in E as [ws1 [lang [ws2 [ws3 [_ [_ [_ [H3 E]]]]]]]].
  set (pre := ws1 ++ str "```" ++ lang ++ LF :: g ++ LF :: ws2) in *.
  assert (content = (pre ++ str "``") ++ "`" :: ws3) as E'.
  { rewrite E. unfold pre. repeat (rewrite <- app_assoc; cbn [app]). reflexivity. }
  rewrite E' in H. rewrite (trimEnd_spaces _ ws3 "`" H3 eq_refl) in H.
  rewrite <- app_assoc in H. change (str "``" ++ ["`"]) with (str "```") in H.
  rewrite endsWith_app in H. discriminate.
Qed.

Lemma cleanoutMarkdownSyntax_needs_closing_fence_witness :
  cleanoutMarkdownSyntax (str "```ts" ++ LF :: str "const x")
  = str "```ts" ++ LF :: str "const x".
Proof.
  apply (cleanoutMarkdownSyntax_needs_closing_fence (str "```ts" ++ LF :: str "const x")).
  reflexivity.
Defined.

(** After white space, a closing fence followed by white space only: this
    is not met inside [b ++ LF :: ws2 ++ ``` ++ ws3] unless [b] is all
    white space. *)
Lemma closing_fence_inside (ws2 ws3 b : jsstring) :
  (let r2 := dropWhile isSpace (b ++ LF :: ws2 ++ str "```" ++ ws3) in
   prefixb (str "```") r2 &&
   match dropWhile isSpace (skipn 3 r2) with [] => true | _ => false end) = true ->
  forallb isSpace b = true.
Proof.
  induction b as [|x b IH]; [reflexivity|].
  cbn [app dropWhile forallb].
  destruct (isSpace x) eqn:Ex; [exact IH|].
  cbv zeta. intros H. exfalso. apply andb_true_iff in H as [H1 H2].
  change (str "```") with ["`"; "`"; "`"] in H1.
  cbn [prefixb] in H1.
  apply andb_true_iff in H1 as [_ H1].
  destruct b as [|y b]; [discriminate H1|].
  cbn [app prefixb] in H1. apply andb_true_iff in H1 as [_ H1].
  destruct b as [|z b]; [discriminate H1|].
  cbn [app skipn] in H2.
  destruct (dropWhile isSpace (b ++ LF :: ws2 ++ str "```" ++ ws3)) eqn:E;
    [|discriminate].
  apply dropWhile_nil_forallb in E. rewrite forallb_app in E.
  apply andb_true_iff in E as [_ E]. cbn [forallb] in E.
  apply andb_true_iff in E as [_ E]. rewrite forallb_app in E.
  apply andb_true_iff in E as [_ E]. discriminate E.
Qed.

Lemma lazyBody_whole (ws2 ws3 body : jsstring) :
  forallb isSpace ws2 = true -> forallb isSpace ws3 = true ->
  blankTail body = false ->
  lazyBody (body ++ LF :: ws2 ++ str "```" ++ ws3) = Some body.
Proof.
  intros H2 H3. induction body as [|c b IH]; intros H.
  - cbn [app lazyBody].
    assert (fenceTail (LF :: ws2 ++ str "```" ++ ws3) = true) as ->; [|reflexivity].
    unfold fenceTail. rewrite eqc_refl. cbn [andb].
    change (str "```" ++ ws3) with ("`" :: str "``" ++ ws3).
    rewrite (dropWhile_all isSpace ws2 "`" _ H2 eq_refl).
    change ("`" :: str "``" ++ ws3) with (str "```" ++ ws3).
    rewrite prefixb_app. change (skipn 3 (str "```" ++ ws3)) with ws3.
    destruct (dropWhile isSpace ws3) eqn:E; [reflexivity|].
    exfalso. clear - H3 E. induction ws3 as [|x w IHw]; [discriminate|].
    simpl in *. apply andb_true_iff in H3 as [Hx H3]. rewrite Hx in E. auto.
  - simpl in H. apply orb_false_iff in H as [Ha Hb].
    cbn [app lazyBody].
    destruct (fenceTail (c :: b ++ LF :: ws2 ++ str "```" ++ ws3)) eqn:E.
    + exfalso. unfold fenceTail in E. apply andb_true_iff in E as [E1 E2].
      apply closing_fence_inside in E2. rewrite E1, E2 in Ha. discriminate.
    + rewrite (IH Hb). reflexivity.
Qed.

(** X5.  A code fence with white space around it and before its closing
    fence is unwrapped to its body: the language tag is word characters,
    the body has no blank tail.  The white space before the opening fence
    and after the closing fence is dropped with the fences. *)
Theorem cleanoutMarkdownSyntax_unwraps (ws1 lang body ws2 ws3 : jsstring) :
  forallb isSpace ws1 = true -> forallb isWord lang = true ->
  forallb isSpace ws2 = true -> forallb isSpace ws3 = true ->
  blankTail body = false ->
  cleanoutMarkdownSyntax
    (ws1 ++ str "```" ++ lang ++ LF :: body ++ LF :: ws2 ++ str "```" ++ ws3)
  = body.
Proof.
  intros H1 Hl H2 H3 Hb. unfold cleanoutMarkdownSyntax, codeBlockMatch.
  change (str "```" ++ lang ++ LF :: body ++ LF :: ws2 ++ str "```" ++ ws3)
    with ("`" :: str "``" ++ lang ++ LF :: body ++ LF :: ws2 ++ str "```" ++ ws3).
  rewrite (dropWhile_all isSpace ws1 "`" _ H1 eq_refl).
  change ("`" :: str "``" ++ lang ++ LF :: body ++ LF :: ws2 ++ str "```" ++ ws3)
    with (str "```" ++ lang ++ LF :: body ++ LF :: ws2 ++ str "```" ++ ws3).
  rewrite prefixb_app.
  change (skipn 3 (str "```" ++ ?r)) with r.
  rewrite (dropWhile_all isWord lang LF _ Hl eq_refl).
  rewrite eqc_refl, (lazyBody_whole ws2 ws3 body H2 H3 Hb). reflexivity.
Qed.

Lemma cleanoutMarkdownSyntax_unwraps_witness :
  cleanoutMarkdownSyntax
    ([LF] ++ str "```" ++ str "ts" ++ LF :: str "const x=1;" ++ LF :: str "  "
     ++ str "```" ++ [LF])
  = str "const x=1;".
Proof.
  apply (cleanoutMarkdownSyntax_unwraps [LF] (str "ts") (str "const x=1;")
           (str "  ") [LF]); reflexivity.
Defined.

(* ================================================================== *)
(** ** File content on close *)
(* ================================================================== *)

Lemma unescapeFrom_skip (s : jsstring) :
  forall k, unescapeFrom k s = unescapeFrom 0 (skipn k s).
Proof.
  induction s as [|c s IH]; intros k.
  - rewrite skipn_nil. destruct k; reflexivity.
  - destruct k as [|k]; [reflexivity|]. cbn [skipn unescapeFrom]. apply IH.
Qed.

Lemma unescapeTags_cons (c : ascii) (s : jsstring) :
  unescapeTags (c :: s)
  = if prefixb (str "&lt;") (c :: s) then "<" :: unescapeTags (skipn 3 s)
    else if prefixb (str "&gt;") (c :: s) then ">" :: unescapeTags (skipn 3 s)
    else c :: unescapeTags s.
Proof.
  unfold unescapeTags. cbn [unescapeFrom].
  destruct (prefixb (str "&lt;") (c :: s)); [rewrite unescapeFrom_skip; reflexivity|].
  destruct (prefixb (str "&gt;") (c :: s)); [rewrite unescapeFrom_skip|]; reflexivity.
Qed.

(** The two replacements of [cleanEscapedTags], one after the other, are
    the one pass: replacing [&lt;] neither makes nor breaks an [&gt;]. *)
Lemma cleanEscapedTags_unescapeTags (content : jsstring) :
  cleanEscapedTags content = unescapeTags content.
Proof.
  assert (forall n s, length s <= n -> cleanEscapedTags s = unescapeTags s) as H.
  { induction n as [|n IH]; intros s Hl.
    - destruct s; [reflexivity | simpl in Hl; lia].
    - destruct s as [|c s]; [reflexivity|]. simpl in Hl.
      rewrite unescapeTags_cons. unfold cleanEscapedTags.
      rewrite (replaceAll_cons (str "&lt;")).
      destruct (prefixb (str "&lt;") (c :: s)) eqn:E1.
      + change (length (str "&lt;") - 1) with 3.
        change (str "<") with ["<"]. cbn [app].
        rewrite replaceAll_cons.
        change (prefixb (str "&gt;")
                  ("<" :: replaceAll (str "&lt;") ["<"] (skipn 3 s))) with false.
        cbv iota. f_equal. apply IH. rewrite length_skipn. lia.
      + destruct (prefixb (str "&gt;") (c :: s)) eqn:E2.
        * clear E1. change (str "&gt;") with ["&"; "g"; "t"; ";"] in E2.
          destruct s as [|c1 [|c2 [|c3 r]]]; cbn [prefixb] in E2;
            rewrite ?andb_false_r in E2; try discriminate E2.
          apply andb_true_iff in E2 as [Ec E2]. apply eqc_eq in Ec. subst c.
          apply andb_true_iff in E2 as [Ec E2]. apply eqc_eq in Ec. subst c1.
          apply andb_true_iff in E2 as [Ec E2]. apply eqc_eq in Ec. subst c2.
          apply andb_true_iff in E2 as [Ec _]. apply eqc_eq in Ec. subst c3.
          rewrite !(replaceAll_cons (str "&lt;")). 
          change (prefixb (str "&lt;") ("g" :: "t" :: ";" :: r)) with false.
          change (prefixb (str "&lt;") ("t" :: ";" :: r)) with false.
          change (prefixb (str "&lt;") (";" :: r)) with false.
          cbv iota.
          rewrite (replaceAll_cons (str "&gt;")).
          change (prefixb (str "&gt;")
                    ("&" :: "g" :: "t" :: ";" :: replaceAll (str "&lt;") (str "<") r))
            with true.
          cbv iota. change (length (str "&gt;") - 1) with 3.
          change (str ">") with [">"]. cbn [skipn app].
          f_equal. apply IH. simpl in Hl. lia.
        * rewrite (replaceAll_cons (str "&gt;")).
          destruct (prefixb (str "&gt;") (c :: replaceAll (str "&lt;") (str "<") s)) eqn:E3.
          -- exfalso.
             change (str "&gt;") with ("&" :: str "gt;") in E2, E3. cbn [prefixb] in E2, E3.
             apply andb_true_iff in E3 as [Ec E3]. rewrite Ec in E2. cbn [andb] in E2.
             apply (replaceAll_prefix (str "&lt;") (str "<") (str "gt;")) in E3;
               [congruence | discriminate |].
             intros y Hy [<-|[]]. simpl in Hy. intuition discriminate.
          -- f_equal. apply IH. lia. }
  apply (H (length content)). lia.
Qed.

Lemma trim_between (ws1 ws2 m : jsstring) (x y : ascii) :
  forallb isSpace ws1 = true -> forallb isSpace ws2 = true ->
  isSpace x = false -> isSpace y = false ->
  trim (ws1 ++ (x :: m ++ [y]) ++ ws2) = x :: m ++ [y].
Proof.
  intros H1 H2 Hx Hy. unfold trim, trimStart. cbn [app].
  rewrite (dropWhile_all isSpace ws1 x _ H1 Hx).
  rewrite <- app_assoc. cbn [app].
  change (x :: m ++ y :: ws2) with ((x :: m) ++ y :: ws2).
  rewrite (trimEnd_spaces _ ws2 y H2 Hy). reflexivity.
Qed.

(** The content of a file, trimmed: white space around a code fence goes,
    and the fence stays. *)
Lemma trim_fence (ws1 lang body ws2 : jsstring) :
  forallb isSpace ws1 = true -> forallb isSpace ws2 = true ->
  trim (ws1 ++ fence lang body ++ ws2) = fence lang body.
Proof.
  intros H1 H2.
  assert (fence lang body
          = "`" :: ("`" :: "`" :: lang ++ LF :: body ++ [LF; "`"; "`"]) ++ ["`"]) as ->.
  { unfold fence. change (str "```") with ["`"; "`"; "`"]. cbn [app]. do 3 f_equal.
    rewrite <- app_assoc. cbn [app]. do 2 f_equal. rewrite <- app_assoc. reflexivity. }
  apply trim_between; [exact H1 | exact H2 | reflexivity | reflexivity].
Qed.

(** C5, counterexample.  File content that is a code fence with the
    language tag [c++], for the path [a.cpp]: the pattern of
    [cleanoutMarkdownSyntax] takes word characters as the tag, the fence is
    not unwrapped, and the content on close is the fence itself with a
    line feed, not the body with a line feed. *)
Lemma fence_with_other_tag_is_kept :
  eventsOf (parse (freshParser None) m1
              (fileActionText "a.cpp" (fence (str "c++") (str "int x;"))))
  = [onArtifactOpen (mkArtifactData m1 a1);
     onActionOpen
       (mkActionData (Some (str "a1")) m1 (str "0")
          (mkAction (FileAction (Some (str "a.cpp"))) []));
     onActionClose
       (mkActionData (Some (str "a1")) m1 (str "0")
          (mkAction (FileAction (Some (str "a.cpp")))
             (fence (str "c++") (str "int x;") ++ [LF])))]
  /\ fence (str "c++") (str "int x;") ++ [LF] <> str "int x;" ++ [LF].
Proof. split; [vm_compute; reflexivity | discriminate]. Qed.

(** C5, amended.  Inside a file action with the path [p], when the close
    tag is found at [closeIndex] and the content gathered up to it is,
    white space at its ends apart, a code fence whose language tag is
    word characters and whose body has no blank tail, the pass closes the
    action and makes the action-close callback (one call, when the
    options hold the callback) whose content is, for a path that does not
    end in [.md], the body with each [&lt;] read as [<] and each [&gt;] as
    [>], and a line feed; and for a path that ends in [.md], the fence
    itself, which is the content trimmed, and a line feed. *)
Theorem fenced_file_content_on_close (artifactElement : option (jsstring -> jsstring))
  (callbacks : option ParserCallbacks.t)
  (messageId input : jsstring) (st : MessageState) (a : BoltArtifactData)
  (i closeIndex : nat) (p c0 ws1 lang body ws2 : jsstring) :
  insideArtifact st = true -> currentArtifact st = Some a -> insideAction st = true ->
  currentAction st = mkAction (FileAction (Some p)) c0 ->
  quickActionsBlock input i = None ->
  indexOf ARTIFACT_ACTION_TAG_CLOSE input i = Some closeIndex ->
  c0 ++ slice input i closeIndex = ws1 ++ fence lang body ++ ws2 ->
  forallb isSpace ws1 = true -> forallb isSpace ws2 = true ->
  forallb isWord lang = true -> blankTail body = false ->
  exists st',
    step artifactElement callbacks messageId input st i
    = Continue st' (closeIndex + length ARTIFACT_ACTION_TAG_CLOSE) []
        (callback callbacks
           (onActionClose
              (mkActionData (id a) messageId (String_of_Z (actionId st - 1))
                 (mkAction (FileAction (Some p))
                    ((if endsWith (str ".md") p then fence lang body
                      else unescapeTags body) ++ [LF])))))
    /\ insideAction st' = false /\ currentAction st' = emptyAction.
Proof.
  intros Ha Hc Hi Hact Hq Hclose Hcontent H1 H2 Hl Hb.
  unfold step. rewrite Hq, Ha, Hc, Hi.
  unfold stepInsideAction. rewrite Hclose, Hact. cbn [fields content].
  rewrite Hcontent, (trim_fence ws1 lang body ws2 H1 H2).
  unfold cleanFileContent, actionEvent.
  rewrite (cleanoutMarkdownSyntax_fence lang body Hl Hb), cleanEscapedTags_unescapeTags.
  eexists. split; [|split].
  - destruct (endsWith (str ".md") p); cbn [negb]; reflexivity.
  - reflexivity.
  - reflexivity.
Qed.

Lemma fenced_file_content_on_close_witness :
  exists st',
    step None allCallbacks m1
      (fileActionText "a.ts" ([LF] ++ fence (str "ts") (str "a &lt; b &gt; c") ++ [LF]))
      (fileOpenState "a.ts") 87
    = Continue st' (114 + length ARTIFACT_ACTION_TAG_CLOSE) []
        [onActionClose
           (mkActionData (id a1) m1 (str "0")
              (mkAction (FileAction (Some (str "a.ts"))) (str "a < b > c" ++ [LF])))]
    /\ insideAction st' = false /\ currentAction st' = emptyAction.
Proof.
  apply (fenced_file_content_on_close None allCallbacks m1
           (fileActionText "a.ts" ([LF] ++ fence (str "ts") (str "a &lt; b &gt; c") ++ [LF]))
           (fileOpenState "a.ts") a1 87 114 (str "a.ts") [] [LF] (str "ts")
           (str "a &lt; b &gt; c") [LF]);
    vm_compute; reflexivity.
Defined.

(* ================================================================== *)
(** ** extractAttribute *)
(* ================================================================== *)

(** Only the double quote matches the double quote, and only the letters
    match letters. *)
Lemma lowerc_quote (c : ascii) : lowerc c = dq -> c = dq.
Proof.
  destruct c as [[] [] [] [] [] [] [] []]; vm_compute; intros H;
    solve [reflexivity | discriminate H].
Qed.

Lemma lowerc_equals (c : ascii) : lowerc c = "=" -> c = "=".
Proof.
  destruct c as [[] [] [] [] [] [] [] []]; vm_compute; intros H;
    solve [reflexivity | discriminate H].
Qed.

Lemma prefixci_spec (p s : jsstring) :
  prefixci p s = true <-> exists n r, s = n ++ r /\ map lowerc n = map lowerc p.
Proof.
  revert s; induction p as [|x p IH]; intros s; cbn [prefixci].
  - split; [intros _; exists [], s; split; reflexivity | reflexivity].
  - destruct s as [|y s].
    + split; [discriminate|].
      intros [n [r [H1 H2]]]. destruct n; [discriminate H2 | discriminate H1].
    + unfold eqci. rewrite andb_true_iff, eqc_eq, IH. split.
      * intros [Hx [n [r [-> Hn]]]]. exists (y :: n), r. split; [reflexivity|].
        simpl. congruence.
      * intros [n [r [H1 H2]]]. destruct n as [|z n]; [discriminate H2|].
        simpl in H1, H2. injection H1 as <- ->. injection H2 as Hz Hn.
        split; [congruence|]. exists n, r. split; [reflexivity | exact Hn].
Qed.

Lemma untilQuote_spec (s v : jsstring) :
  untilQuote s = Some v <-> exists post, s = v ++ dq :: post /\ ~ In dq v.
Proof.
  revert v; induction s as [|c s IH]; intros v; cbn [untilQuote].
  - split; [discriminate|]. intros [post [H _]]. destruct v; discriminate H.
  - destruct (eqc c dq) eqn:E.
    + apply eqc_eq in E. subst c. split.
      * intros [= <-]. exists s. split; [reflexivity | intros []].
      * intros [post [H Hv]]. destruct v as [|x v]; [reflexivity|].
        simpl in H. injection H as <- _. exfalso. apply Hv. left; reflexivity.
    + split.
      * destruct (untilQuote s) as [v'|] eqn:Eu; [|discriminate].
        intros [= <-]. destruct (proj1 (IH v') eq_refl) as [post [-> Hv]].
        exists post. split; [reflexivity|].
        intros [H|H]; [|exact (Hv H)]. subst c. rewrite eqc_refl in E. discriminate.
      * intros [post [H Hv]]. destruct v as [|x v].
        { simpl in H. injection H as -> _. rewrite eqc_refl in E. discriminate. }
        simpl in H. injection H as <- ->.
        assert (untilQuote (v ++ dq :: post) = Some v) as ->; [|reflexivity].
        apply IH. exists post. split; [reflexivity|].
        intros Hin. apply Hv. right; exact Hin.
Qed.

(** A match at the head of the text: the name in any case, the equals
    sign, and the value between double quotes. *)
Lemma attrMatchAt_spec (name s v : jsstring) :
  attrMatchAt name s = Some v ->
  exists n post,
    s = n ++ "=" :: dq :: v ++ dq :: post
    /\ map lowerc n = map lowerc name /\ ~ In dq v.
Proof.
  unfold attrMatchAt.
  destruct (prefixci (name ++ ["="; dq]) s) eqn:E; [|discriminate].
  apply prefixci_spec in E as [n0 [r [-> Hn]]].
  rewrite map_app in Hn. apply map_eq_app in Hn as [n [t [-> [Hn Ht]]]].
  destruct t as [|a [|b [|? ?]]]; try discriminate Ht.
  simpl in Ht. injection Ht as Ha Hb.
  apply lowerc_equals in Ha. apply lowerc_quote in Hb. subst a b.
  assert (length n = length name) as Hl
      by (rewrite <- (length_map lowerc n), Hn, length_map; reflexivity).
  rewrite <- Hl. rewrite <- app_assoc.
  replace (length n + 2) with (length (n ++ ["="; dq])) by (rewrite length_app; simpl; lia).
  rewrite app_assoc, skipn_app, skipn_all, Nat.sub_diag. cbn [app skipn].
  intros Hu. apply untilQuote_spec in Hu as [post [-> Hv]].
  exists n, post. rewrite <- app_assoc. repeat split; [exact Hn | exact Hv].
Qed.

Lemma attrSearch_eq (name s : jsstring) :
  attrSearch name s
  = match attrMatchAt name s with
    | Some v => Some v
    | None => match s with
              | [] => None
              | _ :: s' => attrSearch name s'
              end
    end.
Proof. destruct s; reflexivity. Qed.

Lemma attrSearch_sound (name s v : jsstring) :
  attrSearch name s = Some v ->
  exists pre n post,
    s = pre ++ n ++ "=" :: dq :: v ++ dq :: post
    /\ map lowerc n = map lowerc name /\ ~ In dq v.
Proof.
  induction s as [|c s IH]; rewrite attrSearch_eq.
  - destruct (attrMatchAt name []) as [v'|] eqn:E; [|discriminate].
    intros [= ->]. apply attrMatchAt_spec in E as [n [post [H1 H2]]].
    exists [], n, post. split; [exact H1 | exact H2].
  - destruct (attrMatchAt name (c :: s)) as [v'|] eqn:E.
    + intros [= ->]. apply attrMatchAt_spec in E as [n [post [H1 H2]]].
      exists [], n, post. split; [exact H1 | exact H2].
    + intros H. destruct (IH H) as [pre [n [post [-> H2]]]].
      exists (c :: pre), n, post. split; [reflexivity | exact H2].
Qed.

Lemma existsb_In (s : jsstring) (c : ascii) :
  existsb (eqc c) s = false -> ~ In c s.
Proof.
  induction s as [|x s IH]; simpl; [intros _ []|].
  rewrite orb_false_iff. intros [H1 H2] [H|H]; [|exact (IH H2 H)].
  subst x. rewrite eqc_refl in H1. discriminate.
Qed.

Lemma In_existsb (s : jsstring) (c : ascii) :
  ~ In c s -> existsb (eqc c) s = false.
Proof.
  induction s as [|x s IH]; simpl; [reflexivity|]. intros H.
  rewrite IH by (intros Hin; apply H; right; exact Hin).
  rewrite eqc_neq; [reflexivity|]. intros ->. apply H. left; reflexivity.
Qed.

(** X6.  A value that [extractAttribute] returns stands in the tag
    between double quotes, after an equals sign and the attribute name in
    any case; it holds no double quote. *)
Theorem extractAttribute_value_is_quoted (tag : jsstring) (name : string)
  (v : jsstring) :
  extractAttribute tag name = Some v ->
  exists pre n post,
    tag = pre ++ n ++ "=" :: dq :: v ++ dq :: post
    /\ sameName n name = true /\ hasQuote v = false.
Proof.
  intros H. apply attrSearch_sound in H as [pre [n [post [H1 [H2 H3]]]]].
  exists pre, n, post. split; [exact H1|]. split.
  - unfold sameName. rewrite H2. apply eqs_refl.
  - apply In_existsb. exact H3.
Qed.

Lemma extractAttribute_value_is_quoted_witness :
  exists pre n post,
    qstr "<boltAction type='file' filePath='a.ts'>"
    = pre ++ n ++ "=" :: dq :: str "a.ts" ++ dq :: post
    /\ sameName n "filePath" = true /\ hasQuote (str "a.ts") = false.
Proof.
  apply (extractAttribute_value_is_quoted
           (qstr "<boltAction type='file' filePath='a.ts'>") "filePath" (str "a.ts")).
  reflexivity.
Defined.

(** No match begins where the double quote that the pattern needs would
    fall before the first double quote of the text. *)
Lemma attrMatchAt_before_quote (name l r : jsstring) :
  ~ In dq l -> length name + 2 <= length l -> attrMatchAt name (l ++ r) = None.
Proof.
  intros Hq Hl. unfold attrMatchAt.
  destruct (prefixci (name ++ ["="; dq]) (l ++ r)) eqn:E; [|reflexivity].
  exfalso. apply prefixci_spec in E as [n0 [r0 [E Hn]]].
  assert (length n0 = length name + 2) as Hl0.
  { rewrite <- (length_map lowerc n0), Hn, length_map, length_app. reflexivity. }
  assert (In dq n0) as Hin.
  { rewrite map_app in Hn. apply map_eq_app in Hn as [n [t [-> [_ Ht]]]].
    destruct t as [|a [|b [|? ?]]]; try discriminate Ht.
    simpl in Ht. injection Ht as _ Hb. apply lowerc_quote in Hb. subst b.
    apply in_or_app. right. right. left. reflexivity. }
  apply Hq.
  assert (firstn (length n0) l = n0) as F.
  { assert (firstn (length n0) (l ++ r) = firstn (length n0) (n0 ++ r0)) as F
        by (rewrite E; reflexivity).
    rewrite firstn_app in F.
    replace (length n0 - length l) with 0 in F by lia.
    rewrite firstn_O, app_nil_r in F. rewrite F.
    rewrite firstn_app, Nat.sub_diag, firstn_O, app_nil_r, firstn_all. reflexivity. }
  rewrite <- (firstn_skipn (length n0) l). apply in_or_app. left.
  rewrite F. exact Hin.
Qed.

(** The first quoted attribute of a text, when its name is the name that
    is looked for, gives the value. *)
Lemma attrSearch_first_quoted (name pre n v post : jsstring) :
  ~ In dq pre -> ~ In dq n -> ~ In dq v -> map lowerc n = map lowerc name ->
  attrSearch name (pre ++ n ++ "=" :: dq :: v ++ dq :: post) = Some v.
Proof.
  intros Hp Hn Hv Hm.
  assert (length n = length name) as Hl
      by (rewrite <- (length_map lowerc n), Hm, length_map; reflexivity).
  induction pre as [|c pre IH].
  - cbn [app]. rewrite attrSearch_eq.
    assert (attrMatchAt name (n ++ "=" :: dq :: v ++ dq :: post) = Some v) as ->;
      [|reflexivity].
    unfold attrMatchAt.
    assert (prefixci (name ++ ["="; dq]) (n ++ "=" :: dq :: v ++ dq :: post) = true) as ->.
    { apply prefixci_spec. exists (n ++ ["="; dq]), (v ++ dq :: post).
      split; [rewrite <- app_assoc; reflexivity|].
      rewrite !map_app, Hm. reflexivity. }
    rewrite <- Hl.
    replace (n ++ "=" :: dq :: v ++ dq :: post) with ((n ++ ["="; dq]) ++ v ++ dq :: post)
      by (rewrite <- app_assoc; reflexivity).
    replace (length n + 2) with (length (n ++ ["="; dq]))
      by (rewrite length_app; simpl; lia).
    rewrite skipn_app, skipn_all, Nat.sub_diag. cbn [app skipn].
    apply untilQuote_spec. exists post. split; [reflexivity | exact Hv].
  - cbn [app]. rewrite attrSearch_eq.
    assert (attrMatchAt name (c :: pre ++ n ++ "=" :: dq :: v ++ dq :: post) = None) as ->.
    { replace (c :: pre ++ n ++ "=" :: dq :: v ++ dq :: post)
        with ((c :: pre ++ n ++ ["="]) ++ dq :: v ++ dq :: post)
        by (cbn [app]; rewrite <- !app_assoc; reflexivity).
      apply attrMatchAt_before_quote.
      - intros [H|H]; [subst c; apply Hp; left; reflexivity|].
        apply in_app_or in H as [H|H]; [apply Hp; right; exact H|].
        apply in_app_or in H as [H|[H|[]]]; [exact (Hn H) | discriminate H].
      - simpl. rewrite !length_app. simpl. lia. }
    apply IH. intros H. apply Hp. right; exact H.
Qed.

Lemma sameName_no_quote (n : jsstring) (name : string) :
  isName name = true -> sameName n name = true ->
  map lowerc n = map lowerc (str name) /\ ~ In dq n.
Proof.
  unfold isName, sameName. intros Hn Hs. apply eqs_eq in Hs. split; [exact Hs|].
  intros Hin. apply (in_map lowerc) in Hin. rewrite Hs in Hin.
  apply in_map_iff in Hin as [d [Hd Hin]].
  change (lowerc dq) with dq in Hd. apply lowerc_quote in Hd. subst d.
  rewrite forallb_forall in Hn. specialize (Hn dq Hin). discriminate Hn.
Qed.

Lemma extractAttribute_first (name : string) (pre n v post : jsstring) :
  isName name = true -> sameName n name = true ->
  hasQuote pre = false -> hasQuote v = false ->
  extractAttribute (pre ++ n ++ "=" :: dq :: v ++ dq :: post) name = Some v.
Proof.
  intros Hname Hsame Hp Hv.
  destruct (sameName_no_quote n name Hname Hsame) as [Hm Hn].
  apply attrSearch_first_quoted; try assumption; apply existsb_In; assumption.
Qed.

(** X7.  The first quoted attribute of a tag gives the value of every
    name that its own name ends with, letters compared without case: the
    name is looked for anywhere in the tag, so that [screenType='page']
    written before [type='screen'] is what [type] reads. *)
Theorem extractAttribute_first_quoted (name : string) (pre n v post : jsstring) :
  isName name = true -> sameName n name = true ->
  hasQuote pre = false -> hasQuote v = false ->
  extractAttribute (pre ++ n ++ "=" :: dq :: v ++ dq :: post) name = Some v.
Proof. apply extractAttribute_first. Qed.

Lemma extractAttribute_first_quoted_witness :
  extractAttribute
    (qstr "<boltAction screen" ++ str "Type" ++ "=" :: dq :: str "page" ++ dq
       :: qstr " type='screen' screenId='s' screenName='n'>") "type"
  = Some (str "page").
Proof.
  apply (extractAttribute_first_quoted "type" (qstr "<boltAction screen") (str "Type")
           (str "page") (qstr " type='screen' screenId='s' screenName='n'>"));
    reflexivity.
Defined.

(* ================================================================== *)
(** ** The records of parseActionTag *)
(* ================================================================== *)

(** X8.  The type of an action is what [extractAttribute] reads for
    [type]: when the first quoted attribute of the tag has a name that
    ends with [type], as [screenType], [componentType] or
    [navigationType] do, and its value is none of the five typed kinds,
    the tag gives a record with that value as its type and no other
    field, and no error, whatever attributes follow. *)
Theorem action_type_is_first_match (input : jsstring) (o e : nat)
  (pre n v post : jsstring) :
  slice input o (e + 1) = pre ++ n ++ "=" :: dq :: v ++ dq :: post ->
  sameName n "type" = true -> hasQuote pre = false -> hasQuote v = false ->
  existsb (eqs v) typedKinds = false ->
  parseActionTag input o e = Ok (mkAction (OtherAction (Some v)) []).
Proof.
  intros Hs Hn Hp Hv Hk. unfold parseActionTag. rewrite Hs.
  rewrite (extractAttribute_first "type" pre n v post eq_refl Hn Hp Hv).
  unfold typedKinds in Hk. cbn [existsb] in Hk.
  repeat (apply orb_false_iff in Hk as [? Hk]).
  unfold isType.
  repeat match goal with H : eqs v _ = false |- _ => rewrite H; clear H end.
  reflexivity.
Qed.

Lemma action_type_is_first_match_witness :
  parseActionTag
    (qstr "<boltAction screenType='page' type='screen' screenId='s' screenName='n'>") 0 71
  = Ok (mkAction (OtherAction (Some (str "page"))) []).
Proof.
  apply (action_type_is_first_match
           (qstr "<boltAction screenType='page' type='screen' screenId='s' screenName='n'>")
           0 71 (qstr "<boltAction screen") (str "Type") (str "page")
           (qstr " type='screen' screenId='s' screenName='n'>"));
    reflexivity.
Defined.

Lemma truthy_nonEmpty (v : option jsstring) : nonEmpty (orEmpty v) = truthy v.
Proof. destruct v as [[|c s]|]; reflexivity. Qed.

Lemma truthy_isSome (v : option jsstring) : truthy v = true -> isSome v = true.
Proof. destruct v as [[|c s]|]; try discriminate; reflexivity. Qed.

(** X9.  A record that [parseActionTag] returns has empty content and,
    with one exception, the fields that its kind requires: a supabase
    record has the operation [migration] with a file path that is not
    empty or the operation [query] without one; a screen, navigation or
    component record has its required names and types, none empty; a
    record of another type has none of the five typed kinds as its type.
    The exception is the file record: it is returned without its required
    [filePath] when nothing is read for it from the tag. *)
Theorem parseActionTag_record (input : jsstring) (o e : nat) (a : BoltActionData) :
  parseActionTag input o e = Ok a ->
  content a = []
  /\ (requiredPresent (fields a) = true
      \/ (fields a = FileAction None
          /\ extractAttribute (slice input o (e + 1)) "filePath" = None)).
Proof.
  unfold parseActionTag.
  set (tag := slice input o (e + 1)).
  destruct (isType (extractAttribute tag "type") "supabase") eqn:E1.
  { destruct (negb (truthy (extractAttribute tag "operation"))
              || negb (existsb (eqs (orEmpty (extractAttribute tag "operation")))
                         [str "migration"; str "query"])) eqn:E2; [discriminate|].
    apply orb_false_iff in E2 as [E2 E3].
    apply negb_false_iff in E2, E3.
    destruct (eqs (orEmpty (extractAttribute tag "operation")) (str "migration")) eqn:E4.
    - destruct (negb (truthy (extractAttribute tag "filePath"))) eqn:E5; [discriminate|].
      apply negb_false_iff in E5. intros [= <-]. cbn [fields content requiredPresent].
      rewrite E4, E5. split; [|left]; reflexivity.
    - intros [= <-]. cbn [fields content requiredPresent].
      cbn [existsb] in E3. rewrite E4 in E3. rewrite orb_false_r in E3.
      cbn [orb] in E3. rewrite E3, E4. split; [|left]; reflexivity. }
  destruct (isType (extractAttribute tag "type") "file") eqn:E2.
  { intros [= <-]. cbn [fields content requiredPresent]. split; [reflexivity|].
    destruct (extractAttribute tag "filePath") as [q|]; [left | right; split];
      reflexivity. }
  destruct (isType (extractAttribute tag "type") "screen") eqn:E3.
  { match goal with |- context [if ?b then _ else _] => destruct b eqn:E end;
      [discriminate|].
    repeat (apply orb_false_iff in E as [E ?]).
    repeat match goal with H : negb _ = false |- _ => apply negb_false_iff in H end.
    intros [= <-]. cbn [fields content requiredPresent].
    rewrite !truthy_nonEmpty.
    repeat match goal with H : truthy _ = true |- _ => rewrite H; clear H end.
    split; [|left]; reflexivity. }
  destruct (isType (extractAttribute tag "type") "navigation") eqn:E4.
  { match goal with |- context [if ?b then _ else _] => destruct b eqn:E end;
      [discriminate|].
    repeat (apply orb_false_iff in E as [E ?]).
    repeat match goal with H : negb _ = false |- _ => apply negb_false_iff in H end.
    intros [= <-]. cbn [fields content requiredPresent].
    rewrite !truthy_nonEmpty.
    repeat match goal with H : truthy _ = true |- _ => rewrite H; clear H end.
    split; [|left]; reflexivity. }
  destruct (isType (extractAttribute tag "type") "component") eqn:E5.
  { match goal with |- context [if ?b then _ else _] => destruct b eqn:E end;
      [discriminate|].
    repeat (apply orb_false_iff in E as [E ?]).
    repeat match goal with H : negb _ = false |- _ => apply negb_false_iff in H end.
    intros [= <-]. cbn [fields content requiredPresent].
    rewrite !truthy_nonEmpty.
    repeat match goal with H : truthy _ = true |- _ => rewrite H; clear H end.
    split; [|left]; reflexivity. }
  intros [= <-]. cbn [fields content requiredPresent]. split; [reflexivity|]. left.
  destruct (extractAttribute tag "type") as [t|]; [|reflexivity].
  unfold isType in *. cbn [orEmpty typedKinds existsb].
  rewrite E1, E2, E3, E4, E5. reflexivity.
Qed.

Lemma parseActionTag_record_witness :
  content (mkAction (ScreenAction (str "s") (str "n") (str "page") None None None
                       (Some (JSON.JArray [JSON.JNumber (str "1"); JSON.JNumber (str "2")])))
             []) = []
  /\ (requiredPresent
        (fields (mkAction (ScreenAction (str "s") (str "n") (str "page") None None None
                             (Some (JSON.JArray [JSON.JNumber (str "1");
                                                 JSON.JNumber (str "2")])))
                   []))
      = true
      \/ (fields (mkAction (ScreenAction (str "s") (str "n") (str "page") None None None
                              (Some (JSON.JArray [JSON.JNumber (str "1");
                                                  JSON.JNumber (str "2")])))
                    [])
          = FileAction None
          /\ extractAttribute
               (slice screenArrayTag 0 (length screenArrayTag - 1 + 1)) "filePath"
             = None)).
Proof.
  apply (parseActionTag_record screenArrayTag 0 (length screenArrayTag - 1)).
  vm_compute. reflexivity.
Defined.

(** The file record without its path: the tag of a file action that
    carries no [filePath]. *)
Example file_record_without_path :
  recordOf (qstr "<boltAction type='file'>") = Ok (mkAction (FileAction None) [])
  /\ requiredPresent (FileAction None) = false.
Proof. split; vm_compute; reflexivity. Qed.

(** *** The list attributes *)

Lemma split_nonempty (sep : ascii) (s : jsstring) : split sep s <> [].
Proof.
  induction s as [|c s IH]; simpl; [discriminate|].
  destruct (eqc c sep); [discriminate|]. destruct (split sep s); discriminate.
Qed.

Lemma split_no_sep (sep : ascii) (s w : jsstring) :
  In w (split sep s) -> ~ In sep w.
Proof.
  revert w; induction s as [|c s IH]; intros w; simpl.
  - intros [<-|[]] [].
  - destruct (eqc c sep) eqn:E.
    + intros [<-|H]; [intros [] | apply IH; exact H].
    + destruct (split sep s) as [|w0 ws].
      * intros [<-|[]] [H|[]]. subst c. rewrite eqc_refl in E. discriminate.
      * intros [<-|H].
        -- intros [H|H]; [subst c; rewrite eqc_refl in E; discriminate|].
           apply (IH w0); [left; reflexivity | exact H].
        -- apply IH. right; exact H.
Qed.

Lemma dropWhile_incl (f : ascii -> bool) (s : jsstring) (c : ascii) :
  In c (dropWhile f s) -> In c s.
Proof.
  induction s as [|x s IH]; simpl; [intros []|].
  destruct (f x); [intros H; right; apply IH; exact H | intros H; exact H].
Qed.

Lemma trim_incl (s : jsstring) (c : ascii) : In c (trim s) -> In c s.
Proof.
  unfold trim, trimEnd, trimStart. intros H.
  apply in_rev in H. apply dropWhile_incl in H. apply in_rev in H.
  apply dropWhile_incl in H. exact H.
Qed.

Lemma dropWhile_idem (f : ascii -> bool) (s : jsstring) :
  dropWhile f (dropWhile f s) = dropWhile f s.
Proof.
  induction s as [|x s IH]; simpl; [reflexivity|].
  destruct (f x) eqn:E; [exact IH | simpl; rewrite E; reflexivity].
Qed.

Lemma dropWhile_head (f : ascii -> bool) (s : jsstring) (x : ascii) (r : jsstring) :
  dropWhile f s = x :: r -> f x = false.
Proof.
  induction s as [|y s IH]; simpl; [discriminate|].
  destruct (f y) eqn:E; [exact IH | intros [= <- _]; exact E].
Qed.

Lemma dropWhile_stop (f : ascii -> bool) (l : jsstring) (x : ascii) (r : jsstring) :
  f x = false -> dropWhile f (l ++ x :: r) = dropWhile f l ++ x :: r.
Proof.
  intros Hx. induction l as [|c l IH]; simpl; [rewrite Hx; reflexivity|].
  destruct (f c); [exact IH | reflexivity].
Qed.

(** [trim] leaves no white space at either end: trimming again changes
    nothing. *)
Lemma trim_idem (s : jsstring) : trim (trim s) = trim s.
Proof.
  unfold trim, trimStart. set (u := dropWhile isSpace s).
  assert (dropWhile isSpace (trimEnd u) = trimEnd u) as ->.
  { destruct u as [|x u'] eqn:Eu; [reflexivity|].
    pose proof (dropWhile_head isSpace s x u' Eu) as Hx.
    unfold trimEnd. cbn [rev]. rewrite (dropWhile_stop isSpace _ x [] Hx).
    rewrite rev_app_distr. cbn [rev app dropWhile]. rewrite Hx. reflexivity. }
  unfold trimEnd. rewrite rev_involutive, dropWhile_idem. reflexivity.
Qed.

Lemma optionalList_entries (v : option jsstring) : isEntryList (optionalList v) = true.
Proof.
  unfold optionalList. destruct (truthy v); [|reflexivity].
  unfold commaList, isEntryList.
  pose proof (split_nonempty "," (orEmpty v)) as Hn.
  pose proof (split_no_sep "," (orEmpty v)) as Hs.
  destruct (split "," (orEmpty v)) as [|w ws]; [congruence|].
  change (map trim (w :: ws)) with (trim w :: map trim ws).
  apply forallb_forall. intros x Hx.
  change (trim w :: map trim ws) with (map trim (w :: ws)) in Hx.
  apply in_map_iff in Hx as [y [<- Hy]].
  unfold isEntry. rewrite trim_idem, eqs_refl. cbn [andb].
  apply negb_true_iff. apply In_existsb.
  intros Hin. apply trim_incl in Hin. exact (Hs y Hy Hin).
Qed.

(** X10.  The list fields of a record ([dependencies] of a screen;
    [usedByScreens], [exports] and [imports] of a component) are absent
    or hold at least one entry, and every entry is free of commas and of
    white space at its ends: an attribute with the empty value gives no
    field, not an empty list. *)
Theorem parseActionTag_lists (input : jsstring) (o e : nat) (a : BoltActionData) :
  parseActionTag input o e = Ok a -> listFields (fields a) = true.
Proof.
  unfold parseActionTag.
  repeat match goal with
         | |- context [if ?b then _ else _] => destruct b
         end;
    try discriminate; intros [= <-]; cbn [fields listFields];
    rewrite ?optionalList_entries; reflexivity.
Qed.

Lemma parseActionTag_lists_witness :
  listFields
    (fields (mkAction (ScreenAction (str "s") (str "n") (str "page") None None
                         (Some [str "react"; str "zod"]) None) []))
  = true.
Proof.
  apply (parseActionTag_lists
           (qstr "<boltAction type='screen' screenId='s' screenName='n' screenType='page' dependencies=' react , zod'>")
           0 102).
  vm_compute. reflexivity.
Defined.

(* ================================================================== *)
(** ** What the state of a message keeps *)
(* ================================================================== *)

Lemma parseActionTag_content (input : jsstring) (o e : nat) (a : BoltActionData) :
  parseActionTag input o e = Ok a -> content a = [].
Proof.
  unfold parseActionTag.
  repeat match goal with
         | |- context [if ?b then _ else _] => destruct b
         end;
    try discriminate; intros [= <-]; reflexivity.
Qed.

Lemma settled_initial : settled initialState.
Proof.
  split; [exact wf_initial|]. split; [reflexivity | left; reflexivity].
Qed.

Lemma settled_set_position (st : MessageState) (i : nat) :
  settled st -> settled (set_position st i).
Proof. intros H. exact H. Qed.

Section Settled.

Variable artifactElement : option (jsstring -> jsstring).
Variable callbacks : option ParserCallbacks.t.
Variable messageId : jsstring.
Variable input : jsstring.

(** A pass keeps [settled], also when it throws; and an [Error] is thrown
    where an action tag opens, with [insideAction] already set and no
    action recorded. *)
Lemma step_settled (st : MessageState) (i : nat) :
  settled st ->
  match step artifactElement callbacks messageId input st i with
  | Continue st' _ _ _ => settled st'
  | Break _ => True
  | Throw st' _ err =>
      settled st'
      /\ match err with
         | Error _ =>
             insideArtifact st' = true /\ insideAction st' = true
             /\ currentAction st' = emptyAction
         | TypeError => fields (currentAction st') = FileAction None
         | Unreachable _ => False
         end
  end.
Proof.
  intros Hs. pose proof Hs as [[Hw1 Hw2] [He Hc]]. unfold step.
  destruct (quickActionsBlock input i) as [[markup k]|]; [exact Hs|].
  destruct (insideArtifact st) eqn:Ea.
  - destruct (currentArtifact st) as [a|] eqn:Eart; [|exfalso; exact (Hw2 eq_refl eq_refl)].
    destruct (insideAction st) eqn:Ei.
    + unfold stepInsideAction.
      destruct (indexOf ARTIFACT_ACTION_TAG_CLOSE input i) as [c|];
        destruct (fields (currentAction st)) as [| | [q|] | | | |] eqn:Ef;
        try exact I;
        try (split; [exact Hs | exact Ef]);
        try (repeat split; cbn; try assumption; try reflexivity; try congruence;
             try (left; reflexivity); try (right; reflexivity); fail).
    + specialize (He eq_refl).
      unfold stepInsideArtifact, openAction, closeArtifact.
      destruct (indexOf ARTIFACT_ACTION_TAG_OPEN input i) as [o|];
        destruct (indexOf ARTIFACT_TAG_CLOSE input i) as [c|];
        try destruct (o <? c); try exact I;
        try (repeat split; cbn; try assumption; try reflexivity; try congruence; fail);
        (destruct (indexOf [">"] input o) as [e|]; [|exact I]);
        pose proof (parseActionTag_error input o e) as Herr;
        pose proof (parseActionTag_content input o e) as Hcont;
        destruct (parseActionTag input o e) as [act|[msg| |msg]];
        try contradiction;
        try (repeat split; cbn; try assumption; try reflexivity; try congruence;
             try (left; apply Hcont; reflexivity); fail).
  - destruct (isChar (charAt input i) "<" && negb (isChar (charAt input (i + 1)) "/"));
      [|exact Hs].
    unfold stepTag.
    destruct (tagScan input (length ARTIFACT_TAG_OPEN) i []);
      try exact I; try exact Hs.
    + repeat split; cbn; try assumption; try congruence.
    + destruct ((j =? length input) && prefixb potentialTag ARTIFACT_TAG_OPEN);
        [exact I | exact Hs].
Qed.

Lemma scan_settled (fuel : nat) :
  forall st i output evs,
  settled st ->
  let '(st', _, c) := scan artifactElement callbacks messageId input fuel st i output evs in
  settled st'
  /\ match c with
     | Throws (Error _) =>
         insideArtifact st' = true /\ insideAction st' = true
         /\ currentAction st' = emptyAction
     | Throws (Unreachable _) => False
     | _ => True
     end.
Proof.
  induction fuel as [|fuel IH]; intros st i output evs Hs; cbn [scan].
  - destruct (i <? length input); split; try exact I; exact Hs.
  - destruct (i <? length input); [|split; [exact Hs | exact I]].
    pose proof (step_settled st i Hs) as H.
    destruct (step artifactElement callbacks messageId input st i) as [st1 i1 out e| e| st1 e err].
    + apply IH. exact H.
    + split; [exact Hs | exact I].
    + destruct H as [H1 H2]. split; [exact H1|]. destruct err; try exact I; exact H2.
Qed.

End Settled.

Lemma get_set_other (m : Messages) (k k' : jsstring) (st : MessageState) :
  k <> k' -> get (set m k st) k' = get m k'.
Proof.
  intros Hk. assert (eqs k k' = false) as Ek.
  { destruct (eqs k k') eqn:E; [apply eqs_eq in E; contradiction | reflexivity]. }
  induction m as [|[k0 v] m IH]; simpl.
  - rewrite Ek. reflexivity.
  - destruct (eqs k0 k) eqn:E0; simpl.
    + apply eqs_eq in E0. subst k0. rewrite Ek. reflexivity.
    + rewrite IH. reflexivity.
Qed.

Lemma stateOf_parse_other (p : StreamingMessageParser) (id1 id2 input : jsstring) :
  id1 <> id2 -> stateOf (fst (fst (parse p id1 input))) id2 = stateOf p id2.
Proof.
  intros H. rewrite parse_unfold.
  destruct (parseState (artifactElementOption p) (callbacksOption p) id1 input (stateOf p id1))
    as [[st' evs] c].
  unfold stateOf. cbn [fst messages]. rewrite (get_set_other _ _ _ _ H). reflexivity.
Qed.

Lemma stateOf_parse_same (p : StreamingMessageParser) (messageId input : jsstring) :
  stateOf (fst (fst (parse p messageId input))) messageId
  = fst (fst (parseState (artifactElementOption p) (callbacksOption p) messageId input
      (stateOf p messageId))).
Proof.
  rewrite parse_unfold.
  destruct (parseState (artifactElementOption p) (callbacksOption p) messageId input
      (stateOf p messageId))
    as [[st' evs] c].
  cbn [fst]. apply stateOf_set.
Qed.

Lemma options_parse (p : StreamingMessageParser) (messageId input : jsstring) :
  artifactElementOption (fst (fst (parse p messageId input))) = artifactElementOption p.
Proof.
  rewrite parse_unfold.
  destruct (parseState (artifactElementOption p) (callbacksOption p) messageId input
      (stateOf p messageId))
    as [[st' evs] c].
  reflexivity.
Qed.

Lemma callbacks_parse (p : StreamingMessageParser) (messageId input : jsstring) :
  callbacksOption (fst (fst (parse p messageId input))) = callbacksOption p.
Proof.
  rewrite parse_unfold.
  destruct (parseState (artifactElementOption p) (callbacksOption p) messageId input
      (stateOf p messageId))
    as [[st' evs] c].
  reflexivity.
Qed.

(** Every state in the table of a parser in use is [settled]. *)
Lemma reachable_settled (f : option (jsstring -> jsstring))
  (callbacks : option ParserCallbacks.t) (p : StreamingMessageParser) :
  reachable f callbacks p -> forall messageId, settled (stateOf p messageId).
Proof.
  induction 1 as [|p id1 input Hr IH|p Hr IH]; intros id2.
  - exact settled_initial.
  - unfold parserOf. destruct (eqs id1 id2) eqn:E.
    + apply eqs_eq in E. subst id2. rewrite stateOf_parse_same. unfold parseState.
      pose proof (scan_settled (artifactElementOption p) (callbacksOption p) id1 input
          (length input)
                    (stateOf p id1) (position (stateOf p id1)) [] [] (IH id1)) as H.
      destruct (scan (artifactElementOption p) (callbacksOption p) id1 input (length input)
                  (stateOf p id1) (position (stateOf p id1)) [] []) as [[st' evs] c].
      exact (proj1 H).
    + rewrite stateOf_parse_other; [apply IH|].
      intros ->. rewrite eqs_refl in E. discriminate.
  - exact settled_initial.
Qed.

(** X11.  On a parser in use (a new parser, with any options, after any
    calls of [parse] and [reset], for any messages and texts, also after
    calls that threw) no
    call of [parse] reaches [unreachable('Artifact not initialized')]:
    inside an artifact the current artifact is recorded. *)
Theorem unreachable_never_thrown (f : option (jsstring -> jsstring))
  (callbacks : option ParserCallbacks.t)
  (p : StreamingMessageParser) (messageId input : jsstring) :
  reachable f callbacks p -> isUnreachable (completionOf (parse p messageId input)) = false.
Proof.
  unfold completionOf. intros Hr. rewrite parse_unfold. unfold parseState.
  pose proof (scan_settled (artifactElementOption p) (callbacksOption p) messageId input
      (length input)
                (stateOf p messageId) (position (stateOf p messageId)) [] []
                (reachable_settled f callbacks p Hr messageId)) as H.
  destruct (scan (artifactElementOption p) (callbacksOption p) messageId input (length input)
              (stateOf p messageId) (position (stateOf p messageId)) [] [])
    as [[st' evs] c].
  cbn [snd]. destruct H as [_ H]. destruct c as [o|[msg| |msg]|]; try reflexivity.
  contradiction.
Qed.

Lemma unreachable_never_thrown_witness :
  isUnreachable
    (completionOf (parse (parserOf (parse (freshParser None) m1 fileWithoutPathText)) m1
            fileWithoutPathText))
  = false.
Proof.
  apply (unreachable_never_thrown None allCallbacks). apply reachable_parse. apply reachable_new.
Defined.

(** X12.  A call of [parse] that throws an [Error] (a required attribute
    of an action tag is missing) leaves the message inside an action that
    was not opened: [insideAction] is set, the current action is the
    record [{ content: '' }], and the cursor is where it was before the
    call, so that the next call for the message reads the text from there
    as the content of an action. *)
Theorem error_leaves_action_open (f : option (jsstring -> jsstring))
  (callbacks : option ParserCallbacks.t)
  (p : StreamingMessageParser) (messageId input : jsstring) :
  reachable f callbacks p ->
  isError (completionOf (parse p messageId input)) = true ->
  insideArtifact (stateOf (parserOf (parse p messageId input)) messageId) = true
  /\ insideAction (stateOf (parserOf (parse p messageId input)) messageId) = true
  /\ currentAction (stateOf (parserOf (parse p messageId input)) messageId) = emptyAction
  /\ cursor (parserOf (parse p messageId input)) messageId = cursor p messageId.
Proof.
  unfold parserOf, completionOf. intros Hr. rewrite stateOf_parse_same.
  assert (cursor (fst (fst (parse p messageId input))) messageId
          = position (stateOf (fst (fst (parse p messageId input))) messageId)) as ->.
  { unfold cursor, stateOf. rewrite parse_unfold.
    destruct (parseState (artifactElementOption p) (callbacksOption p) messageId input
        (stateOf p messageId))
      as [[st' evs] c]. cbn [fst messages]. rewrite get_set. reflexivity. }
  rewrite stateOf_parse_same.
  assert (cursor p messageId = position (stateOf p messageId)) as ->.
  { unfold cursor, stateOf. destruct (get (messages p) messageId); reflexivity. }
  rewrite parse_unfold. unfold parseState.
  pose proof (scan_settled (artifactElementOption p) (callbacksOption p) messageId input
      (length input)
                (stateOf p messageId) (position (stateOf p messageId)) [] []
                (reachable_settled f callbacks p Hr messageId)) as H.
  pose proof (scan_spec (artifactElementOption p) (callbacksOption p) messageId input (length input)
                (stateOf p messageId) (position (stateOf p messageId)) [] []
                ltac:(lia)) as Hp.
  destruct (scan (artifactElementOption p) (callbacksOption p) messageId input (length input)
              (stateOf p messageId) (position (stateOf p messageId)) [] [])
    as [[st' evs] c].
  cbn [fst snd]. intros Hc. destruct c as [o|[msg| |msg]|]; try discriminate Hc.
  destruct H as [_ [H1 [H2 H3]]]. repeat split; assumption.
Qed.

Lemma error_leaves_action_open_witness :
  insideArtifact
    (stateOf (parserOf (parse (freshParser None) m1 (artifactOpenText ++ emptyScreenIdTag)))
       m1) = true
  /\ insideAction
       (stateOf (parserOf (parse (freshParser None) m1 (artifactOpenText ++ emptyScreenIdTag)))
          m1) = true
  /\ currentAction
       (stateOf (parserOf (parse (freshParser None) m1 (artifactOpenText ++ emptyScreenIdTag)))
          m1) = emptyAction
  /\ cursor (parserOf (parse (freshParser None) m1 (artifactOpenText ++ emptyScreenIdTag))) m1
     = cursor (freshParser None) m1.
Proof.
  apply (error_leaves_action_open None allCallbacks (freshParser None) m1
           (artifactOpenText ++ emptyScreenIdTag)).
  - apply reachable_new.
  - vm_compute. reflexivity.
Defined.

(** X13.  The messages of a parser are parsed apart: a call of [parse]
    for one message leaves the state of every other message as it is, so
    that a call for another message returns, calls back and throws what it
    would have without the first call. *)
Theorem messages_are_independent (p : StreamingMessageParser)
  (id1 id2 input1 input2 : jsstring) :
  id1 <> id2 ->
  stateOf (parserOf (parse p id1 input1)) id2 = stateOf p id2
  /\ completionOf (parse (parserOf (parse p id1 input1)) id2 input2) = completionOf (parse p id2 input2)
  /\ eventsOf (parse (parserOf (parse p id1 input1)) id2 input2)
     = eventsOf (parse p id2 input2)
  /\ stateOf (parserOf (parse (parserOf (parse p id1 input1)) id2 input2)) id2
     = stateOf (parserOf (parse p id2 input2)) id2.
Proof.
  unfold parserOf, completionOf.
  intros H. pose proof (stateOf_parse_other p id1 id2 input1 H) as Hs.
  split; [exact Hs|].
  rewrite !stateOf_parse_same.
  rewrite (parse_unfold (fst (fst (parse p id1 input1))) id2 input2).
  rewrite (parse_unfold p id2 input2).
  rewrite options_parse, callbacks_parse, Hs.
  destruct (parseState (artifactElementOption p) (callbacksOption p) id2 input2 (stateOf p id2))
    as [[st' evs] c].
  repeat split.
Qed.

Lemma messages_are_independent_witness :
  stateOf (parserOf (parse (freshParser None) m1 artifactOpenText)) (str "m2")
  = stateOf (freshParser None) (str "m2")
  /\ completionOf (parse (parserOf (parse (freshParser None) m1 artifactOpenText)) (str "m2")
            lookalikeText)
     = completionOf (parse (freshParser None) (str "m2") lookalikeText)
  /\ eventsOf (parse (parserOf (parse (freshParser None) m1 artifactOpenText)) (str "m2")
                 lookalikeText)
     = eventsOf (parse (freshParser None) (str "m2") lookalikeText)
  /\ stateOf (parserOf (parse (parserOf (parse (freshParser None) m1 artifactOpenText))
                          (str "m2") lookalikeText)) (str "m2")
     = stateOf (parserOf (parse (freshParser None) (str "m2") lookalikeText)) (str "m2").
Proof.
  apply (messages_are_independent (freshParser None) m1 (str "m2") artifactOpenText
           lookalikeText).
  discriminate.
Defined.

(* ================================================================== *)
(** ** The cursor stays within the text *)
(* ================================================================== *)

Section Bound.

Variable artifactElement : option (jsstring -> jsstring).
Variable callbacks : option ParserCallbacks.t.
Variable messageId : jsstring.
Variable input : jsstring.

(** A pass that does not leave the loop ends at or before the end of the
    text. *)
Lemma step_bound (st : MessageState) (i : nat) (st' : MessageState)
  (i' : nat) (out : jsstring) (evs : list Event) :
  i < length input ->
  step artifactElement callbacks messageId input st i = Continue st' i' out evs ->
  i' <= length input.
Proof.
  intros Hi. unfold step.
  destruct (quickActionsBlock input i) as [[markup k]|] eqn:Eq.
  - intros [= _ <- _ _]. unfold quickActionsBlock in Eq.
    destruct (startsWith BOLT_QUICK_ACTIONS_OPEN input i); [|discriminate].
    destruct (indexOf BOLT_QUICK_ACTIONS_CLOSE input i) as [e|] eqn:E; [|discriminate].
    injection Eq as _ <-. indexOf_bounded E Hb. exact Hb.
  - destruct (insideArtifact st).
    + destruct (currentArtifact st) as [a|]; [|discriminate].
      destruct (insideAction st).
      * unfold stepInsideAction.
        destruct (indexOf ARTIFACT_ACTION_TAG_CLOSE input i) as [c|] eqn:E.
        -- indexOf_bounded E Hb.
           destruct (fields (currentAction st)) as [| | [p|] | | | |];
             try discriminate; intros [= _ <- _ _]; exact Hb.
        -- destruct (fields (currentAction st)) as [| | [p|] | | | |]; discriminate.
      * unfold stepInsideArtifact, openAction, closeArtifact.
        destruct (indexOf ARTIFACT_ACTION_TAG_OPEN input i) as [o|] eqn:Eo;
          destruct (indexOf ARTIFACT_TAG_CLOSE input i) as [c|] eqn:Ec;
          try (indexOf_bounded Ec Hc);
          try destruct (o <? c); try discriminate;
          try (intros [= _ <- _ _]; exact Hc);
          (destruct (indexOf [">"] input o) as [e|] eqn:Ee; [|discriminate]);
          indexOf_bounded Ee He;
          (destruct (parseActionTag input o e); [|discriminate]);
          intros [= _ <- _ _]; simpl in He; lia.
    + destruct (isChar (charAt input i) "<" && negb (isChar (charAt input (i + 1)) "/")).
      * unfold stepTag.
        pose proof (tagScan_inv input i (length ARTIFACT_TAG_OPEN) i []
                      (le_n _) (Nat.lt_le_incl _ _ Hi) eq_refl eq_refl eq_refl) as H.
        destruct (tagScan input (length ARTIFACT_TAG_OPEN) i []) as [j|e| |j pt].
        -- intros [= _ <- _ _]. lia.
        -- intros [= _ <- _ _]. lia.
        -- discriminate.
        -- destruct H as [-> ->]. rewrite Nat.eqb_refl. discriminate.
      * intros [= _ <- _ _]. lia.
Qed.

Lemma scan_bound (fuel : nat) :
  forall st i output evs,
  let '(st', _, c) := scan artifactElement callbacks messageId input fuel st i output evs in
  match c with
  | Returns _ => position st' <= Nat.max i (length input)
  | _ => True
  end.
Proof.
  induction fuel as [|fuel IH]; intros st i output evs; cbn [scan].
  - destruct (i <? length input); [exact I | simpl; lia].
  - destruct (i <? length input) eqn:E; [|simpl; lia].
    apply Nat.ltb_lt in E.
    pose proof (step_bound st i) as Hb.
    destruct (step artifactElement callbacks messageId input st i) as [st1 i1 out e| e| st1 e err].
    + specialize (Hb st1 i1 out e E eq_refl).
      specialize (IH st1 i1 (output ++ out) (evs ++ e)).
      destruct (scan artifactElement callbacks messageId input fuel st1 i1 (output ++ out)
          (evs ++ e))
        as [[st' evs'] c].
      destruct c; try exact I. lia.
    + simpl. lia.
    + exact I.
Qed.

(** A call that returns ends at the end of the text, or where a pass left
    the loop; the callbacks of that pass are the last ones. *)
Lemma scan_returns (fuel : nat) :
  forall st i output evs st' evs' o,
  scan artifactElement callbacks messageId input fuel st i output evs = (st', evs', Returns o) ->
  exists st0 pre sfx,
    st' = set_position st0 (position st') /\ evs' = pre ++ sfx
    /\ ((length input <= position st' /\ sfx = [])
        \/ (position st' < length input
            /\ step artifactElement callbacks messageId input st0 (position st') = Break sfx)).
Proof.
  induction fuel as [|fuel IH]; intros st i output evs st' evs' o; cbn [scan].
  - destruct (i <? length input) eqn:E; [discriminate|].
    apply Nat.ltb_ge in E. intros [= <- <- <-].
    exists st, evs, []. cbn [position set_position]. rewrite app_nil_r.
    repeat split. left. split; [exact E | reflexivity].
  - destruct (i <? length input) eqn:E.
    + apply Nat.ltb_lt in E.
      destruct (step artifactElement callbacks messageId input st i) as [st1 i1 out e| e|
          st1 e err] eqn:Es.
      * apply IH.
      * intros [= <- <- <-]. exists st, evs, e. cbn [position set_position].
        repeat split. right. split; [exact E | exact Es].
      * discriminate.
    + apply Nat.ltb_ge in E. intros [= <- <- <-].
      exists st, evs, []. cbn [position set_position]. rewrite app_nil_r.
      repeat split. left. split; [exact E | reflexivity].
Qed.

End Bound.

Lemma cursor_stateOf (p : StreamingMessageParser) (messageId : jsstring) :
  cursor p messageId = position (stateOf p messageId).
Proof. unfold cursor, stateOf. destruct (get (messages p) messageId); reflexivity. Qed.

(** X14.  After a call of [parse] the cursor of the message is at most
    the larger of the cursor before the call and the length of the text:
    a call does not move the cursor past the end of the text it was
    given. *)
Theorem cursor_stays_within_text (p : StreamingMessageParser)
  (messageId input : jsstring) :
  cursor (parserOf (parse p messageId input)) messageId
  <= Nat.max (cursor p messageId) (length input).
Proof.
  unfold parserOf. rewrite !cursor_stateOf, stateOf_parse_same. unfold parseState.
  pose proof (scan_bound (artifactElementOption p) (callbacksOption p) messageId input
      (length input)
                (stateOf p messageId) (position (stateOf p messageId)) [] []) as Hb.
  pose proof (scan_spec (artifactElementOption p) (callbacksOption p) messageId input (length input)
                (stateOf p messageId) (position (stateOf p messageId)) [] []
                ltac:(lia)) as Hs.
  destruct (scan (artifactElementOption p) (callbacksOption p) messageId input (length input)
              (stateOf p messageId) (position (stateOf p messageId)) [] [])
    as [[st' evs] c].
  cbn [fst]. destruct c; [exact Hb | lia | contradiction].
Qed.

(* ================================================================== *)
(** ** The same text again *)
(* ================================================================== *)

Lemma set_position_same (st : MessageState) : set_position st (position st) = st.
Proof. destruct st; reflexivity. Qed.

Lemma set_position_twice (st : MessageState) (i j : nat) :
  set_position (set_position st i) j = set_position st j.
Proof. reflexivity. Qed.

Lemma scan_done (f : option (jsstring -> jsstring))
  (callbacks : option ParserCallbacks.t) (messageId input : jsstring)
  (fuel : nat) (st : MessageState) (i : nat) (output : jsstring) (evs : list Event) :
  length input <= i ->
  scan f callbacks messageId input fuel st i output evs = (set_position st i, evs, Returns output).
Proof.
  intros H. apply Nat.ltb_ge in H. destruct fuel; cbn [scan]; rewrite H; reflexivity.
Qed.

Lemma parseState_again (f : option (jsstring -> jsstring))
  (callbacks : option ParserCallbacks.t) (messageId input : jsstring)
  (st st' : MessageState) (evs : list Event) (o : jsstring) :
  parseState f callbacks messageId input st = (st', evs, Returns o) ->
  exists pre sfx,
    evs = pre ++ sfx /\ streamOnly sfx
    /\ parseState f callbacks messageId input st' = (st', sfx, Returns []).
Proof.
  unfold parseState. intros H.
  destruct (scan_returns f callbacks messageId input _ _ _ _ _ _ _ _ H)
    as [st0 [pre [sfx [Hst [Hevs Hend]]]]].
  exists pre, sfx. split; [exact Hevs|].
  destruct Hend as [[Hl ->]|[Hl Hb]].
  - split; [left; reflexivity|].
    rewrite scan_done by exact Hl. rewrite set_position_same. reflexivity.
  - split; [exact (step_break_events f callbacks messageId input st0 _ sfx Hb)|].
    rewrite (scan_fuel f callbacks messageId input (length input) (S (length input)))
      by lia.
    cbn [scan].
    assert ((position st' <? length input) = true) as -> by (apply Nat.ltb_lt; lia).
    rewrite Hst at 1. rewrite step_set_position, Hb. cbn [mapState].
    rewrite set_position_same. reflexivity.
Qed.

(** X15.  A call of [parse] with the text that the call before it
    returned on is a call that does nothing more: it returns the empty
    string and leaves the parser as it is; the one callback it can make is
    the action-stream callback with which the first call ended, made
    again. *)
Theorem same_text_again (p : StreamingMessageParser) (messageId input : jsstring) :
  returns (completionOf (parse p messageId input)) = true ->
  parserOf (parse (parserOf (parse p messageId input)) messageId input)
  = parserOf (parse p messageId input)
  /\ completionOf (parse (parserOf (parse p messageId input)) messageId input)
     = Returns []
  /\ streamOnly (eventsOf (parse (parserOf (parse p messageId input)) messageId input))
  /\ exists pre,
       eventsOf (parse p messageId input)
       = pre ++ eventsOf (parse (parserOf (parse p messageId input)) messageId input).
Proof.
  unfold parserOf, completionOf, eventsOf.
  rewrite (parse_unfold (fst (fst (parse p messageId input))) messageId input).
  rewrite options_parse, callbacks_parse, stateOf_parse_same.
  rewrite (parse_unfold p messageId input).
  destruct (parseState (artifactElementOption p) (callbacksOption p) messageId input
      (stateOf p messageId))
    as [[st' evs] c] eqn:E.
  cbn [fst snd]. destruct c as [o| |]; try discriminate. intros _.
  destruct (parseState_again _ _ _ _ _ _ _ _ E) as [pre [sfx [Hevs [Hs Hp]]]].
  rewrite Hp. cbn [fst snd messages artifactElementOption callbacksOption]. rewrite set_set.
  repeat split; [exact Hs|]. exists pre. exact Hevs.
Qed.

Lemma same_text_again_witness :
  parserOf (parse (parserOf (parse (freshParser None) m1 (firstn 100 (fencedFileText "a.ts"))))
              m1 (firstn 100 (fencedFileText "a.ts")))
  = parserOf (parse (freshParser None) m1 (firstn 100 (fencedFileText "a.ts")))
  /\ completionOf
       (parse (parserOf (parse (freshParser None) m1 (firstn 100 (fencedFileText "a.ts"))))
          m1 (firstn 100 (fencedFileText "a.ts")))
     = Returns []
  /\ streamOnly
       (eventsOf
          (parse (parserOf (parse (freshParser None) m1 (firstn 100 (fencedFileText "a.ts"))))
             m1 (firstn 100 (fencedFileText "a.ts"))))
  /\ exists pre,
       eventsOf (parse (freshParser None) m1 (firstn 100 (fencedFileText "a.ts")))
       = pre ++ eventsOf
                  (parse (parserOf (parse (freshParser None) m1
                                      (firstn 100 (fencedFileText "a.ts"))))
                     m1 (firstn 100 (fencedFileText "a.ts"))).
Proof.
  apply (same_text_again (freshParser None) m1 (firstn 100 (fencedFileText "a.ts"))).
  vm_compute. reflexivity.
Defined.

(* ================================================================== *)
(** ** Inside an action *)
(* ================================================================== *)

Lemma parse_first_pass (p : StreamingMessageParser) (messageId input : jsstring) :
  position (stateOf p messageId) < length input ->
  parse p messageId input
  = let '(st', evs, c) :=
      match step (artifactElementOption p) (callbacksOption p) messageId input (stateOf p messageId)
              (position (stateOf p messageId)) with
      | Continue st1 i1 out e =>
          let '(st', e', c) :=
            scan (artifactElementOption p) (callbacksOption p) messageId input (length input
                - 1) st1 i1 [] []
          in (st', e ++ e', after out c)
      | Break e =>
          (set_position (stateOf p messageId) (position (stateOf p messageId)), e,
           Returns [])
      | Throw st1 e err => (st1, e, Throws err)
      end in
    (mkParser (artifactElementOption p) (callbacksOption p) (set (messages p) messageId
        st'), evs, c).
Proof.
  intros Hl. rewrite parse_unfold. unfold parseState.
  rewrite (scan_fuel (artifactElementOption p) (callbacksOption p) messageId input
             (length input) (S (length input - 1))) by lia.
  cbn [scan].
  assert ((position (stateOf p messageId) <? length input) = true) as ->
      by (apply Nat.ltb_lt; exact Hl).
  destruct (step (artifactElementOption p) (callbacksOption p) messageId input (stateOf p messageId)
              (position (stateOf p messageId))) as [st1 i1 out e| e| st1 e err];
    try reflexivity.
  cbn [app]. rewrite scan_acc. reflexivity.
Qed.

(** X16.  A call that finds no close tag for the action that is open
    (a file action with its path, or an action of another kind) returns
    the empty string and leaves the state of the message as it is, the
    cursor at the start of the content: for a file action it makes one
    action-stream callback (when the options hold that callback; none
    otherwise) that carries the whole text from the cursor on, sanitized
    as on close; for another action it makes no callback. *)
Theorem waiting_inside_action (p : StreamingMessageParser) (messageId input : jsstring)
  (a : BoltArtifactData) :
  insideArtifact (stateOf p messageId) = true ->
  currentArtifact (stateOf p messageId) = Some a ->
  insideAction (stateOf p messageId) = true ->
  pathless (fields (currentAction (stateOf p messageId))) = false ->
  position (stateOf p messageId) < length input ->
  quickActionsBlock input (position (stateOf p messageId)) = None ->
  indexOf ARTIFACT_ACTION_TAG_CLOSE input (position (stateOf p messageId)) = None ->
  eventsOf (parse p messageId input)
  = waitingEvents (callbacksOption p) messageId (stateOf p messageId) a input
  /\ completionOf (parse p messageId input) = Returns []
  /\ stateOf (parserOf (parse p messageId input)) messageId = stateOf p messageId.
Proof.
  intros Ha Hc Hi Hp Hl Hq Hn.
  unfold eventsOf, completionOf, parserOf.
  rewrite (parse_first_pass p messageId input Hl).
  unfold step. rewrite Hq, Ha, Hc, Hi. unfold stepInsideAction. rewrite Hn.
  unfold waitingEvents, actionEvent.
  destruct (fields (currentAction (stateOf p messageId))) as [| | [q|] | | | |];
    try discriminate Hp; cbn [fst snd]; rewrite stateOf_set, set_position_same;
    repeat split.
Qed.

Lemma waiting_inside_action_witness :
  eventsOf (parse (mkParser None allCallbacks [(m1, fileOpenState "a.ts")]) m1
              (firstn 100 (fencedFileText "a.ts")))
  = waitingEvents allCallbacks m1
      (stateOf (mkParser None allCallbacks [(m1, fileOpenState "a.ts")]) m1) a1
      (firstn 100 (fencedFileText "a.ts"))
  /\ completionOf (parse (mkParser None allCallbacks [(m1, fileOpenState "a.ts")]) m1
                     (firstn 100 (fencedFileText "a.ts")))
     = Returns []
  /\ stateOf (parserOf (parse (mkParser None allCallbacks [(m1, fileOpenState "a.ts")]) m1
                          (firstn 100 (fencedFileText "a.ts")))) m1
     = stateOf (mkParser None allCallbacks [(m1, fileOpenState "a.ts")]) m1.
Proof.
  apply (waiting_inside_action (mkParser None allCallbacks [(m1, fileOpenState "a.ts")]) m1
           (firstn 100 (fencedFileText "a.ts")) a1);
    vm_compute; solve [reflexivity | lia].
Defined.

(** X17.  On a parser in use, the call that finds the close tag of the
    action that is open makes, before any other callback, the
    action-close callback of that action (one call, when the options hold
    the callback): it carries the counter of the message less one, which
    is the number the action opened with, and, as content, the text from the cursor to the close tag,
    trimmed, and for a file action sanitized and ended with a line feed.
    Nothing is kept from earlier calls in the content of an open action,
    so the content does not depend on the pieces in which the text
    arrived. *)
Theorem action_content_on_close (f : option (jsstring -> jsstring))
  (callbacks : option ParserCallbacks.t)
  (p : StreamingMessageParser) (messageId input : jsstring) (closeIndex : nat) :
  reachable f callbacks p ->
  insideAction (stateOf p messageId) = true ->
  pathless (fields (currentAction (stateOf p messageId))) = false ->
  position (stateOf p messageId) < length input ->
  quickActionsBlock input (position (stateOf p messageId)) = None ->
  indexOf ARTIFACT_ACTION_TAG_CLOSE input (position (stateOf p messageId))
  = Some closeIndex ->
  exists a rest,
    currentArtifact (stateOf p messageId) = Some a
    /\ eventsOf (parse p messageId input)
       = callback (callbacksOption p)
           (onActionClose
              (mkActionData (id a) messageId
                 (String_of_Z (actionId (stateOf p messageId) - 1))
                 (mkAction (fields (currentAction (stateOf p messageId)))
                    (closedContent (fields (currentAction (stateOf p messageId)))
                       (slice input (position (stateOf p messageId)) closeIndex)))))
         ++ rest.
Proof.
  intros Hr Hi Hp Hl Hq Hc.
  destruct (reachable_settled f callbacks p Hr messageId) as [[Hw1 Hw2] [_ Hcont]].
  destruct (insideArtifact (stateOf p messageId)) eqn:Ea;
    [|rewrite (Hw1 eq_refl) in Hi; discriminate].
  destruct (currentArtifact (stateOf p messageId)) as [a|] eqn:Eart;
    [|exfalso; exact (Hw2 eq_refl eq_refl)].
  assert (content (currentAction (stateOf p messageId)) = []) as Hempty.
  { destruct Hcont as [H|H]; [exact H|]. rewrite H in Hp. discriminate. }
  unfold eventsOf. rewrite (parse_first_pass p messageId input Hl).
  unfold step. rewrite Hq, Ea, Eart, Hi. unfold stepInsideAction. rewrite Hc, Hempty.
  cbn [app]. unfold closedContent, actionEvent.
  exists a.
  destruct (fields (currentAction (stateOf p messageId))) as [| | [q|] | | | |];
    try discriminate Hp;
    match goal with
    | |- context [scan ?f ?cb ?m ?inp ?n ?s ?i [] []] =>
        destruct (scan f cb m inp n s i [] []) as [[st' e'] c]
    end;
    eexists; (split; [reflexivity|]); cbn [fst snd app]; reflexivity.
Qed.

Lemma action_content_on_close_witness :
  exists a rest,
    currentArtifact
      (stateOf (parserOf (parse (freshParser None) m1 (firstn 100 (fencedFileText "a.ts"))))
         m1) = Some a
    /\ eventsOf (parse (parserOf (parse (freshParser None) m1
                                   (firstn 100 (fencedFileText "a.ts"))))
                   m1 (fencedFileText "a.ts"))
       = onActionClose
           (mkActionData (id a) m1
              (String_of_Z
                 (actionId
                    (stateOf (parserOf (parse (freshParser None) m1
                                          (firstn 100 (fencedFileText "a.ts")))) m1) - 1))
              (mkAction
                 (fields
                    (currentAction
                       (stateOf (parserOf (parse (freshParser None) m1
                                             (firstn 100 (fencedFileText "a.ts")))) m1)))
                 (closedContent
                    (fields
                       (currentAction
                          (stateOf (parserOf (parse (freshParser None) m1
                                                (firstn 100 (fencedFileText "a.ts")))) m1)))
                    (slice (fencedFileText "a.ts")
                       (position
                          (stateOf (parserOf (parse (freshParser None) m1
                                                (firstn 100 (fencedFileText "a.ts")))) m1))
                       107))))
         :: rest.
Proof.
  apply (action_content_on_close None allCallbacks
           (parserOf (parse (freshParser None) m1 (firstn 100 (fencedFileText "a.ts"))))
           m1 (fencedFileText "a.ts") 107).
  - apply reachable_parse. apply reachable_new.
  - vm_compute. reflexivity.
  - vm_compute. reflexivity.
  - vm_compute. lia.
  - vm_compute. reflexivity.
  - vm_compute. reflexivity.
Defined.

(* ================================================================== *)
(** ** Text outside an artifact *)
(* ================================================================== *)

Lemma prefixb_trans (a b s : jsstring) :
  prefixb a b = true -> prefixb b s = true -> prefixb a s = true.
Proof.
  intros [r ->]%prefixb_spec [t ->]%prefixb_spec.
  rewrite <- app_assoc. apply prefixb_app.
Qed.

Lemma firstn_plus (t : jsstring) (a b : nat) :
  firstn a t ++ firstn b (skipn a t) = firstn (a + b) t.
Proof.
  revert t; induction a as [|a IH]; intros t; [reflexivity|].
  destruct t as [|c t]; [rewrite skipn_nil, !firstn_nil; reflexivity|].
  cbn [firstn skipn app Nat.add]. rewrite IH. reflexivity.
Qed.

Lemma slice_app (s : jsstring) (i j k : nat) :
  i <= j -> j <= k -> slice s i j ++ slice s j k = slice s i k.
Proof.
  intros H1 H2. unfold slice.
  replace (skipn j s) with (skipn (j - i) (skipn i s))
    by (rewrite skipn_skipn; f_equal; lia).
  rewrite firstn_plus. f_equal. lia.
Qed.

Lemma slice_rest (s : jsstring) (i j : nat) :
  i <= j -> slice s i j ++ skipn j s = skipn i s.
Proof.
  intros H. unfold slice.
  replace (skipn j s) with (skipn (j - i) (skipn i s))
    by (rewrite skipn_skipn; f_equal; lia).
  apply firstn_skipn.
Qed.

Lemma slice_same (s : jsstring) (i : nat) : slice s i i = [].
Proof. unfold slice. rewrite Nat.sub_diag. reflexivity. Qed.

Lemma skipn_next (s : jsstring) (j : nat) :
  j < length s -> skipn j s = nth j s Ascii.zero :: skipn (j + 1) s.
Proof.
  revert j; induction s as [|c s IH]; intros j H; [simpl in H; lia|].
  destruct j as [|j]; [reflexivity|]. simpl in H |- *. apply IH. lia.
Qed.

(** A text that begins like the marker and does not hold [<bolt] is one
    of [<], [<b], [<bo], [<bol], or empty. *)
Lemma short_of_marker (t : jsstring) :
  prefixb t ARTIFACT_TAG_OPEN = true -> prefixb (str "<bolt") t = false ->
  prefixb t (str "<bol") = true.
Proof.
  intros H1 H2.
  change ARTIFACT_TAG_OPEN with ("<" :: "b" :: "o" :: "l" :: "t" :: str "Artifact") in H1.
  change (str "<bol") with ["<"; "b"; "o"; "l"].
  change (str "<bolt") with ["<"; "b"; "o"; "l"; "t"] in H2.
  destruct t as [|c0 [|c1 [|c2 [|c3 [|c4 t]]]]]; cbn [prefixb] in H1 |- *;
    try exact H1.
  exfalso.
  repeat (apply andb_true_iff in H1 as [?E H1]).
  repeat match goal with H : eqc _ _ = true |- _ => apply eqc_eq in H; subst end.
  cbn in H2. discriminate H2.
Qed.

Section Outside.

Variable artifactElement : option (jsstring -> jsstring).
Variable callbacks : option ParserCallbacks.t.
Variable messageId : jsstring.
Variable input : jsstring.

(** The inner loop holds in [potentialTag] the text from [i] to [j]: it
    opens a tag only where the text holds the whole marker, and leaves by
    its condition only with the rest of the text in [potentialTag]. *)
Lemma tagScan_reads (i n : nat) :
  forall j pt,
  skipn i input = pt ++ skipn j input ->
  prefixb pt ARTIFACT_TAG_OPEN = true ->
  eqs pt ARTIFACT_TAG_OPEN = false ->
  length pt + n = length ARTIFACT_TAG_OPEN ->
  match tagScan input n j pt with
  | TagFlush _ => True
  | TagOpen _ | TagEarlyBreak => startsWith ARTIFACT_TAG_OPEN input i = true
  | TagExit _ pt' => pt' = skipn i input
  end.
Proof.
  induction n as [|n IH]; intros j pt Hs Hp He Hl.
  - exfalso. rewrite Nat.add_0_r in Hl.
    apply (prefixb_same_length _ _ Hp) in Hl.
    apply eqs_eq in Hl. congruence.
  - cbn [tagScan].
    destruct (j <? length input) eqn:Ej; cbn [andb].
    2:{ apply Nat.ltb_ge in Ej. rewrite (skipn_all2 input Ej) in Hs.
        rewrite app_nil_r in Hs. congruence. }
    apply Nat.ltb_lt in Ej.
    destruct (length pt <? length ARTIFACT_TAG_OPEN) eqn:El.
    2:{ apply Nat.ltb_ge in El. exfalso; lia. }
    rewrite (skipn_next input j Ej) in Hs.
    assert (skipn i input = (pt ++ [nth j input Ascii.zero]) ++ skipn (j + 1) input) as Hs'
        by (rewrite <- app_assoc; exact Hs).
    destruct (eqs (pt ++ [nth j input Ascii.zero]) ARTIFACT_TAG_OPEN) eqn:E1.
    + apply eqs_eq in E1. rewrite E1 in Hs'.
      assert (startsWith ARTIFACT_TAG_OPEN input i = true) as Hst
          by (unfold startsWith; rewrite Hs'; apply prefixb_app).
      match goal with |- context [if ?b then _ else _] => destruct b end; [exact I|].
      destruct (indexOf [">"] input j); exact Hst.
    + destruct (prefixb (pt ++ [nth j input Ascii.zero]) ARTIFACT_TAG_OPEN) eqn:E2;
        cbn [negb]; [|exact I].
      apply IH; try assumption.
      rewrite length_app. change (length [nth j input Ascii.zero]) with 1. lia.
Qed.

Lemma charText_slice (i : nat) :
  i < length input -> charText input i = slice input i (i + 1).
Proof.
  intros H. unfold charText, slice, charAt.
  rewrite (skipn_next input i H).
  replace (i + 1 - i) with 1 by lia. cbn [firstn].
  rewrite (nth_error_nth' input Ascii.zero H). reflexivity.
Qed.

(** Outside an artifact, where the text does not hold [<bolt], a pass
    copies text to the output, or leaves the loop at a text that begins
    like the marker and ends there. *)
Lemma step_outside (st : MessageState) (i : nat) :
  insideArtifact st = false -> i < length input ->
  startsWith (str "<bolt") input i = false ->
  match step artifactElement callbacks messageId input st i with
  | Continue st' i' out evs =>
      st' = st /\ evs = [] /\ out = slice input i i' /\ i < i' /\ i' <= length input
  | Break evs => evs = [] /\ prefixb (skipn i input) (str "<bol") = true
  | Throw _ _ _ => False
  end.
Proof.
  intros Ha Hi Hb.
  pose proof (step_bound artifactElement callbacks messageId input st i) as Hbound.
  pose proof (step_progress artifactElement callbacks messageId input st i) as Hprog.
  unfold step in *.
  assert (quickActionsBlock input i = None) as Hq.
  { unfold quickActionsBlock.
    destruct (startsWith BOLT_QUICK_ACTIONS_OPEN input i) eqn:E; [|reflexivity].
    unfold startsWith in *.
    rewrite (prefixb_trans (str "<bolt") BOLT_QUICK_ACTIONS_OPEN _ eq_refl E) in Hb.
    discriminate. }
  rewrite Hq, Ha in *.
  destruct (isChar (charAt input i) "<" && negb (isChar (charAt input (i + 1)) "/")).
  - unfold stepTag in *.
    pose proof (tagScan_inv input i (length ARTIFACT_TAG_OPEN) i []
                  (le_n _) (Nat.lt_le_incl _ _ Hi) eq_refl eq_refl eq_refl) as Hinv.
    pose proof (tagScan_reads i (length ARTIFACT_TAG_OPEN) i [] eq_refl
                  eq_refl eq_refl eq_refl) as Hr.
    assert (startsWith ARTIFACT_TAG_OPEN input i = true -> False) as Hno.
    { intros E. unfold startsWith in *.
      rewrite (prefixb_trans (str "<bolt") ARTIFACT_TAG_OPEN _ eq_refl E) in Hb.
      discriminate. }
    destruct (tagScan input (length ARTIFACT_TAG_OPEN) i []) as [j|e| |j pt];
      try (exfalso; exact (Hno Hr)).
    + repeat split; lia.
    + destruct Hinv as [-> Hp]. rewrite Nat.eqb_refl, Hp. cbn [andb]. subst pt.
      split; [reflexivity|]. apply short_of_marker; assumption.
  - specialize (Hbound st (i + 1) (charText input i) [] Hi eq_refl).
    repeat split; try lia. apply charText_slice. exact Hi.
Qed.

Lemma scan_outside (fuel : nat) :
  forall st i output evs,
  insideArtifact st = false ->
  (forall k, i <= k -> startsWith (str "<bolt") input k = false) ->
  length input - i <= fuel ->
  exists i',
    scan artifactElement callbacks messageId input fuel st i output evs
    = (set_position st i', evs, Returns (output ++ slice input i i'))
    /\ i <= i' /\ prefixb (skipn i' input) (str "<bol") = true.
Proof.
  induction fuel as [|fuel IH]; intros st i output evs Ha Hb Hf.
  - exists i. rewrite scan_done by lia. rewrite slice_same, app_nil_r.
    split; [reflexivity|]. split; [lia|]. rewrite skipn_all2 by lia. reflexivity.
  - destruct (Nat.lt_ge_cases i (length input)) as [Hi|Hi].
    2:{ exists i. rewrite scan_done by lia. rewrite slice_same, app_nil_r.
        split; [reflexivity|]. split; [lia|]. rewrite skipn_all2 by lia. reflexivity. }
    cbn [scan]. assert ((i <? length input) = true) as -> by (apply Nat.ltb_lt; exact Hi).
    pose proof (step_outside st i Ha Hi (Hb i (le_n _))) as Hs.
    destruct (step artifactElement callbacks messageId input st i) as [st1 i1 out e| e| st1 e err].
    + destruct Hs as [-> [-> [-> [H1 H2]]]].
      destruct (IH st i1 (output ++ slice input i i1) (evs ++ []) Ha
                  ltac:(intros k Hk; apply Hb; lia) ltac:(lia)) as [i' [E [H3 H4]]].
      exists i'. rewrite E, app_nil_r, <- app_assoc, slice_app by lia.
      split; [reflexivity|]. split; [lia | exact H4].
    + destruct Hs as [-> Hp]. exists i. rewrite slice_same, !app_nil_r.
      split; [reflexivity|]. split; [lia | exact Hp].
    + contradiction.
Qed.

(** Inside an artifact that does not close, a pass adds nothing to the
    output and stays inside the artifact. *)
Lemma step_inside (st : MessageState) (i : nat) :
  insideArtifact st = true ->
  quickActionsBlock input i = None ->
  indexOf ARTIFACT_TAG_CLOSE input i = None ->
  match step artifactElement callbacks messageId input st i with
  | Continue st' _ out _ => out = [] /\ insideArtifact st' = true
  | Break _ => True
  | Throw st' _ _ => insideArtifact st' = true
  end.
Proof.
  intros Ha Hq Hc. unfold step. rewrite Hq, Ha.
  destruct (currentArtifact st) as [a|]; [|exact Ha].
  destruct (insideAction st).
  - unfold stepInsideAction.
    destruct (indexOf ARTIFACT_ACTION_TAG_CLOSE input i);
      destruct (fields (currentAction st)) as [| | [q|] | | | |];
      try exact I; try (split; [reflexivity | exact Ha]); exact Ha.
  - unfold stepInsideArtifact, openAction, closeArtifact. rewrite Hc.
    destruct (indexOf ARTIFACT_ACTION_TAG_OPEN input i) as [o|]; [|exact I].
    destruct (indexOf [">"] input o) as [e|]; [|exact I].
    destruct (parseActionTag input o e); [split; [reflexivity | exact Ha] | exact Ha].
Qed.

Lemma scan_inside (fuel : nat) :
  forall st i output evs,
  insideArtifact st = true ->
  (forall k, i <= k -> quickActionsBlock input k = None) ->
  (forall k, i <= k -> indexOf ARTIFACT_TAG_CLOSE input k = None) ->
  let '(st', _, c) := scan artifactElement callbacks messageId input fuel st i output evs in
  insideArtifact st' = true
  /\ match c with
     | Returns o => o = output
     | _ => True
     end.
Proof.
  induction fuel as [|fuel IH]; intros st i output evs Ha Hq Hc; cbn [scan].
  - destruct (i <? length input); repeat split; exact Ha.
  - destruct (i <? length input) eqn:E; [|repeat split; exact Ha].
    apply Nat.ltb_lt in E.
    pose proof (step_inside st i Ha (Hq i (le_n _)) (Hc i (le_n _))) as Hs.
    pose proof (step_progress artifactElement callbacks messageId input st i) as Hp.
    destruct (step artifactElement callbacks messageId input st i) as [st1 i1 out e| e| st1 e err].
    + destruct Hs as [-> Ha1]. specialize (Hp st1 i1 [] e E eq_refl).
      rewrite app_nil_r.
      apply IH; [exact Ha1 | intros k Hk; apply Hq; lia | intros k Hk; apply Hc; lia].
    + repeat split; exact Ha.
    + repeat split; exact Hs.
Qed.

End Outside.

Lemma find_skipn_None (p t : jsstring) (k : nat) :
  find p t = None -> find p (skipn k t) = None.
Proof.
  revert k; induction t as [|c t IH]; intros k H.
  - rewrite skipn_nil. exact H.
  - destruct k as [|k]; [exact H|]. cbn [skipn]. apply IH.
    cbn [find] in H. destruct (prefixb p (c :: t)); [discriminate|].
    destruct (find p t); [discriminate | reflexivity].
Qed.

Lemma startsWith_after (p s : jsstring) (c k : nat) :
  find p (skipn c s) = None -> c <= k -> startsWith p s k = false.
Proof.
  intros H Hk. unfold startsWith.
  replace k with ((k - c) + c) by lia. rewrite <- skipn_skipn.
  apply find_None. exact H.
Qed.

Lemma indexOf_after (p s : jsstring) (c k : nat) :
  find p (skipn c s) = None -> c <= k -> indexOf p s k = None.
Proof.
  intros H Hk. unfold indexOf.
  replace k with ((k - c) + c) at 1 by lia. rewrite <- skipn_skipn.
  rewrite (find_skipn_None _ _ _ H). reflexivity.
Qed.

(** X18.  Outside an artifact, a text that does not hold [<bolt] from the
    cursor on is copied to the output as it is and no callback is made:
    the call returns the text from the old cursor to the new one, and
    what it keeps back, from the new cursor to the end, is empty or one of
    [<], [<b], [<bo], [<bol], which can still become a marker.  The state
    changes in the cursor only. *)
Theorem text_without_marker_passes_through (p : StreamingMessageParser)
  (messageId input : jsstring) :
  insideArtifact (stateOf p messageId) = false ->
  find (str "<bolt") (skipn (cursor p messageId) input) = None ->
  eventsOf (parse p messageId input) = []
  /\ returns (completionOf (parse p messageId input)) = true
  /\ outputOf (completionOf (parse p messageId input))
     ++ skipn (cursor (parserOf (parse p messageId input)) messageId) input
     = skipn (cursor p messageId) input
  /\ prefixb (skipn (cursor (parserOf (parse p messageId input)) messageId) input)
       (str "<bol") = true
  /\ stateOf (parserOf (parse p messageId input)) messageId
     = set_position (stateOf p messageId)
         (cursor (parserOf (parse p messageId input)) messageId).
Proof.
  intros Ha Hf. unfold eventsOf, completionOf, parserOf.
  rewrite !cursor_stateOf in *. rewrite stateOf_parse_same.
  rewrite parse_unfold. unfold parseState.
  destruct (scan_outside (artifactElementOption p) (callbacksOption p) messageId input
      (length input)
              (stateOf p messageId) (position (stateOf p messageId)) [] [] Ha
              ltac:(intros k Hk; exact (startsWith_after _ _ _ _ Hf Hk)) ltac:(lia))
    as [i' [E [H1 H2]]].
  rewrite E. cbn [fst snd returns outputOf app position set_position].
  repeat split; try assumption. apply slice_rest. exact H1.
Qed.

Lemma text_without_marker_passes_through_witness :
  eventsOf (parse (freshParser None) m1 (str "a < b <i>x</i> <bo")) = []
  /\ returns (completionOf (parse (freshParser None) m1 (str "a < b <i>x</i> <bo"))) = true
  /\ outputOf (completionOf (parse (freshParser None) m1 (str "a < b <i>x</i> <bo")))
     ++ skipn (cursor (parserOf (parse (freshParser None) m1 (str "a < b <i>x</i> <bo")))
                 m1) (str "a < b <i>x</i> <bo")
     = skipn (cursor (freshParser None) m1) (str "a < b <i>x</i> <bo")
  /\ prefixb
       (skipn (cursor (parserOf (parse (freshParser None) m1 (str "a < b <i>x</i> <bo")))
                 m1) (str "a < b <i>x</i> <bo"))
       (str "<bol") = true
  /\ stateOf (parserOf (parse (freshParser None) m1 (str "a < b <i>x</i> <bo"))) m1
     = set_position (stateOf (freshParser None) m1)
         (cursor (parserOf (parse (freshParser None) m1 (str "a < b <i>x</i> <bo"))) m1).
Proof.
  apply (text_without_marker_passes_through (freshParser None) m1
           (str "a < b <i>x</i> <bo")); reflexivity.
Defined.

(** X19.  Inside an artifact, while the text from the cursor on holds
    neither the close tag of the artifact nor the open marker of a
    quick-actions block, a call adds nothing to the output, whatever
    actions open, stream or close in it, and the message stays inside the
    artifact: the text of an artifact is not echoed. *)
Theorem artifact_text_is_not_echoed (p : StreamingMessageParser)
  (messageId input : jsstring) :
  insideArtifact (stateOf p messageId) = true ->
  find BOLT_QUICK_ACTIONS_OPEN (skipn (cursor p messageId) input) = None ->
  find ARTIFACT_TAG_CLOSE (skipn (cursor p messageId) input) = None ->
  outputOf (completionOf (parse p messageId input)) = []
  /\ insideArtifact (stateOf (parserOf (parse p messageId input)) messageId) = true.
Proof.
  intros Ha Hq Hc. unfold completionOf, parserOf.
  rewrite cursor_stateOf in *. rewrite stateOf_parse_same.
  rewrite parse_unfold. unfold parseState.
  pose proof (scan_inside (artifactElementOption p) (callbacksOption p) messageId input
      (length input)
                (stateOf p messageId) (position (stateOf p messageId)) [] [] Ha) as H.
  destruct (scan (artifactElementOption p) (callbacksOption p) messageId input (length input)
              (stateOf p messageId) (position (stateOf p messageId)) [] [])
    as [[st' evs] c].
  cbn [fst snd].
  assert (forall k, position (stateOf p messageId) <= k -> quickActionsBlock input k = None)
    as Hq'.
  { intros k Hk. unfold quickActionsBlock.
    rewrite (startsWith_after _ _ _ _ Hq Hk). reflexivity. }
  specialize (H Hq' (fun k Hk => indexOf_after _ _ _ _ Hc Hk)).
  destruct H as [H1 H2].
  split; [|exact H1]. destruct c; try reflexivity. exact H2.
Qed.

Lemma artifact_text_is_not_echoed_witness :
  outputOf
    (completionOf
       (parse (parserOf (parse (freshParser None) m1 artifactOpenText)) m1
          (artifactOpenText ++ qstr "notes <boltAction type='shell'>ls</boltAction> more")))
  = []
  /\ insideArtifact
       (stateOf
          (parserOf
             (parse (parserOf (parse (freshParser None) m1 artifactOpenText)) m1
                (artifactOpenText
                 ++ qstr "notes <boltAction type='shell'>ls</boltAction> more"))) m1)
     = true.
Proof.
  apply (artifact_text_is_not_echoed
           (parserOf (parse (freshParser None) m1 artifactOpenText)) m1
           (artifactOpenText ++ qstr "notes <boltAction type='shell'>ls</boltAction> more"));
    reflexivity.
Defined.

(* ================================================================== *)
(** ** The open tag of an artifact *)
(* ================================================================== *)

Lemma find_char (c : ascii) (a r : jsstring) :
  existsb (eqc c) a = false -> find [c] (a ++ c :: r) = Some (length a).
Proof.
  induction a as [|x a IH]; cbn [existsb app find prefixb length].
  - intros _. rewrite eqc_refl. reflexivity.
  - rewrite orb_false_iff. intros [H1 H2]. rewrite H1. cbn [andb].
    rewrite (IH H2). reflexivity.
Qed.

Lemma skipn_after (s : jsstring) (i : nat) (a r : jsstring) :
  skipn i s = a ++ r -> skipn (i + length a) s = r.
Proof.
  intros H. rewrite Nat.add_comm, <- skipn_skipn, H.
  rewrite skipn_app, skipn_all, Nat.sub_diag. reflexivity.
Qed.

Section ArtifactTag.

Variable input : jsstring.

(** The inner loop on a text that holds the whole marker: at the last
    character of the marker it flushes a lookalike, and otherwise looks
    for the end of the tag. *)
Lemma tagScan_marker (q : jsstring) :
  forall (p rest : jsstring) (j : nat),
  q <> [] ->
  p ++ q = ARTIFACT_TAG_OPEN ->
  skipn j input = q ++ rest ->
  tagScan input (length q) j p
  = if match hd_error rest with
       | Some nextChar => negb (eqc nextChar ">") && negb (eqc nextChar " ")
       | None => false
       end
    then TagFlush (j + length q - 1)
    else match indexOf [">"] input (j + length q - 1) with
         | Some openTagEnd => TagOpen openTagEnd
         | None => TagEarlyBreak
         end.
Proof.
  induction q as [|x q IH]; intros p rest j Hq Hp Hs; [congruence|].
  simpl in Hs. destruct (skipn_cons_inv _ _ _ _ Hs) as [Hn [_ [Hr Hj]]].
  cbn [tagScan length].
  apply Nat.ltb_lt in Hj. rewrite Hj. cbn [andb].
  assert ((length p <? length ARTIFACT_TAG_OPEN) = true) as ->.
  { apply Nat.ltb_lt. rewrite <- Hp, length_app. simpl. lia. }
  rewrite Hn. rewrite <- Hp.
  rewrite eqs_app_same, prefixb_app_same. simpl eqs. rewrite eqc_refl. cbn [andb].
  destruct q as [|y q].
  - cbn [eqs]. rewrite charAt_skipn, Hr. cbn [app length].
    replace (j + 1 - 1) with j by lia. reflexivity.
  - cbn [eqs]. simpl prefixb. rewrite eqc_refl. cbn [andb negb].
    specialize (IH (p ++ [x]) rest (j + 1)).
    rewrite <- app_assoc in IH.
    rewrite (IH ltac:(discriminate) Hp Hr).
    replace (j + 1 + length (y :: q) - 1) with (j + S (length (y :: q)) - 1)
      by (simpl; lia).
    reflexivity.
Qed.

End ArtifactTag.

Lemma step_artifact_open (artifactElement : option (jsstring -> jsstring))
  (callbacks : option ParserCallbacks.t)
  (messageId input : jsstring) (st : MessageState) (i : nat)
  (attrs rest : jsstring) :
  insideArtifact st = false ->
  skipn i input = ARTIFACT_TAG_OPEN ++ attrs ++ ">" :: rest ->
  isTagRest attrs = true ->
  existsb (eqc ">") attrs = false ->
  step artifactElement callbacks messageId input st i
  = Continue
      (set_currentArtifact (set_insideArtifact st true)
         (Some (artifactOf (ARTIFACT_TAG_OPEN ++ attrs ++ [">"]))))
      (i + length (ARTIFACT_TAG_OPEN ++ attrs ++ [">"]))
      (artifactFactory artifactElement messageId)
      (callback callbacks
         (onArtifactOpen
            (mkArtifactData messageId (artifactOf (ARTIFACT_TAG_OPEN ++ attrs ++ [">"]))))).
Proof.
  intros Ha Hs Ht Hg.
  assert (quickActionsBlock input i = None) as Hq.
  { unfold quickActionsBlock, startsWith. rewrite Hs. reflexivity. }
  assert (isChar (charAt input i) "<" && negb (isChar (charAt input (i + 1)) "/") = true)
    as Hlt.
  { change ARTIFACT_TAG_OPEN with ("<" :: "b" :: str "oltArtifact") in Hs.
    cbn [app] in Hs.
    destruct (skipn_cons_inv _ _ _ _ Hs) as [_ [H0 [H1 _]]]. rewrite H0.
    destruct (skipn_cons_inv _ _ _ _ H1) as [_ [H2 _]]. rewrite H2. reflexivity. }
  unfold step. rewrite Hq, Ha, Hlt. unfold stepTag.
  rewrite (tagScan_marker input ARTIFACT_TAG_OPEN [] (attrs ++ ">" :: rest) i
             ltac:(discriminate) eq_refl Hs).
  assert (match hd_error (attrs ++ ">" :: rest) with
          | Some nextChar => negb (eqc nextChar ">") && negb (eqc nextChar " ")
          | None => false
          end = false) as ->.
  { destruct attrs as [|c attrs]; [reflexivity|].
    cbn [isTagRest] in Ht. cbn [app hd_error]. rewrite Ht.
    rewrite andb_false_r. reflexivity. }
  assert (indexOf [">"] input (i + length ARTIFACT_TAG_OPEN - 1)
          = Some (i + length ARTIFACT_TAG_OPEN + length attrs)) as ->.
  { unfold indexOf.
    change ARTIFACT_TAG_OPEN with (str "<boltArtifac" ++ ["t"]) in Hs.
    rewrite <- app_assoc in Hs. apply skipn_after in Hs.
    change (length (str "<boltArtifac")) with 12 in Hs.
    change (length ARTIFACT_TAG_OPEN) with 13.
    replace (i + 13 - 1) with (i + 12) by lia. rewrite Hs.
    change (["t"] ++ attrs ++ ">" :: rest) with (("t" :: attrs) ++ ">" :: rest).
    rewrite find_char by (cbn [existsb]; rewrite Hg; reflexivity).
    cbn [option_map length]. f_equal. lia. }
  assert (slice input i (i + length ARTIFACT_TAG_OPEN + length attrs + 1)
          = ARTIFACT_TAG_OPEN ++ attrs ++ [">"]) as ->.
  { replace (i + length ARTIFACT_TAG_OPEN + length attrs + 1)
      with (i + length (ARTIFACT_TAG_OPEN ++ attrs ++ [">"]))
      by (rewrite !length_app; simpl; lia).
    apply (slice_skipn input i _ _ rest); [|reflexivity].
    rewrite Hs. rewrite <- !app_assoc. reflexivity. }
  unfold artifactOf, artifactFactory.
  replace (i + length ARTIFACT_TAG_OPEN + length attrs + 1)
    with (i + length (ARTIFACT_TAG_OPEN ++ attrs ++ [">"]))
    by (rewrite !length_app; simpl; lia).
  destruct artifactElement; reflexivity.
Qed.

(** X20.  Outside an artifact, at an open tag of an artifact that is in
    the text up to its [>] (the marker, then nothing or a space and
    attributes), the pass makes the artifact-open callback (one call,
    when the options hold the callback) with the [id], [title] and [type]
    that [extractAttribute] reads from the tag, each [undefined] when the
    tag does not carry it, puts the element of the
    [artifactElement] option, or the default element, in the output in
    place of the tag, and goes on after the tag inside the artifact. *)
Theorem artifact_tag_opens (artifactElement : option (jsstring -> jsstring))
  (callbacks : option ParserCallbacks.t)
  (messageId input : jsstring) (st : MessageState) (i : nat)
  (attrs rest : jsstring) :
  insideArtifact st = false ->
  skipn i input = ARTIFACT_TAG_OPEN ++ attrs ++ ">" :: rest ->
  isTagRest attrs = true ->
  existsb (eqc ">") attrs = false ->
  step artifactElement callbacks messageId input st i
  = Continue
      (set_currentArtifact (set_insideArtifact st true)
         (Some (artifactOf (ARTIFACT_TAG_OPEN ++ attrs ++ [">"]))))
      (i + length (ARTIFACT_TAG_OPEN ++ attrs ++ [">"]))
      (artifactFactory artifactElement messageId)
      (callback callbacks
         (onArtifactOpen
            (mkArtifactData messageId (artifactOf (ARTIFACT_TAG_OPEN ++ attrs ++ [">"]))))).
Proof. apply step_artifact_open. Qed.

Lemma artifact_tag_opens_witness :
  step None allCallbacks m1 artifactOpenText initialState 0
  = Continue
      (set_currentArtifact (set_insideArtifact initialState true)
         (Some (artifactOf (ARTIFACT_TAG_OPEN ++ qstr " id='a1' title='T' type='bundled'"
                            ++ [">"]))))
      (0 + length (ARTIFACT_TAG_OPEN ++ qstr " id='a1' title='T' type='bundled'" ++ [">"]))
      (artifactFactory None m1)
      [onArtifactOpen
         (mkArtifactData m1
            (artifactOf (ARTIFACT_TAG_OPEN ++ qstr " id='a1' title='T' type='bundled'"
                         ++ [">"])))].
Proof.
  apply (artifact_tag_opens None allCallbacks m1 artifactOpenText initialState 0
           (qstr " id='a1' title='T' type='bundled'") []); reflexivity.
Defined.

(* ================================================================== *)
(** ** The quick-actions block *)
(* ================================================================== *)

Lemma quickActionButtons_skip (s : jsstring) :
  forall k, quickActionButtons k s = quickActionButtons 0 (skipn k s).
Proof.
  induction s as [|c s IH]; intros k.
  - rewrite skipn_nil. destruct k; reflexivity.
  - destruct k as [|k]; [reflexivity|]. cbn [skipn quickActionButtons]. apply IH.
Qed.

(** Where no entry begins, the loop passes on. *)
Lemma quickActionButtons_pass (l s : jsstring) :
  (forall k, k < length l -> prefixb QUICK_ACTION_OPEN (skipn k (l ++ s)) = false) ->
  quickActionButtons 0 (l ++ s) = quickActionButtons 0 s.
Proof.
  induction l as [|c l IH]; intros H; [reflexivity|].
  cbn [app quickActionButtons]. unfold quickActionMatchAt.
  pose proof (H 0 ltac:(simpl; lia)) as H0. cbn [skipn app] in H0. rewrite H0.
  apply IH. intros k Hk. apply (H (S k)). simpl. lia.
Qed.

Lemma quickActionButtons_none (s : jsstring) :
  find QUICK_ACTION_OPEN s = None -> quickActionButtons 0 s = [].
Proof.
  intros H.
  rewrite <- (app_nil_r s). rewrite quickActionButtons_pass; [reflexivity|].
  intros k _. rewrite app_nil_r. apply find_None. exact H.
Qed.

Lemma find_first (p s : jsstring) (j : nat) :
  find p s = Some j -> forall k, k < j -> prefixb p (skipn k s) = false.
Proof.
  revert j; induction s as [|c s IH]; intros j; cbn [find].
  - destruct (prefixb p []); [|discriminate]. intros [= <-] k Hk. lia.
  - destruct (prefixb p (c :: s)) eqn:E.
    + intros [= <-] k Hk. lia.
    + destruct (find p s) as [j'|] eqn:F; [|discriminate].
      intros [= <-] k Hk. destruct k as [|k]; [exact E|].
      cbn [skipn]. apply (IH j' eq_refl). lia.
Qed.

Lemma firstAt_spec (p s : jsstring) (k : nat) :
  firstAt p s k = true -> find p s = Some k.
Proof.
  unfold firstAt. destruct (find p s) as [j|]; [|discriminate].
  intros H. apply Nat.eqb_eq in H. congruence.
Qed.

Lemma span_stop (f : ascii -> bool) (a : jsstring) (x : ascii) (r : jsstring) :
  forallb f a = true -> f x = false -> span f (a ++ x :: r) = (a, x :: r).
Proof.
  intros Ha Hx. induction a as [|c a IH]; cbn [app span].
  - rewrite Hx. reflexivity.
  - cbn [forallb] in Ha. apply andb_true_iff in Ha as [-> Ha].
    rewrite (IH Ha). reflexivity.
Qed.

Lemma quickActionMatchAt_entry (attrs label more : jsstring) :
  forallb notGt attrs = true ->
  find QUICK_ACTION_CLOSE (label ++ QUICK_ACTION_CLOSE) = Some (length label) ->
  quickActionMatchAt (QUICK_ACTION_OPEN ++ attrs ++ ">" :: label ++ QUICK_ACTION_CLOSE ++ more)
  = Some (attrs, label,
          length QUICK_ACTION_OPEN + length attrs + 1 + length label
          + length QUICK_ACTION_CLOSE).
Proof.
  intros Ha Hc. unfold quickActionMatchAt. rewrite prefixb_app.
  rewrite skipn_app, skipn_all, Nat.sub_diag. cbn [skipn app].
  rewrite (span_stop notGt attrs ">" _ Ha eq_refl).
  rewrite app_assoc, (find_ext more _ _ _ Hc).
  rewrite <- app_assoc, firstn_app, firstn_all, Nat.sub_diag, firstn_O, app_nil_r.
  reflexivity.
Qed.

Lemma quickActionButtons_at (s tagAttrs label : jsstring) (n : nat) :
  1 <= n -> quickActionMatchAt s = Some (tagAttrs, label, n) ->
  quickActionButtons 0 s
  = quickActionButton tagAttrs label :: quickActionButtons 0 (skipn n s).
Proof.
  intros Hn H. destruct s as [|c s]; [discriminate H|].
  cbn [quickActionButtons]. rewrite H. f_equal.
  rewrite quickActionButtons_skip.
  destruct n as [|n]; [lia|]. cbn [skipn]. replace (S n - 1) with n by lia. reflexivity.
Qed.

(** An entry and what follows it: one button, and the loop goes on after
    the close tag of the entry. *)
Lemma quickActionButtons_entry (q : QuickAction) (more : jsstring) :
  isQuickAction q = true ->
  quickActionButtons 0 (quickActionText q ++ more)
  = buttonOf q :: quickActionButtons 0 more.
Proof.
  unfold isQuickAction. intros H.
  apply andb_true_iff in H as [H H3]. apply andb_true_iff in H as [H1 H2].
  apply firstAt_spec in H1, H3.
  unfold quickActionText, buttonOf.
  destruct q as [ld at' la]. cbn [leading attributes caption] in *.
  assert ((ld ++ QUICK_ACTION_OPEN ++ at' ++ ">" :: la ++ QUICK_ACTION_CLOSE) ++ more
          = ld ++ QUICK_ACTION_OPEN ++ at' ++ ">" :: la ++ QUICK_ACTION_CLOSE ++ more) as ->
      by (repeat (rewrite <- app_assoc; cbn [app]); reflexivity).
  rewrite quickActionButtons_pass.
  2:{ intros k Hk.
      rewrite (app_assoc ld QUICK_ACTION_OPEN).
      rewrite skipn_app_le by (rewrite length_app; lia).
      rewrite prefixb_ext_fits by (rewrite length_skipn, length_app; lia).
      exact (find_first _ _ _ H1 k Hk). }
  assert (1 <= length QUICK_ACTION_OPEN + length at' + 1 + length la
               + length QUICK_ACTION_CLOSE) as Hn by lia.
  rewrite (quickActionButtons_at _ at' la _ Hn
             (quickActionMatchAt_entry at' la more H2 H3)).
  f_equal. f_equal.
  assert (QUICK_ACTION_OPEN ++ at' ++ ">" :: la ++ QUICK_ACTION_CLOSE ++ more
          = (QUICK_ACTION_OPEN ++ at' ++ ">" :: la ++ QUICK_ACTION_CLOSE) ++ more) as ->
      by (repeat (rewrite <- app_assoc; cbn [app]); reflexivity).
  replace (length QUICK_ACTION_OPEN + length at' + 1 + length la + length QUICK_ACTION_CLOSE)
    with (length (QUICK_ACTION_OPEN ++ at' ++ ">" :: la ++ QUICK_ACTION_CLOSE))
    by (rewrite !length_app; cbn [length]; rewrite !length_app; lia).
  rewrite skipn_app, skipn_all, Nat.sub_diag. reflexivity.
Qed.

Lemma quickActionButtons_block (qs : list QuickAction) (trailing : jsstring) :
  forallb isQuickAction qs = true ->
  find QUICK_ACTION_OPEN trailing = None ->
  quickActionButtons 0 (blockText qs trailing) = map buttonOf qs.
Proof.
  intros Hq Ht. unfold blockText. induction qs as [|q qs IH]; cbn [flat_map map app].
  - apply quickActionButtons_none. exact Ht.
  - cbn [forallb] in Hq. apply andb_true_iff in Hq as [H1 H2].
    rewrite <- app_assoc, (quickActionButtons_entry q _ H1), (IH H2). reflexivity.
Qed.

(** The close marker of a block does not begin within its open marker. *)
Lemma find_close_after_open (x : jsstring) :
  find BOLT_QUICK_ACTIONS_CLOSE (BOLT_QUICK_ACTIONS_OPEN ++ x)
  = option_map (fun k => length BOLT_QUICK_ACTIONS_OPEN + k)
      (find BOLT_QUICK_ACTIONS_CLOSE x).
Proof.
  cbn [BOLT_QUICK_ACTIONS_OPEN str list_ascii_of_string app find prefixb
         BOLT_QUICK_ACTIONS_CLOSE eqc Ascii.eqb Bool.eqb andb length].
  match goal with |- context [find ?p x] => destruct (find p x) end; reflexivity.
Qed.

(** X21.  A quick-actions block that is in the text up to its close
    marker is turned into markup by the pass at its open marker, in any
    state of the message, also inside an artifact or an action: the
    output gets one group element that holds one button for every entry
    of the block, in order, the text between the entries is dropped, no
    callback is made, the state stays as it is, and the loop goes on after
    the close marker. *)
Theorem quick_actions_block_becomes_markup
  (artifactElement : option (jsstring -> jsstring))
  (callbacks : option ParserCallbacks.t)
  (messageId input : jsstring) (st : MessageState) (i : nat)
  (qs : list QuickAction) (trailing rest : jsstring) :
  skipn i input
  = BOLT_QUICK_ACTIONS_OPEN ++ blockText qs trailing ++ BOLT_QUICK_ACTIONS_CLOSE ++ rest ->
  forallb isQuickAction qs = true ->
  find QUICK_ACTION_OPEN trailing = None ->
  firstAt BOLT_QUICK_ACTIONS_CLOSE (blockText qs trailing ++ BOLT_QUICK_ACTIONS_CLOSE)
    (length (blockText qs trailing)) = true ->
  step artifactElement callbacks messageId input st i
  = Continue st
      (i + length (BOLT_QUICK_ACTIONS_OPEN ++ blockText qs trailing
                   ++ BOLT_QUICK_ACTIONS_CLOSE))
      (createQuickActionGroup (map buttonOf qs)) [].
Proof.
  intros Hs Hq Ht Hc. apply firstAt_spec in Hc.
  unfold step, quickActionsBlock.
  assert (startsWith BOLT_QUICK_ACTIONS_OPEN input i = true) as ->
      by (unfold startsWith; rewrite Hs; apply prefixb_app).
  assert (indexOf BOLT_QUICK_ACTIONS_CLOSE input i
          = Some (i + (length BOLT_QUICK_ACTIONS_OPEN + length (blockText qs trailing))))
    as ->.
  { unfold indexOf. rewrite Hs, find_close_after_open.
    rewrite app_assoc, (find_ext rest _ _ _ Hc). reflexivity. }
  assert (slice input (i + length BOLT_QUICK_ACTIONS_OPEN)
            (i + (length BOLT_QUICK_ACTIONS_OPEN + length (blockText qs trailing)))
          = blockText qs trailing) as ->.
  { rewrite Nat.add_assoc.
    apply (slice_skipn input _ _ _ (BOLT_QUICK_ACTIONS_CLOSE ++ rest)); [|reflexivity].
    apply skipn_after. exact Hs. }
  rewrite (quickActionButtons_block qs trailing Hq Ht).
  rewrite !length_app. f_equal. lia.
Qed.

Lemma quick_actions_block_becomes_markup_witness :
  step None allCallbacks m1
    (str "x" ++ BOLT_QUICK_ACTIONS_OPEN
     ++ blockText [mkQuickAction [LF] (qstr " type='message' message='Hi'") (str "Say hi");
                   mkQuickAction (str " or ") (qstr " type='link' href='/docs'") (str "Docs")]
          [LF]
     ++ BOLT_QUICK_ACTIONS_CLOSE ++ str "y")
    (fileOpenState "a.ts") 1
  = Continue (fileOpenState "a.ts")
      (1 + length (BOLT_QUICK_ACTIONS_OPEN
                   ++ blockText
                        [mkQuickAction [LF] (qstr " type='message' message='Hi'")
                           (str "Say hi");
                         mkQuickAction (str " or ") (qstr " type='link' href='/docs'")
                           (str "Docs")] [LF]
                   ++ BOLT_QUICK_ACTIONS_CLOSE))
      (createQuickActionGroup
         (map buttonOf
            [mkQuickAction [LF] (qstr " type='message' message='Hi'") (str "Say hi");
             mkQuickAction (str " or ") (qstr " type='link' href='/docs'") (str "Docs")]))
      [].
Proof.
  apply (quick_actions_block_becomes_markup None allCallbacks m1 _ (fileOpenState "a.ts") 1
           [mkQuickAction [LF] (qstr " type='message' message='Hi'") (str "Say hi");
            mkQuickAction (str " or ") (qstr " type='link' href='/docs'") (str "Docs")]
           [LF] (str "y")); reflexivity.
Defined.

(* ================================================================== *)
(** ** The markup of an artifact *)
(* ================================================================== *)

(** The quoted forms of the characters are a prefix code: the character
    is read back from the head of a quoted text. *)
Lemma unquoteChar_quoteChar (c : ascii) (r : jsstring) :
  unquoteChar (JSON.quoteChar c ++ r) = Some c.
Proof.
  destruct c as [[] [] [] [] [] [] [] []]; vm_compute; reflexivity.
Qed.

Lemma quoteChar_inj (a b : ascii) (r1 r2 : jsstring) :
  JSON.quoteChar a ++ r1 = JSON.quoteChar b ++ r2 -> a = b /\ r1 = r2.
Proof.
  intros H. assert (a = b) as ->.
  { pose proof (unquoteChar_quoteChar a r1) as Ha.
    rewrite H, unquoteChar_quoteChar in Ha. congruence. }
  split; [reflexivity|]. apply app_inv_head in H. exact H.
Qed.

Lemma quoteChar_nonempty (c : ascii) (r : jsstring) : JSON.quoteChar c ++ r <> [].
Proof.
  intros H. pose proof (unquoteChar_quoteChar c r) as Hc.
  rewrite H in Hc. discriminate Hc.
Qed.

Lemma stringify_inj (a b : jsstring) : JSON.stringify a = JSON.stringify b -> a = b.
Proof.
  unfold JSON.stringify. intros [= H]. apply app_inv_tail in H.
  revert b H; induction a as [|x a IH]; intros [|y b] H; cbn [flat_map] in H.
  - reflexivity.
  - symmetry in H. apply quoteChar_nonempty in H. contradiction.
  - apply quoteChar_nonempty in H. contradiction.
  - apply quoteChar_inj in H as [-> H]. rewrite (IH b H). reflexivity.
Qed.

(** The default element: a [div] of the class [__boltArtifact__] whose
    attribute [data-message-id] is the JSON string of the message id. *)
Lemma createArtifactElement_text (messageId : jsstring) :
  createArtifactElement messageId
  = qstr "<div class='__boltArtifact__' data-message-id="
    ++ JSON.stringify messageId ++ str "></div>".
Proof. reflexivity. Qed.

(** X22.  The default element of an artifact names its message: the
    elements that [createArtifactElement] makes for two message ids are
    the same only when the ids are, for ids with any characters, the
    double quote and the backslash among them. *)
Theorem createArtifactElement_injective (id1 id2 : jsstring) :
  createArtifactElement id1 = createArtifactElement id2 -> id1 = id2.
Proof.
  rewrite !createArtifactElement_text. intros H.
  apply app_inv_head in H. apply app_inv_tail in H.
  apply stringify_inj. exact H.
Qed.

Lemma createArtifactElement_injective_witness : m1 = m1.
Proof. apply (createArtifactElement_injective m1 m1). reflexivity. Defined.

(* ================================================================== *)
(** ** camelToDashCase *)
(* ================================================================== *)

Lemma isLower_not_upper (c : ascii) : isLower c = true -> isUpper c = false.
Proof.
  unfold isLower, isUpper. intros H. apply andb_true_iff in H as [H1 H2].
  apply Nat.leb_le in H1. apply andb_false_iff. right. apply Nat.leb_gt. lia.
Qed.

Lemma lower_word (c : ascii) : isLower c = true -> toLowerCase [c] = [c].
Proof.
  destruct c as [[] [] [] [] [] [] [] []]; vm_compute; intros H;
    solve [reflexivity | discriminate H].
Qed.

Lemma capital_lowered (c : ascii) :
  isLower c = true ->
  isUpper (ascii_of_nat (nat_of_ascii c - 32)) = true
  /\ toLowerCase [ascii_of_nat (nat_of_ascii c - 32)] = [c].
Proof.
  destruct c as [[] [] [] [] [] [] [] []]; vm_compute; intros H;
    solve [split; reflexivity | discriminate H].
Qed.

Lemma toLowerCase_app (a b : jsstring) :
  toLowerCase (a ++ b) = toLowerCase a ++ toLowerCase b.
Proof. apply map_app. Qed.

Lemma toLowerCase_lower (w : jsstring) :
  forallb isLower w = true -> toLowerCase w = w.
Proof.
  induction w as [|c w IH]; [reflexivity|]. cbn [forallb].
  intros H. apply andb_true_iff in H as [H1 H2].
  change (c :: w) with ([c] ++ w). rewrite toLowerCase_app, (lower_word c H1), (IH H2).
  reflexivity.
Qed.

Lemma camelDash_two (a b : ascii) (s : jsstring) :
  camelDash (a :: b :: s)
  = if isLower a && isUpper b then a :: "-" :: b :: camelDash s
    else a :: camelDash (b :: s).
Proof. reflexivity. Qed.

(** No dash is put inside a word of lower-case letters, and one is put
    between the word and the capital letter that follows it. *)
Lemma camelDash_word (w : jsstring) :
  forall U X, w <> [] -> forallb isLower w = true -> isUpper U = true ->
  camelDash (w ++ U :: X) = w ++ "-" :: U :: camelDash X.
Proof.
  induction w as [|a w IH]; intros U X Hn Hw HU; [congruence|].
  cbn [forallb] in Hw. apply andb_true_iff in Hw as [Ha Hw].
  destruct w as [|a' w].
  - cbn [app]. rewrite camelDash_two, Ha, HU. reflexivity.
  - cbn [forallb] in Hw. pose proof Hw as Hw'. apply andb_true_iff in Hw' as [Ha' _].
    change ((a :: a' :: w) ++ U :: X) with (a :: a' :: (w ++ U :: X)).
    rewrite camelDash_two, (isLower_not_upper a' Ha'), andb_false_r.
    change (a' :: w ++ U :: X) with ((a' :: w) ++ U :: X).
    rewrite (IH U X ltac:(discriminate) Hw HU). reflexivity.
Qed.

Lemma camelDash_lower (w : jsstring) : forallb isLower w = true -> camelDash w = w.
Proof.
  induction w as [|a w IH]; [reflexivity|]. cbn [forallb].
  intros H. apply andb_true_iff in H as [Ha Hw].
  destruct w as [|a' w]; [reflexivity|].
  cbn [forallb] in Hw. pose proof Hw as Hw'. apply andb_true_iff in Hw' as [Ha' _].
  rewrite camelDash_two, (isLower_not_upper a' Ha'), andb_false_r.
  rewrite (IH Hw). reflexivity.
Qed.

Lemma join_dash (first : jsstring) (others : list jsstring) :
  join (str "-") (first :: others) = first ++ flat_map (fun w => "-" :: w) others.
Proof.
  revert first; induction others as [|w ws IH]; intros first.
  - cbn. rewrite app_nil_r. reflexivity.
  - change (join (str "-") (first :: w :: ws))
      with (first ++ str "-" ++ join (str "-") (w :: ws)).
    rewrite IH. reflexivity.
Qed.

Lemma camelToDashCase_camelCase (others : list jsstring) :
  forall first,
  first <> [] -> forallb isLower first = true ->
  forallb isLowerWord others = true ->
  camelToDashCase (camelCase first others) = first ++ flat_map (fun w => "-" :: w) others.
Proof.
  unfold camelToDashCase, camelCase.
  induction others as [|w ws IH]; intros first Hn Hf Ho.
  - cbn [flat_map]. rewrite app_nil_r, (camelDash_lower first Hf).
    apply toLowerCase_lower. exact Hf.
  - cbn [forallb] in Ho. apply andb_true_iff in Ho as [Hw Hws].
    unfold isLowerWord in Hw. apply andb_true_iff in Hw as [Hl Hw].
    apply Nat.leb_le in Hl.
    destruct w as [|c [|c' w]]; try (simpl in Hl; lia).
    cbn [forallb] in Hw. apply andb_true_iff in Hw as [Hc Hw].
    destruct (capital_lowered c Hc) as [HU HL].
    cbn [flat_map capitalize app].
    rewrite (camelDash_word first _ _ Hn Hf HU).
    change (c' :: w ++ flat_map capitalize ws) with ((c' :: w) ++ flat_map capitalize ws).
    change (first ++ "-" :: ?u :: ?r) with (first ++ ["-"] ++ [u] ++ r).
    rewrite !toLowerCase_app, HL, (toLowerCase_lower first Hf).
    rewrite (IH (c' :: w) ltac:(discriminate) Hw Hws). reflexivity.
Qed.

(** X23.  [camelToDashCase] turns a name in camel case into the name
    with dashes: for a first word of lower-case letters and further words
    of two or more lower-case letters, each written with a capital first
    letter, the result is the words in lower case joined by dashes, as in
    [message-id] for the key [messageId]. *)
Theorem camelToDashCase_joins_the_words (first : jsstring) (others : list jsstring) :
  nonEmpty first = true -> forallb isLower first = true ->
  forallb isLowerWord others = true ->
  camelToDashCase (camelCase first others) = join (str "-") (first :: others).
Proof.
  intros Hn Hf Ho. rewrite join_dash. apply camelToDashCase_camelCase; try assumption.
  destruct first; [discriminate Hn | discriminate].
Qed.

Lemma camelToDashCase_joins_the_words_witness :
  camelToDashCase (camelCase (str "data") [str "message"; str "id"])
  = join (str "-") [str "data"; str "message"; str "id"].
Proof.
  apply (camelToDashCase_joins_the_words (str "data") [str "message"; str "id"]);
    reflexivity.
Defined.

(* ================================================================== *)
(** ** Witnesses *)
(* ================================================================== *)

Lemma parse_reads_from_cursor_witness :
  parse (parserOf (parse (freshParser None) m1 artifactOpenText)) m1
    (artifactOpenText ++ qstr "<boltAction type='shell'>ls</boltAction>")
  = parse (parserOf (parse (freshParser None) m1 artifactOpenText)) m1
      (repeat "x" (length artifactOpenText)
       ++ qstr "<boltAction type='shell'>ls</boltAction>").
Proof.
  apply (parse_reads_from_cursor
           (parserOf (parse (freshParser None) m1 artifactOpenText)) m1
           (artifactOpenText ++ qstr "<boltAction type='shell'>ls</boltAction>")
           (repeat "x" (length artifactOpenText)
            ++ qstr "<boltAction type='shell'>ls</boltAction>"));
    reflexivity.
Defined.

(* ================================================================== *)
(** ** Tags inside an artifact *)
(* ================================================================== *)

(** [#parseActionTag] reads the text of the tag only. *)
Lemma parseActionTag_slice (input : jsstring) (o e : nat) :
  parseActionTag input o e = recordOf (slice input o (e + 1)).
Proof.
  unfold recordOf, parseActionTag.
  assert (forall t : jsstring, slice t 0 (length t - 1 + 1) = t) as H.
  { intros t. unfold slice. cbn [skipn]. apply firstn_all2. lia. }
  rewrite H. reflexivity.
Qed.

(** A marker that begins with [<] is not found in text without [<]. *)
Lemma find_past (p' junk s : jsstring) :
  existsb (eqc "<") junk = false ->
  find ("<" :: p') (junk ++ s) = option_map (Nat.add (length junk)) (find ("<" :: p') s).
Proof.
  induction junk as [|c junk IH]; cbn [existsb app length].
  - intros _. destruct (find ("<" :: p') s); reflexivity.
  - rewrite orb_false_iff. intros [H1 H2]. cbn [find prefixb]. rewrite H1. cbn [andb].
    rewrite (IH H2). destruct (find ("<" :: p') s); reflexivity.
Qed.

Lemma startsWith_past (p' junk s : jsstring) :
  existsb (eqc "<") junk = false -> junk <> [] ->
  prefixb ("<" :: p') (junk ++ s) = false.
Proof.
  destruct junk as [|c junk]; [congruence|]. cbn [existsb app prefixb].
  rewrite orb_false_iff. intros [H1 _] _. rewrite H1. reflexivity.
Qed.

Lemma step_action_open (artifactElement : option (jsstring -> jsstring))
  (callbacks : option ParserCallbacks.t)
  (messageId input : jsstring) (st : MessageState) (a : BoltArtifactData)
  (i : nat) (junk x rest : jsstring) :
  insideArtifact st = true -> currentArtifact st = Some a -> insideAction st = false ->
  skipn i input = junk ++ ARTIFACT_ACTION_TAG_OPEN ++ x ++ ">" :: rest ->
  existsb (eqc "<") junk = false ->
  existsb (eqc ">") x = false ->
  step artifactElement callbacks messageId input st i
  = match recordOf (ARTIFACT_ACTION_TAG_OPEN ++ x ++ [">"]) with
    | Ok act =>
        let opened :=
          onActionOpen (mkActionData (id a) messageId (String_of_Z (actionId st)) act) in
        Continue
          (set_actionId (set_currentAction (set_insideAction st true) act)
             (if registered callbacks opened then actionId st + 1 else actionId st))
          (i + length (junk ++ ARTIFACT_ACTION_TAG_OPEN ++ x ++ [">"]))
          []
          (callback callbacks opened)
    | Raise e => Throw (set_insideAction st true) [] e
    end.
Proof.
  intros Ha Hc Hi Hs Hj Hx.
  assert (quickActionsBlock input i = None) as Hq.
  { unfold quickActionsBlock, startsWith. rewrite Hs.
    destruct junk as [|c junk]; [reflexivity|].
    change BOLT_QUICK_ACTIONS_OPEN with ("<" :: str "bolt-quick-actions>").
    rewrite startsWith_past; [reflexivity | exact Hj | discriminate]. }
  unfold step. rewrite Hq, Ha, Hc, Hi. unfold stepInsideArtifact.
  assert (indexOf ARTIFACT_ACTION_TAG_OPEN input i = Some (i + length junk)) as ->.
  { unfold indexOf. rewrite Hs.
    change ARTIFACT_ACTION_TAG_OPEN with ("<" :: str "boltAction") at 1.
    rewrite (find_past _ _ _ Hj).
    change ("<" :: str "boltAction") with ARTIFACT_ACTION_TAG_OPEN.
    assert (find ARTIFACT_ACTION_TAG_OPEN (ARTIFACT_ACTION_TAG_OPEN ++ x ++ ">" :: rest)
            = Some 0) as -> by reflexivity.
    cbn [option_map]. f_equal. lia. }
  assert (match indexOf ARTIFACT_TAG_CLOSE input i with
          | Some c => i + length junk <? c
          | None => true
          end = true) as ->.
  { unfold indexOf. rewrite Hs.
    change ARTIFACT_TAG_CLOSE with ("<" :: str "/boltArtifact>").
    rewrite (find_past _ _ _ Hj).
    change ARTIFACT_ACTION_TAG_OPEN with ("<" :: "b" :: str "oltAction").
    cbn [app find prefixb eqc Ascii.eqb Bool.eqb andb str list_ascii_of_string].
    match goal with |- context [find ?p ?s] => destruct (find p s) end;
      cbn [option_map]; [apply Nat.ltb_lt; lia | reflexivity]. }
  unfold openAction.
  assert (skipn (i + length junk) input = ARTIFACT_ACTION_TAG_OPEN ++ x ++ ">" :: rest)
    as Hs' by (apply skipn_after; exact Hs).
  assert (indexOf [">"] input (i + length junk)
          = Some (i + length junk + length (ARTIFACT_ACTION_TAG_OPEN ++ x))) as ->.
  { unfold indexOf. rewrite Hs', app_assoc, find_char; [reflexivity|].
    rewrite existsb_app, Hx. reflexivity. }
  rewrite parseActionTag_slice.
  assert (slice input (i + length junk)
            (i + length junk + length (ARTIFACT_ACTION_TAG_OPEN ++ x) + 1)
          = ARTIFACT_ACTION_TAG_OPEN ++ x ++ [">"]) as ->.
  { replace (i + length junk + length (ARTIFACT_ACTION_TAG_OPEN ++ x) + 1)
      with (i + length junk + length (ARTIFACT_ACTION_TAG_OPEN ++ x ++ [">"]))
      by (rewrite !length_app; simpl; lia).
    apply (slice_skipn input _ _ _ rest); [|reflexivity].
    rewrite Hs'. rewrite <- !app_assoc. reflexivity. }
  unfold actionEvent.
  replace (i + length junk + length (ARTIFACT_ACTION_TAG_OPEN ++ x) + 1)
    with (i + length (junk ++ ARTIFACT_ACTION_TAG_OPEN ++ x ++ [">"]))
    by (rewrite !length_app; simpl; lia).
  destruct (recordOf (ARTIFACT_ACTION_TAG_OPEN ++ x ++ [">"])); reflexivity.
Qed.

(** X24.  Inside an artifact and outside an action, at text without [<]
    followed by an action tag that is in the text up to its [>], the pass
    drops the text before the tag and opens the action: its record is
    what [#parseActionTag] makes of the tag; when the options hold the
    action-open callback, it is called with the identifier of the
    artifact and the counter of the message, and the counter goes up by
    one; when they do not, no call is made and the counter stays as it
    is; when [#parseActionTag] throws, the pass throws with
    [insideAction] set.  The tag is whatever begins with
    [<boltAction] and runs to the next [>]: no space is needed after the
    marker. *)
Theorem action_tag_opens (artifactElement : option (jsstring -> jsstring))
  (callbacks : option ParserCallbacks.t)
  (messageId input : jsstring) (st : MessageState) (a : BoltArtifactData)
  (i : nat) (junk x rest : jsstring) :
  insideArtifact st = true -> currentArtifact st = Some a -> insideAction st = false ->
  skipn i input = junk ++ ARTIFACT_ACTION_TAG_OPEN ++ x ++ ">" :: rest ->
  existsb (eqc "<") junk = false ->
  existsb (eqc ">") x = false ->
  step artifactElement callbacks messageId input st i
  = match recordOf (ARTIFACT_ACTION_TAG_OPEN ++ x ++ [">"]) with
    | Ok act =>
        let opened :=
          onActionOpen (mkActionData (id a) messageId (String_of_Z (actionId st)) act) in
        Continue
          (set_actionId (set_currentAction (set_insideAction st true) act)
             (if registered callbacks opened then actionId st + 1 else actionId st))
          (i + length (junk ++ ARTIFACT_ACTION_TAG_OPEN ++ x ++ [">"]))
          []
          (callback callbacks opened)
    | Raise e => Throw (set_insideAction st true) [] e
    end.
Proof. apply step_action_open. Qed.

Lemma action_tag_opens_witness :
  step None allCallbacks m1 (qstr "plan <boltActionList type='shell'>ls")
    (mkState 0 true false (Some a1) emptyAction 2) 0
  = match recordOf (ARTIFACT_ACTION_TAG_OPEN ++ qstr "List type='shell'" ++ [">"]) with
    | Ok act =>
        Continue
          (set_actionId
             (set_currentAction
                (set_insideAction (mkState 0 true false (Some a1) emptyAction 2) true) act)
             (actionId (mkState 0 true false (Some a1) emptyAction 2) + 1))
          (0 + length (str "plan " ++ ARTIFACT_ACTION_TAG_OPEN ++ qstr "List type='shell'"
                       ++ [">"]))
          []
          [onActionOpen
             (mkActionData (id a1) m1
                (String_of_Z (actionId (mkState 0 true false (Some a1) emptyAction 2))) act)]
    | Raise e => Throw (set_insideAction (mkState 0 true false (Some a1) emptyAction 2) true) [] e
    end.
Proof.
  apply (action_tag_opens None allCallbacks m1 (qstr "plan <boltActionList type='shell'>ls")
           (mkState 0 true false (Some a1) emptyAction 2) a1 0
           (str "plan ") (qstr "List type='shell'") (str "ls")); reflexivity.
Defined.

Lemma step_artifact_close (artifactElement : option (jsstring -> jsstring))
  (callbacks : option ParserCallbacks.t)
  (messageId input : jsstring) (st : MessageState) (a : BoltArtifactData)
  (i : nat) (junk rest : jsstring) :
  insideArtifact st = true -> currentArtifact st = Some a -> insideAction st = false ->
  skipn i input = junk ++ ARTIFACT_TAG_CLOSE ++ rest ->
  existsb (eqc "<") junk = false ->
  step artifactElement callbacks messageId input st i
  = Continue (set_currentArtifact (set_insideArtifact st false) None)
      (i + length (junk ++ ARTIFACT_TAG_CLOSE)) []
      (callback callbacks (onArtifactClose (mkArtifactData messageId a))).
Proof.
  intros Ha Hc Hi Hs Hj.
  assert (quickActionsBlock input i = None) as Hq.
  { unfold quickActionsBlock, startsWith. rewrite Hs.
    destruct junk as [|c junk]; [reflexivity|].
    change BOLT_QUICK_ACTIONS_OPEN with ("<" :: str "bolt-quick-actions>").
    rewrite startsWith_past; [reflexivity | exact Hj | discriminate]. }
  unfold step. rewrite Hq, Ha, Hc, Hi. unfold stepInsideArtifact.
  assert (indexOf ARTIFACT_TAG_CLOSE input i = Some (i + length junk)) as ->.
  { unfold indexOf. rewrite Hs.
    change ARTIFACT_TAG_CLOSE with ("<" :: str "/boltArtifact>") at 1.
    rewrite (find_past _ _ _ Hj).
    change ("<" :: str "/boltArtifact>") with ARTIFACT_TAG_CLOSE.
    assert (find ARTIFACT_TAG_CLOSE (ARTIFACT_TAG_CLOSE ++ rest) = Some 0) as ->
        by reflexivity.
    cbn [option_map]. f_equal. lia. }
  assert (closeArtifact callbacks messageId st a (Some (i + length junk))
          = Continue (set_currentArtifact (set_insideArtifact st false) None)
              (i + length (junk ++ ARTIFACT_TAG_CLOSE)) []
              (callback callbacks (onArtifactClose (mkArtifactData messageId a)))) as Hclose.
  { unfold closeArtifact. rewrite length_app, Nat.add_assoc. reflexivity. }
  destruct (indexOf ARTIFACT_ACTION_TAG_OPEN input i) as [o|] eqn:Eo; [|exact Hclose].
  assert ((o <? i + length junk) = false) as ->; [|exact Hclose].
  apply Nat.ltb_ge. unfold indexOf in Eo. rewrite Hs in Eo.
  change ARTIFACT_ACTION_TAG_OPEN with ("<" :: str "boltAction") in Eo.
  rewrite (find_past _ _ _ Hj) in Eo.
  destruct (find ("<" :: str "boltAction") (ARTIFACT_TAG_CLOSE ++ rest)) as [k|];
    [|discriminate Eo].
  cbn [option_map] in Eo. injection Eo as <-. lia.
Qed.

(** X25.  Inside an artifact and outside an action, at text without [<]
    followed by the close tag of the artifact, the pass drops the text,
    makes the artifact-close callback (one call, when the options hold
    the callback) with the record of the artifact,
    leaves the artifact and goes on after the close tag. *)
Theorem artifact_tag_closes (artifactElement : option (jsstring -> jsstring))
  (callbacks : option ParserCallbacks.t)
  (messageId input : jsstring) (st : MessageState) (a : BoltArtifactData)
  (i : nat) (junk rest : jsstring) :
  insideArtifact st = true -> currentArtifact st = Some a -> insideAction st = false ->
  skipn i input = junk ++ ARTIFACT_TAG_CLOSE ++ rest ->
  existsb (eqc "<") junk = false ->
  step artifactElement callbacks messageId input st i
  = Continue (set_currentArtifact (set_insideArtifact st false) None)
      (i + length (junk ++ ARTIFACT_TAG_CLOSE)) []
      (callback callbacks (onArtifactClose (mkArtifactData messageId a))).
Proof. apply step_artifact_close. Qed.

Lemma artifact_tag_closes_witness :
  step None allCallbacks m1 (str "done </boltArtifact> bye") (mkState 0 true false (Some a1)
      emptyAction 2) 0
  = Continue
      (set_currentArtifact
         (set_insideArtifact (mkState 0 true false (Some a1) emptyAction 2) false) None)
      (0 + length (str "done " ++ ARTIFACT_TAG_CLOSE)) []
      [onArtifactClose (mkArtifactData m1 a1)].
Proof.
  apply (artifact_tag_closes None allCallbacks m1 (str "done </boltArtifact> bye")
           (mkState 0 true false (Some a1) emptyAction 2) a1 0 (str "done ") (str " bye"));
    reflexivity.
Defined.

(* ================================================================== *)
(** ** A document with one action *)
(* ================================================================== *)

Section Document.

Variable artifactElement : option (jsstring -> jsstring).
Variable callbacks : option ParserCallbacks.t.
Variable messageId : jsstring.
Variable input : jsstring.

(** A pass that goes on, in a loop with fuel for the whole text. *)
Lemma scan_pass (st : MessageState) (i : nat) (output : jsstring) (evs : list Event)
  (st' : MessageState) (i' : nat) (out : jsstring) (e : list Event) :
  i < length input ->
  step artifactElement callbacks messageId input st i = Continue st' i' out e ->
  scan artifactElement callbacks messageId input (length input) st i output evs
  = scan artifactElement callbacks messageId input (length input) st' i' (output ++ out) (evs ++ e).
Proof.
  intros Hi Hs.
  rewrite (scan_fuel artifactElement callbacks messageId input (length input) (S (length input)))
    by lia.
  apply (scan_continue artifactElement callbacks messageId input); assumption.
Qed.

(** Outside an artifact, text without [<] is copied to the output. *)
Lemma scan_plain (t : jsstring) :
  forall (st : MessageState) (i : nat) (output : jsstring) (evs : list Event)
         (s : jsstring),
  insideArtifact st = false -> plain t = true -> skipn i input = t ++ s ->
  scan artifactElement callbacks messageId input (length input) st i output evs
  = scan artifactElement callbacks messageId input (length input) st (i + length t)
      (output ++ t) evs.
Proof.
  unfold plain. induction t as [|c t IH]; intros st i output evs s Ha Hp Hs.
  - cbn [length]. rewrite Nat.add_0_r, app_nil_r. reflexivity.
  - cbn [existsb] in Hp. apply negb_true_iff in Hp. apply orb_false_iff in Hp as [Hc Hp].
    cbn [app] in Hs. destruct (skipn_cons_inv _ _ _ _ Hs) as [_ [H0 [H1 Hi]]].
    assert (step artifactElement callbacks messageId input st i = Continue st (i + 1) [c] []) as E.
    { unfold step, quickActionsBlock, startsWith. rewrite Hs.
      change BOLT_QUICK_ACTIONS_OPEN with ("<" :: str "bolt-quick-actions>").
      cbn [prefixb]. rewrite Hc. cbn [andb]. rewrite Ha, H0. cbn [isChar].
      rewrite Ascii.eqb_sym in Hc. unfold eqc in *. rewrite Hc. cbn [andb].
      unfold charText. rewrite H0. reflexivity. }
    rewrite (scan_pass st i output evs st (i + 1) [c] [] Hi E).
    rewrite (IH st (i + 1) (output ++ [c]) (evs ++ []) s Ha
               ltac:(apply negb_true_iff; exact Hp) H1).
    rewrite app_nil_r, <- app_assoc. cbn [app length].
    replace (i + 1 + length t) with (i + S (length t)) by lia. reflexivity.
Qed.

(** Inside an action that can close, text without [<] up to the close tag
    is the content of the action. *)
Lemma step_action_close (st : MessageState) (a : BoltArtifactData) (i : nat)
  (body rest : jsstring) :
  insideArtifact st = true -> currentArtifact st = Some a -> insideAction st = true ->
  content (currentAction st) = [] -> pathless (fields (currentAction st)) = false ->
  skipn i input = body ++ ARTIFACT_ACTION_TAG_CLOSE ++ rest ->
  plain body = true ->
  step artifactElement callbacks messageId input st i
  = Continue (set_currentAction (set_insideAction st false) emptyAction)
      (i + length (body ++ ARTIFACT_ACTION_TAG_CLOSE)) []
      (callback callbacks
         (onActionClose
            (mkActionData (id a) messageId (String_of_Z (actionId st - 1))
               (mkAction (fields (currentAction st))
                  (closedContent (fields (currentAction st)) body))))).
Proof.
  intros Ha Hc Hi Hcont Hp Hs Hb. unfold plain in Hb. apply negb_true_iff in Hb.
  assert (quickActionsBlock input i = None) as Hq.
  { unfold quickActionsBlock, startsWith. rewrite Hs.
    destruct body as [|c body]; [reflexivity|].
    change BOLT_QUICK_ACTIONS_OPEN with ("<" :: str "bolt-quick-actions>").
    rewrite startsWith_past; [reflexivity | exact Hb | discriminate]. }
  unfold step. rewrite Hq, Ha, Hc, Hi. unfold stepInsideAction.
  assert (indexOf ARTIFACT_ACTION_TAG_CLOSE input i = Some (i + length body)) as ->.
  { unfold indexOf. rewrite Hs.
    change ARTIFACT_ACTION_TAG_CLOSE with ("<" :: str "/boltAction>") at 1.
    rewrite (find_past _ _ _ Hb).
    change ("<" :: str "/boltAction>") with ARTIFACT_ACTION_TAG_CLOSE.
    assert (find ARTIFACT_ACTION_TAG_CLOSE (ARTIFACT_ACTION_TAG_CLOSE ++ rest) = Some 0)
      as -> by reflexivity.
    cbn [option_map]. f_equal. lia. }
  rewrite Hcont. cbn [app].
  rewrite (slice_skipn input i (length body) body _ Hs eq_refl).
  unfold closedContent, actionEvent. rewrite length_app, Nat.add_assoc.
  destruct (fields (currentAction st)) as [| | [q|] | | | |];
    try discriminate Hp; reflexivity.
Qed.


(** A position at which text that is not empty begins is in the text. *)
Lemma document_inside (i : nat) (c : ascii) (t : jsstring) :
  skipn i input = c :: t -> i < length input.
Proof.
  intros H. assert (i < length input \/ length input <= i) as [Hi|Hi] by lia; [exact Hi|].
  rewrite skipn_all2 in H by exact Hi. discriminate H.
Qed.

Variables pre attrs between x body after post : jsstring.
Variable act : BoltActionData.

Hypothesis Hinput :
  input = pre ++ ARTIFACT_TAG_OPEN ++ attrs ++ ">"
            :: between ++ ARTIFACT_ACTION_TAG_OPEN ++ x ++ ">"
            :: body ++ ARTIFACT_ACTION_TAG_CLOSE ++ after ++ ARTIFACT_TAG_CLOSE ++ post.
Hypothesis Hpre : plain pre = true.
Hypothesis Hbetween : plain between = true.
Hypothesis Hbody : plain body = true.
Hypothesis Hafter : plain after = true.
Hypothesis Hpost : plain post = true.
Hypothesis Hrest : isTagRest attrs = true.
Hypothesis Hattrs : existsb (eqc ">") attrs = false.
Hypothesis Hx : existsb (eqc ">") x = false.
Hypothesis Hrecord : recordOf (ARTIFACT_ACTION_TAG_OPEN ++ x ++ [">"]) = Ok act.
Hypothesis Hpath : pathless (fields act) = false.
Hypothesis Hall : callbacks = allCallbacks.

Lemma document_registered (e : Event) : registered callbacks e = true.
Proof. rewrite Hall. destruct e; reflexivity. Qed.

Lemma document_called (e : Event) : callback callbacks e = [e].
Proof. unfold callback. rewrite document_registered. reflexivity. Qed.

Let art : BoltArtifactData := artifactOf (ARTIFACT_TAG_OPEN ++ attrs ++ [">"]).

(** The states of the message and the positions of the loop on the way. *)
Let s1 : MessageState :=
  set_currentArtifact (set_insideArtifact initialState true) (Some art).
Let s2 : MessageState :=
  set_actionId (set_currentAction (set_insideAction s1 true) act) (actionId s1 + 1).
Let s3 : MessageState := set_currentAction (set_insideAction s2 false) emptyAction.
Let s4 : MessageState := set_currentArtifact (set_insideArtifact s3 false) None.
Let i1 : nat := 0 + length pre.
Let i2 : nat := i1 + length (ARTIFACT_TAG_OPEN ++ attrs ++ [">"]).
Let i3 : nat := i2 + length (between ++ ARTIFACT_ACTION_TAG_OPEN ++ x ++ [">"]).
Let i4 : nat := i3 + length (body ++ ARTIFACT_ACTION_TAG_CLOSE).
Let i5 : nat := i4 + length (after ++ ARTIFACT_TAG_CLOSE).

Lemma document_at_0 :
  skipn 0 input
  = pre ++ ARTIFACT_TAG_OPEN ++ attrs ++ ">"
      :: between ++ ARTIFACT_ACTION_TAG_OPEN ++ x ++ ">"
      :: body ++ ARTIFACT_ACTION_TAG_CLOSE ++ after ++ ARTIFACT_TAG_CLOSE ++ post.
Proof. exact Hinput. Qed.

Lemma document_at_1 :
  skipn i1 input
  = ARTIFACT_TAG_OPEN ++ attrs ++ ">"
      :: between ++ ARTIFACT_ACTION_TAG_OPEN ++ x ++ ">"
      :: body ++ ARTIFACT_ACTION_TAG_CLOSE ++ after ++ ARTIFACT_TAG_CLOSE ++ post.
Proof. apply skipn_after. exact document_at_0. Qed.

Lemma document_at_2 :
  skipn i2 input
  = between ++ ARTIFACT_ACTION_TAG_OPEN ++ x ++ ">"
      :: body ++ ARTIFACT_ACTION_TAG_CLOSE ++ after ++ ARTIFACT_TAG_CLOSE ++ post.
Proof.
  apply skipn_after. rewrite document_at_1.
  repeat (rewrite <- app_assoc; cbn [app]). reflexivity.
Qed.

Lemma document_at_3 :
  skipn i3 input = body ++ ARTIFACT_ACTION_TAG_CLOSE ++ after ++ ARTIFACT_TAG_CLOSE ++ post.
Proof.
  apply skipn_after. rewrite document_at_2.
  repeat (rewrite <- app_assoc; cbn [app]). reflexivity.
Qed.

Lemma document_at_4 : skipn i4 input = after ++ ARTIFACT_TAG_CLOSE ++ post.
Proof.
  apply skipn_after. rewrite document_at_3.
  repeat (rewrite <- app_assoc; cbn [app]). reflexivity.
Qed.

Lemma document_at_5 : skipn i5 input = post ++ [].
Proof.
  rewrite app_nil_r. apply skipn_after. rewrite document_at_4.
  repeat (rewrite <- app_assoc; cbn [app]). reflexivity.
Qed.

Lemma document_length : i5 + length post = length input.
Proof.
  unfold i5, i4, i3, i2, i1. rewrite Hinput.
  repeat (rewrite length_app; cbn [length]). lia.
Qed.

Lemma document_passes :
  parseState artifactElement callbacks messageId input initialState
  = (set_position s4 (length input),
     [onArtifactOpen (mkArtifactData messageId art);
      onActionOpen (mkActionData (id art) messageId (String_of_Z (actionId s1)) act);
      onActionClose
        (mkActionData (id art) messageId (String_of_Z (actionId s2 - 1))
           (mkAction (fields act) (closedContent (fields act) body)));
      onArtifactClose (mkArtifactData messageId art)],
     Returns (pre ++ artifactFactory artifactElement messageId ++ post)).
Proof.
  unfold parseState. change (position initialState) with 0.
  (* the text before the artifact *)
  rewrite (scan_plain pre initialState 0 [] [] _ eq_refl Hpre document_at_0).
  fold i1.
  (* the open tag of the artifact *)
  rewrite (scan_pass initialState i1 ([] ++ pre) [] _ _ _ _
             (document_inside _ _ _ document_at_1)
             (step_artifact_open artifactElement callbacks messageId input initialState i1 attrs _
                eq_refl document_at_1 Hrest Hattrs)).
  rewrite document_called. fold art s1 i2.
  (* the action tag *)
  pose proof (step_action_open artifactElement callbacks messageId input s1 art i2 between x _
                eq_refl eq_refl eq_refl document_at_2
                ltac:(apply negb_true_iff; exact Hbetween) Hx) as S2.
  rewrite Hrecord in S2. cbv zeta in S2.
  rewrite document_registered, document_called in S2. fold s2 i3 in S2.
  assert (i2 < length input) as L2.
  { pose proof document_at_2 as H. destruct between; exact (document_inside _ _ _ H). }
  rewrite (scan_pass s1 i2 _ _ _ _ _ _ L2 S2).
  (* the content and the close tag of the action *)
  pose proof (step_action_close s2 art i3 body _ eq_refl eq_refl eq_refl
                (parseActionTag_content _ _ _ _ Hrecord) Hpath document_at_3 Hbody) as S3.
  rewrite document_called in S3.
  fold s3 i4 in S3. change (fields (currentAction s2)) with (fields act) in S3.
  assert (i3 < length input) as L3.
  { pose proof document_at_3 as H. destruct body; exact (document_inside _ _ _ H). }
  rewrite (scan_pass s2 i3 _ _ _ _ _ _ L3 S3).
  (* the close tag of the artifact *)
  pose proof (step_artifact_close artifactElement callbacks messageId input s3 art i4 after post
                eq_refl eq_refl eq_refl document_at_4
                ltac:(apply negb_true_iff; exact Hafter)) as S4.
  rewrite document_called in S4. fold s4 i5 in S4.
  assert (i4 < length input) as L4.
  { pose proof document_at_4 as H. destruct after; exact (document_inside _ _ _ H). }
  rewrite (scan_pass s3 i4 _ _ _ _ _ _ L4 S4).
  (* the text after the artifact *)
  rewrite (scan_plain post s4 i5 _ _ [] eq_refl Hpost document_at_5).
  rewrite document_length, scan_done by lia.
  cbn [app]. rewrite !app_nil_r, <- app_assoc. reflexivity.
Qed.

End Document.

Lemma actionDocument_parts (pre attrs between x body after post : jsstring) :
  actionDocument pre attrs between x body after post
  = pre ++ ARTIFACT_TAG_OPEN ++ attrs ++ ">"
      :: between ++ ARTIFACT_ACTION_TAG_OPEN ++ x ++ ">"
      :: body ++ ARTIFACT_ACTION_TAG_CLOSE ++ after ++ ARTIFACT_TAG_CLOSE ++ post.
Proof.
  unfold actionDocument. repeat (rewrite <- app_assoc; cbn [app]). reflexivity.
Qed.

(** X26.  A document with one action, in one call on a new parser whose
    options hold all five callbacks: text
    without [<], the open tag of an artifact, an action tag that
    [#parseActionTag] accepts (other than a file action without a path),
    content without [<], the close tags, and text without [<], with text
    without [<] between the tags.  The call returns the text before the
    artifact, the element of the artifact, and the text after it; it
    makes four callbacks, artifact-open, action-open, action-close with
    the content of the action, and artifact-close, the two of the action
    with the identifier [0]; and it leaves the message outside any
    artifact, the cursor at the end of the text and one action counted. *)
Theorem one_action_document (artifactElement : option (jsstring -> jsstring))
  (messageId pre attrs between x body after post : jsstring) (act : BoltActionData) :
  plain pre = true -> plain between = true -> plain body = true ->
  plain after = true -> plain post = true ->
  isTagRest attrs = true -> existsb (eqc ">") attrs = false ->
  existsb (eqc ">") x = false ->
  recordOf (ARTIFACT_ACTION_TAG_OPEN ++ x ++ [">"]) = Ok act ->
  pathless (fields act) = false ->
  parse (freshParser artifactElement) messageId
    (actionDocument pre attrs between x body after post)
  = (mkParser artifactElement allCallbacks
       [(messageId,
         mkState (length (actionDocument pre attrs between x body after post))
           false false None emptyAction 1)],
     [onArtifactOpen
        (mkArtifactData messageId (artifactOf (ARTIFACT_TAG_OPEN ++ attrs ++ [">"])));
      onActionOpen
        (mkActionData (id (artifactOf (ARTIFACT_TAG_OPEN ++ attrs ++ [">"]))) messageId
           (str "0") act);
      onActionClose
        (mkActionData (id (artifactOf (ARTIFACT_TAG_OPEN ++ attrs ++ [">"]))) messageId
           (str "0") (mkAction (fields act) (closedContent (fields act) body)));
      onArtifactClose
        (mkArtifactData messageId (artifactOf (ARTIFACT_TAG_OPEN ++ attrs ++ [">"])))],
     Returns (pre ++ artifactFactory artifactElement messageId ++ post)).
Proof.
  intros Hpre Hbet Hbody Haft Hpost Hrest Hattrs Hx Hrec Hpath.
  rewrite parse_unfold.
  change (stateOf (freshParser artifactElement) messageId) with initialState.
  change (artifactElementOption (freshParser artifactElement)) with artifactElement.
  change (callbacksOption (freshParser artifactElement)) with allCallbacks.
  rewrite (document_passes artifactElement allCallbacks messageId _
             pre attrs between x body after post
             act (actionDocument_parts pre attrs between x body after post)
             Hpre Hbet Hbody Haft Hpost Hrest Hattrs Hx Hrec Hpath eq_refl).
  reflexivity.
Qed.

Lemma one_action_document_witness :
  parse (freshParser None) m1
    (actionDocument (str "Run: ") (qstr " id='a1' title='T' type='bundled'") [LF]
       (qstr " type='shell'") (str " ls -la ") [LF] (str " done"))
  = (mkParser None allCallbacks
       [(m1,
         mkState
           (length
              (actionDocument (str "Run: ") (qstr " id='a1' title='T' type='bundled'") [LF]
                 (qstr " type='shell'") (str " ls -la ") [LF] (str " done")))
           false false None emptyAction 1)],
     [onArtifactOpen
        (mkArtifactData m1
           (artifactOf (ARTIFACT_TAG_OPEN ++ qstr " id='a1' title='T' type='bundled'"
                        ++ [">"])));
      onActionOpen
        (mkActionData
           (id (artifactOf (ARTIFACT_TAG_OPEN ++ qstr " id='a1' title='T' type='bundled'"
                            ++ [">"]))) m1 (str "0")
           (mkAction (OtherAction (Some (str "shell"))) []));
      onActionClose
        (mkActionData
           (id (artifactOf (ARTIFACT_TAG_OPEN ++ qstr " id='a1' title='T' type='bundled'"
                            ++ [">"]))) m1 (str "0")
           (mkAction (fields (mkAction (OtherAction (Some (str "shell"))) []))
              (closedContent (fields (mkAction (OtherAction (Some (str "shell"))) []))
                 (str " ls -la "))));
      onArtifactClose
        (mkArtifactData m1
           (artifactOf (ARTIFACT_TAG_OPEN ++ qstr " id='a1' title='T' type='bundled'"
                        ++ [">"])))],
     Returns (str "Run: " ++ artifactFactory None m1 ++ str " done")).
Proof.
  apply (one_action_document None m1 (str "Run: ")
           (qstr " id='a1' title='T' type='bundled'") [LF] (qstr " type='shell'")
           (str " ls -la ") [LF] (str " done")
           (mkAction (OtherAction (Some (str "shell"))) [])); reflexivity.
Defined.

(* ================================================================== *)
(** ** The pathless file action, at a state of the loop *)
(* ================================================================== *)

Lemma file_without_path_always_throws_witness :
  exists st',
    step None allCallbacks m1 (str "x")
      (mkState 0 true true (Some a1) (mkAction (FileAction None) []) 1) 0
    = Throw st' [] TypeError.
Proof.
  apply (file_without_path_always_throws None allCallbacks m1 (str "x")
           (mkState 0 true true (Some a1) (mkAction (FileAction None) []) 1) a1 0 []);
    reflexivity.
Defined.
